(** * Roster board: the assignment engine of the guild roster planner

    A shallow embedding of the state-handling code of [src/index.tsx]
    (identical, handler for handler, to [src/App.tsx] and its components)
    and the properties of the specification that were checked against it.

    Conventions of the embedding.
    - A JavaScript string is the list of its UTF-16 code units; [[]] is the
      empty string, the only falsy string.
    - [string | null] and optional fields are [option]; [None] is
      [null]/[undefined].
    - Arrays are lists, read with [!!]; an assignment through a missing
      element ([a[i].f = v] with [a[i]] undefined) throws, which the handlers
      report as [None].
    - [JSON.parse(JSON.stringify(x))] is the identity on a document.
    - [window.confirm] answers are parameters of the handler that asks.
    - [saveData] and [alert] calls are collected in an effect list. *)

From stdpp Require Import base option list sorting strings pretty gmap.

Local Open Scope N_scope.
Local Open Scope nat_scope.

(** ** JavaScript strings *)

Abbreviation jsstring := (list N).

(** Truthiness of a string value: every string but the empty one. *)
Definition truthy (s : jsstring) : bool :=
  match s with [] => false | _ :: _ => true end.

(** Truthiness of a [string | null] value. *)
Definition truthyOpt (o : option jsstring) : bool :=
  match o with Some s => truthy s | None => false end.

(** ASCII literals as JavaScript strings. *)
Definition js (s : string) : jsstring :=
  (λ c, N.of_nat (Ascii.nat_of_ascii c)) <$> String.list_ascii_of_string s.

(** The code units matched by [\s] and stripped by [trim]: the WhiteSpace
    and LineTerminator productions of ECMAScript. *)
Definition isWhiteSpace (c : N) : bool :=
  ((c =? 0x09) || (c =? 0x0A) || (c =? 0x0B) || (c =? 0x0C) || (c =? 0x0D)
   || (c =? 0x20) || (c =? 0xA0) || (c =? 0x1680)
   || ((0x2000 <=? c) && (c <=? 0x200A))
   || (c =? 0x2028) || (c =? 0x2029) || (c =? 0x202F) || (c =? 0x205F)
   || (c =? 0x3000) || (c =? 0xFEFF))%N.

Fixpoint trimStart (s : jsstring) : jsstring :=
  match s with
  | c :: s' => if isWhiteSpace c then trimStart s' else s
  | [] => []
  end.

(** [s.trim()] *)
Definition trim (s : jsstring) : jsstring :=
  reverse (trimStart (reverse (trimStart s))).

(** [s.split(sep)] for a one-unit separator. *)
Fixpoint splitOn (sep : N) (s : jsstring) : list jsstring :=
  match s with
  | [] => [[]]
  | c :: s' =>
      if (c =? sep)%N then [] :: splitOn sep s'
      else match splitOn sep s' with
           | cur :: rest => (c :: cur) :: rest
           | [] => [[c]]
           end
  end.

(** The line feed, ['\n']. *)
Definition LF : N := 0x0A%N.

(** [s.split(/\s+/)]: the fields between maximal runs of white space;
    [inSep] tells that the previous unit belonged to a separator. *)
Fixpoint splitWsFrom (inSep : bool) (s : jsstring) : list jsstring :=
  match s with
  | [] => [[]]
  | c :: s' =>
      if isWhiteSpace c then
        if inSep then splitWsFrom true s' else [] :: splitWsFrom true s'
      else match splitWsFrom false s' with
           | cur :: rest => (c :: cur) :: rest
           | [] => [[c]]
           end
  end.

Definition splitWs (s : jsstring) : list jsstring := splitWsFrom false s.

(** [v || d] for a possibly undefined string [v]. *)
Definition orElse (v : option jsstring) (d : jsstring) : jsstring :=
  match v with
  | Some s => if truthy s then s else d
  | None => d
  end.

(** A JavaScript [Set] of strings, in insertion order. *)
Definition setAdd (x : jsstring) (s : list jsstring) : list jsstring :=
  if decide (x ∈ s) then s else s ++ [x].

Definition setOf (l : list jsstring) : list jsstring :=
  foldl (λ s x, setAdd x s) [] l.

(** The sentinel skill value, U+65E0. *)
Definition SENTINEL : jsstring := [0x65E0%N].

(** [DEFAULT_ULT_SKILLS], [DEFAULT_CLAN_SKILLS] and [CLASS_COLORS]. *)
Definition DEFAULT_ULT_SKILLS : list jsstring :=
  [ [0x7EA2; 0x83B2]%N; [0x51DB; 0x6708]%N; [0x957F; 0x6B4C]%N;
    [0x72C2; 0x5578]%N; [0x7E41; 0x82B1]%N; [0x78A7; 0x8840]%N;
    [0x592A; 0x6781]%N; SENTINEL ].

Definition DEFAULT_CLAN_SKILLS : list jsstring :=
  [ [0x91D1; 0x949F; 0x7F69]%N; [0x5584; 0x6076; 0x65AD]%N;
    [0x660E; 0x9274; 0x62A4; 0x5FC3]%N; [0x4E0D; 0x653B]%N; SENTINEL ].

Definition CLASS_COLORS : list (jsstring * jsstring) :=
  [ ([0x7D20; 0x95EE]%N, js "#F06292"); ([0x6F6E; 0x5149]%N, js "#4FC3F7");
    ([0x94C1; 0x8863]%N, js "#FFB74D"); ([0x8840; 0x6CB3]%N, js "#E57373");
    ([0x9F99; 0x541F]%N, js "#81C784"); ([0x788E; 0x68A6]%N, js "#4DD0E1");
    ([0x6CA7; 0x6F9C]%N, js "#7986CB"); ([0x795E; 0x76F8]%N, js "#64B5F6");
    ([0x4E5D; 0x7075]%N, js "#BA68C8"); ([0x7384; 0x673A]%N, js "#FFF176");
    ([0x672A; 0x77E5]%N, js "#757575") ].

(** ** Data model ([types.ts]) *)

Module Member.
Record t := mk {
  id : jsstring;
  name : jsstring;
  profession : jsstring;
  ult : jsstring;
  clan : jsstring;
  note : option jsstring
}.
End Member.

Module Slot.
Record t := mk {
  id : jsstring;
  memberId : option jsstring;
  note : jsstring
}.
Definition set_memberId (v : option jsstring) (sl : t) : t :=
  mk (id sl) v (note sl).
End Slot.

Module Squad.
Record t := mk {
  id : jsstring;
  name : jsstring;
  slots : list Slot.t
}.
Definition set_slots (f : list Slot.t → list Slot.t) (s : t) : t :=
  mk (id s) (name s) (f (slots s)).
Definition set_name (n : jsstring) (s : t) : t :=
  mk (id s) n (slots s).
End Squad.

Module Group.
Record t := mk {
  id : jsstring;
  name : jsstring;
  theme : option jsstring;
  color : option jsstring;
  strategy : option jsstring;
  newLine : option bool;
  squads : list Squad.t
}.
Definition set_squads (f : list Squad.t → list Squad.t) (g : t) : t :=
  mk (id g) (name g) (theme g) (color g) (strategy g) (newLine g)
     (f (squads g)).
End Group.

Module GameConfig.
Record t := mk {
  ultSkills : list jsstring;
  clanSkills : list jsstring;
  professionColors : option (list (jsstring * jsstring))
}.
End GameConfig.

Module AppData.
Record t := mk {
  pool : list Member.t;
  groups : list Group.t;
  gameConfig : option GameConfig.t
}.
Definition set_groups (f : list Group.t → list Group.t) (d : t) : t :=
  mk (pool d) (f (groups d)) (gameConfig d).
End AppData.

#[global] Instance Member_eq_dec : EqDecision Member.t.
Proof. solve_decision. Defined.
#[global] Instance Slot_eq_dec : EqDecision Slot.t.
Proof. solve_decision. Defined.
#[global] Instance Squad_eq_dec : EqDecision Squad.t.
Proof. solve_decision. Defined.
#[global] Instance Group_eq_dec : EqDecision Group.t.
Proof. solve_decision. Defined.
#[global] Instance GameConfig_eq_dec : EqDecision GameConfig.t.
Proof. solve_decision. Defined.
#[global] Instance AppData_eq_dec : EqDecision AppData.t.
Proof. solve_decision. Defined.

(** ** Effects of a handler *)

Inductive AlertMsg :=
  | MsgImportOk        (* "导入成功！" *)
  | MsgInvalidFormat   (* "无效的文件格式。" *)
  | MsgParseFailed.    (* "文件解析失败。" *)

Inductive Effect :=
  | SaveData (d : AppData.t)
  | Alert (m : AlertMsg).

(** What a [setData] updater yields: the next document and the effects it
    ran, or [None] when it throws. *)
Abbreviation Outcome := (option (AppData.t * list Effect)).

(** The document after an update: a throwing updater installs nothing. *)
Definition commit (prev : AppData.t) (r : Outcome) : AppData.t :=
  match r with Some (d, _) => d | None => prev end.

Definition effectsOf (r : Outcome) : list Effect :=
  match r with Some (_, e) => e | None => [] end.

(** ** Addressing slots *)

(** [d.groups[g].squads[s].slots[sl]], [None] when any step is undefined. *)
Definition slotAt (d : AppData.t) (g s sl : nat) : option Slot.t :=
  grp ← AppData.groups d !! g;
  sq ← Group.squads grp !! s;
  Squad.slots sq !! sl.

(** An in-place update of the slot [d.groups[g].squads[s].slots[sl]], on a
    path that exists. *)
Definition alterSlot (f : Slot.t → Slot.t) (g s sl : nat)
    (d : AppData.t) : AppData.t :=
  AppData.set_groups
    (alter (Group.set_squads (alter (Squad.set_slots (alter f sl)) s)) g) d.

(** The write [d.groups[g].squads[s].slots[sl].memberId = v]. *)
Definition putMemberId (g s sl : nat) (v : option jsstring)
    (d : AppData.t) : AppData.t :=
  alterSlot (Slot.set_memberId v) g s sl d.

(** The same write as the code performs it: a [TypeError] off the path. *)
Definition assignMemberId (g s sl : nat) (v : option jsstring)
    (d : AppData.t) : option AppData.t :=
  _ ← slotAt d g s sl; Some (putMemberId g s sl v d).

(** [groups.forEach(g => g.squads.forEach(s => s.slots.forEach(sl =>
      { if (sl.memberId === id) sl.memberId = null; })))] *)
Definition clearSlot (id : jsstring) (sl : Slot.t) : Slot.t :=
  if decide (Slot.memberId sl = Some id) then Slot.set_memberId None sl else sl.

(** [groups.map(g => ({...g, squads: g.squads.map(s =>
      ({...s, slots: s.slots.map(f)}))}))], also the shape of a nested
    [forEach] that updates every slot in place. *)
Definition mapSlots (f : Slot.t → Slot.t) (gs : list Group.t)
    : list Group.t :=
  Group.set_squads (fmap (Squad.set_slots (fmap f))) <$> gs.

Definition clearMember (id : jsstring) (d : AppData.t) : AppData.t :=
  AppData.set_groups (mapSlots (clearSlot id)) d.

Definition jsonClone (d : AppData.t) : AppData.t := d.

(** ** Placement protocol ([handleSlotClick], [handleSlotDrop]) *)

Definition handleSlotClick (currentSelectedId : option jsstring)
    (confirm : bool) (groupIdx squadIdx slotIdx : nat)
    (prev : AppData.t) : Outcome :=
  if truthyOpt currentSelectedId then
    let sel := default [] currentSelectedId in
    let newData := clearMember sel (jsonClone prev) in
    newData ← assignMemberId groupIdx squadIdx slotIdx (Some sel) newData;
    Some (newData, [SaveData newData])
  else
    slot ← slotAt prev groupIdx squadIdx slotIdx;
    if truthyOpt (Slot.memberId slot) && confirm then
      newData ← assignMemberId groupIdx squadIdx slotIdx None (jsonClone prev);
      Some (newData, [SaveData newData])
    else Some (prev, []).

(** The drag payload written by [handleDragStart] (sidebar) and
    [handleSlotDragStart] (slot); [OtherPayload] is any other [type]. *)
Inductive DragPayload :=
  | SidebarPayload (memberId : jsstring)
  | SlotPayload (gIdx sIdx slotIdx : nat) (memberId : jsstring)
  | OtherPayload.

Definition handleSlotDrop (gIdx sIdx slotIdx : nat) (dragData : DragPayload)
    (prev : AppData.t) : Outcome :=
  let newData := jsonClone prev in
  target ← slotAt newData gIdx sIdx slotIdx;
  let targetMemberId := Slot.memberId target in
  newData ←
    match dragData with
    | SidebarPayload sourceMemberId =>
        assignMemberId gIdx sIdx slotIdx (Some sourceMemberId)
          (clearMember sourceMemberId newData)
    | SlotPayload sourceG sourceS sourceSl sourceMemberId =>
        newData ← assignMemberId gIdx sIdx slotIdx (Some sourceMemberId) newData;
        assignMemberId sourceG sourceS sourceSl targetMemberId newData
    | OtherPayload => Some newData
    end;
  Some (newData, [SaveData newData]).

(** The placement session: the document and the staged member. *)
Record AppState := mkState {
  data : AppData.t;
  selectedMemberId : option jsstring
}.

Inductive Op :=
  | SelectMember (id : jsstring)
  | CancelSelection
  | ClickSlot (g s sl : nat) (confirm : bool)
  | Drop (g s sl : nat) (payload : DragPayload).

(** [onSelectMember], the cancel button, [handleSlotClick] followed by its
    [if (currentSelectedId) setSelectedMemberId(null)], and [handleSlotDrop]. *)
Definition step (st : AppState) (op : Op) : AppState :=
  match op with
  | SelectMember id =>
      mkState (data st)
        (if decide (selectedMemberId st = Some id) then None else Some id)
  | CancelSelection => mkState (data st) None
  | ClickSlot g s sl confirm =>
      mkState
        (commit (data st)
           (handleSlotClick (selectedMemberId st) confirm g s sl (data st)))
        (if truthyOpt (selectedMemberId st) then None else selectedMemberId st)
  | Drop g s sl payload =>
      mkState (commit (data st) (handleSlotDrop g s sl payload (data st)))
        (selectedMemberId st)
  end.

(** Armed(m): a truthy staged id. *)
Definition armed (st : AppState) (m : jsstring) : Prop :=
  selectedMemberId st = Some m ∧ truthy m = true.

(** Number of slots of the document that hold [id]. *)
Definition holds (id : jsstring) (sl : Slot.t) : nat :=
  if decide (Slot.memberId sl = Some id) then 1 else 0.

Definition occSquad (id : jsstring) (s : Squad.t) : nat :=
  sum_list (holds id <$> Squad.slots s).
Definition occGroup (id : jsstring) (g : Group.t) : nat :=
  sum_list (occSquad id <$> Group.squads g).
Definition occurrences (id : jsstring) (d : AppData.t) : nat :=
  sum_list (occGroup id <$> AppData.groups d).

(** I2: no member id is held by two slots. *)
Definition uniquePlacement (d : AppData.t) : Prop :=
  ∀ id, occurrences id d ≤ 1.

(** The operations P1 ranges over: a slot-type payload names the member
    that its source slot holds when it is dropped. *)
Definition admissible (st : AppState) (op : Op) : Prop :=
  match op with
  | Drop _ _ _ (SlotPayload sg ss ssl m) =>
      Slot.memberId <$> slotAt (data st) sg ss ssl = Some (Some m)
  | _ => True
  end.

(** The states visited by a run, and the runs whose every operation is
    admissible where it is applied. *)
Fixpoint trace (st : AppState) (ops : list Op) : list AppState :=
  match ops with
  | [] => []
  | op :: ops => step st op :: trace (step st op) ops
  end.

Fixpoint admissibleRun (st : AppState) (ops : list Op) : Prop :=
  match ops with
  | [] => True
  | op :: ops => admissible st op ∧ admissibleRun (step st op) ops
  end.

(** ** Pool update and the other document handlers *)

(** [slot.memberId && poolIds.has(slot.memberId) ? slot.memberId : null] *)
Definition reconcileMemberId (poolIds : gset jsstring)
    (memberId : option jsstring) : option jsstring :=
  match memberId with
  | Some id =>
      if truthy id && bool_decide (id ∈ poolIds) then Some id else None
  | None => None
  end.

Definition handlePoolUpdate (newPool : list Member.t)
    (prev : AppData.t) : Outcome :=
  let poolIds : gset jsstring := list_to_set (Member.id <$> newPool) in
  let newGroups :=
    mapSlots (λ slot,
      Slot.set_memberId (reconcileMemberId poolIds (Slot.memberId slot)) slot)
      (AppData.groups prev) in
  let newData := AppData.mk newPool newGroups (AppData.gameConfig prev) in
  Some (newData, [SaveData newData]).

Definition handleStructureUpdate (newData : AppData.t) : Outcome :=
  Some (newData, [SaveData newData]).

Definition handleGameConfigUpdate (newConfig : GameConfig.t)
    (prev : AppData.t) : Outcome :=
  let newData :=
    AppData.mk (AppData.pool prev) (AppData.groups prev) (Some newConfig) in
  Some (newData, [SaveData newData]).

Definition handleUpdateMemberSkill (updatedMember : Member.t)
    (prev : AppData.t) : Outcome :=
  let newPool :=
    (λ m, if decide (Member.id m = Member.id updatedMember)
          then updatedMember else m) <$> AppData.pool prev in
  let newData :=
    AppData.mk newPool (AppData.groups prev) (AppData.gameConfig prev) in
  Some (newData, [SaveData newData]).

(** [handleSquadNameChange]. With [squadIdx] past the end JavaScript would
    store an object without [id] and [slots], which is no [Squad]; the
    embedding has no result there, nor where [groups[groupIdx]] is
    undefined and the code throws. *)
Definition handleSquadNameChange (groupIdx squadIdx : nat) (val : jsstring)
    (prev : AppData.t) : Outcome :=
  let newGroups := AppData.groups prev in
  grp ← newGroups !! groupIdx;
  let newSquads := Group.squads grp in
  sq ← newSquads !! squadIdx;
  let newSquads := <[squadIdx := Squad.set_name val sq]> newSquads in
  let newGroups :=
    <[groupIdx := Group.set_squads (λ _, newSquads) grp]> newGroups in
  Some (AppData.set_groups (λ _, newGroups) prev, []).

(** ** Configuration ([GameConfigModal.handleSave]) *)

(** [str.split('\n').map(s => s.trim()).filter(s => s)] *)
Definition skillLines (str : jsstring) : list jsstring :=
  filter (λ s, truthy s = true) (trim <$> splitOn LF str).

(** The configuration handed to [onUpdate], which is
    [handleGameConfigUpdate]. *)
Definition GameConfigModal_handleSave (ultStr clanStr : jsstring)
    (profColors : list (jsstring * jsstring)) : GameConfig.t :=
  GameConfig.mk (skillLines ultStr) (skillLines clanStr) (Some profColors).


(** ** Batch import ([MemberEditorModal.handleBatchImport]) *)

(** The variables of the loop over the lines. *)
Record ImportState := mkImport {
  newPool : list Member.t;
  foundUlts : list jsstring;
  foundClans : list jsstring;
  configChanged : bool;
  addedCount : nat
}.

(** The body of [lines.forEach]. [generateId k] stands for the value of
    the [k]-th call of [generateId()] in the run; the loop calls it once per
    added member. *)
Definition importLine (generateId : nat → jsstring) (st : ImportState)
    (line : jsstring) : ImportState :=
  let parts := splitWs (trim line) in
  if decide (2 ≤ length parts) then
    let name := default [] (parts !! 0) in
    let profession := default [] (parts !! 1) in
    let ult := orElse (parts !! 2) SENTINEL in
    let clan := orElse (parts !! 3) SENTINEL in
    let note := orElse (parts !! 4) [] in
    let newUlt := bool_decide (ult ≠ SENTINEL ∧ ult ∉ foundUlts st) in
    let newClan := bool_decide (clan ≠ SENTINEL ∧ clan ∉ foundClans st) in
    let foundUlts' := if newUlt then foundUlts st ++ [ult] else foundUlts st in
    let foundClans' :=
      if newClan then foundClans st ++ [clan] else foundClans st in
    let configChanged' := newUlt || newClan || configChanged st in
    match list_find (λ m, Member.name m = name) (newPool st) with
    | Some (existingIdx, existing) =>
        mkImport
          (<[existingIdx :=
               Member.mk (Member.id existing) (Member.name existing)
                 profession ult clan
                 (if truthy note then Some note else Member.note existing)]>
             (newPool st))
          foundUlts' foundClans' configChanged' (addedCount st)
    | None =>
        mkImport
          (newPool st ++
             [Member.mk (generateId (addedCount st)) name profession ult clan
                (Some note)])
          foundUlts' foundClans' configChanged' (S (addedCount st))
    end
  else st.

(** What the handler hands to its callbacks: the configuration for
    [onUpdateGameConfig] (only when a skill was discovered), the pool for
    [onUpdatePool], and the count shown in the final alert. *)
Record BatchResult := mkBatch {
  updatedConfig : option GameConfig.t;
  updatedPool : list Member.t;
  reportedAdded : nat
}.

Definition handleBatchImport (generateId : nat → jsstring)
    (localPool : list Member.t) (gameConfig : GameConfig.t)
    (batchText : jsstring) : BatchResult :=
  let lines := splitOn LF (trim batchText) in
  let st :=
    foldl (importLine generateId)
      (mkImport localPool
         (setOf (GameConfig.ultSkills gameConfig))
         (setOf (GameConfig.clanSkills gameConfig)) false 0)
      lines in
  mkBatch
    (if configChanged st then
       Some (GameConfig.mk (foundUlts st) (foundClans st)
               (GameConfig.professionColors gameConfig))
     else None)
    (newPool st) (addedCount st).

(** The configuration of the document after the import. *)
Definition configAfter (gameConfig : GameConfig.t) (r : BatchResult)
    : GameConfig.t :=
  default gameConfig (updatedConfig r).

(** ** Derived views ([stats], [groupRows]) *)

(** Every slot of the document, in traversal order. *)
Definition allSlots (d : AppData.t) : list Slot.t :=
  g ← AppData.groups d; s ← Group.squads g; Squad.slots s.

(** [profCounts[p] = (profCounts[p] || 0) + 1] on a record whose keys are
    kept in insertion order. Keys are taken to be ordinary profession
    names: names that the object inherits from its prototype are not
    modelled. *)
Fixpoint bump (p : jsstring) (profCounts : list (jsstring * nat))
    : list (jsstring * nat) :=
  match profCounts with
  | [] => [(p, 1)]
  | (q, n) :: rest =>
      if decide (q = p) then (q, S n) :: rest else (q, n) :: bump p rest
  end.

(** [data.pool.find(x => x.id === id)] *)
Definition findMember (pool : list Member.t) (id : jsstring)
    : option Member.t :=
  snd <$> list_find (λ x, Member.id x = id) pool.

Record Stats := mkStats {
  count : nat;
  profCounts : list (jsstring * nat);
  sortedProfs : list (jsstring * nat)
}.

(** A stable sort by descending count, as [Array.prototype.sort] with the
    comparator [(a,b) => b[1] - a[1]]: each entry is put before the first
    entry, among those that followed it, whose count is not larger. *)
Fixpoint insertByCount (e : jsstring * nat) (l : list (jsstring * nat))
    : list (jsstring * nat) :=
  match l with
  | [] => [e]
  | x :: rest =>
      if decide (x.2 ≤ e.2) then e :: x :: rest
      else x :: insertByCount e rest
  end.

Definition sortByCountDesc (l : list (jsstring * nat))
    : list (jsstring * nat) :=
  foldr insertByCount [] l.

(** [stats]: the loop over all slots, then
    [Object.entries(profCounts).sort((a,b) => b[1] - a[1])], a stable sort.
    (JavaScript lists keys that are canonical array indices first; that
    only affects the order of entries.) *)
Definition stats (data : AppData.t) : Stats :=
  let '(count, profCounts) :=
    foldl (λ '(count, profCounts) sl,
             match Slot.memberId sl with
             | Some id =>
                 if truthy id then
                   match findMember (AppData.pool data) id with
                   | Some m => (S count, bump (Member.profession m) profCounts)
                   | None => (S count, profCounts)
                   end
                 else (count, profCounts)
             | None => (count, profCounts)
             end)
          (0, []) (allSlots data) in
  mkStats count profCounts (sortByCountDesc profCounts).

(** JavaScript truthiness of the optional flag [newLine]. *)
Definition flagSet (b : option bool) : bool := default false b.

Definition groupRows (groups : list Group.t) : list (list Group.t) :=
  let '(rows, currentRow) :=
    foldl (λ '(rows, currentRow) g,
             let '(rows, currentRow) :=
               if flagSet (Group.newLine g)
                  && bool_decide (0 < length currentRow)
               then (rows ++ [currentRow], [])
               else (rows, currentRow) in
             (rows, currentRow ++ [g]))
          ([], []) groups in
  if bool_decide (0 < length currentRow) then rows ++ [currentRow] else rows.

(** Positions, in the concatenation of the rows, at which a row starts. *)
Fixpoint rowStarts {A} (rows : list (list A)) : list nat :=
  match rows with
  | [] => []
  | r :: rest => 0 :: ((λ i, length r + i) <$> rowStarts rest)
  end.

(** ** Exchange file import ([handleImportJSON]) *)

(** The value produced by [JSON.parse], and the values the handler can
    build from it. A number is represented by an integer: the handler only
    tests numbers for being zero and for identity. An object is the list
    of its own properties, in order, each key once. *)
#[local] Set Warnings "-register-all".

Inductive Value :=
  | VUndefined
  | VNull
  | VBool (b : bool)
  | VNum (n : Z)
  | VStr (s : jsstring)
  | VArr (items : list Value)
  | VObj (fields : list (jsstring * Value)).

(** [v.key] for the property names the handler reads ([pool], [groups],
    [gameConfig], [ult], [clan]), which no primitive and no array has:
    [None] is the [TypeError] of a read on [null] or [undefined]. *)
Definition getField (v : Value) (key : jsstring) : option Value :=
  match v with
  | VUndefined | VNull => None
  | VObj fields =>
      Some (default VUndefined
              ((λ r, r.2.2) <$> list_find (λ f, f.1 = key) fields))
  | _ => Some VUndefined
  end.

(** [obj.key = v] *)
Fixpoint putField (key : jsstring) (v : Value)
    (fields : list (jsstring * Value)) : list (jsstring * Value) :=
  match fields with
  | [] => [(key, v)]
  | (k, w) :: rest =>
      if decide (k = key) then (k, v) :: rest else (k, w) :: putField key v rest
  end.

Definition setField (obj : Value) (key : jsstring) (v : Value) : Value :=
  match obj with
  | VObj fields => VObj (putField key v fields)
  | _ => obj
  end.

Definition truthyValue (v : Value) : bool :=
  match v with
  | VUndefined | VNull => false
  | VBool b => b
  | VNum n => negb (n =? 0)%Z
  | VStr s => truthy s
  | VArr _ | VObj _ => true
  end.

Definition isArray (v : Value) : bool :=
  match v with VArr _ => true | _ => false end.

Definition arrayItems (v : Value) : list Value :=
  match v with VArr items => items | _ => [] end.

(** SameValueZero, the equality of [Set]. Two objects or arrays met at
    different places of a parsed document are different references. *)
Definition sameValueZero (a b : Value) : bool :=
  match a, b with
  | VUndefined, VUndefined | VNull, VNull => true
  | VBool x, VBool y => bool_decide (x = y)
  | VNum x, VNum y => bool_decide (x = y)
  | VStr x, VStr y => bool_decide (x = y)
  | _, _ => false
  end.

Definition valueSetAdd (x : Value) (s : list Value) : list Value :=
  if existsb (sameValueZero x) s then s else s ++ [x].

(** [v !== '无'] *)
Definition notSentinel (v : Value) : bool :=
  match v with VStr s => bool_decide (s ≠ SENTINEL) | _ => true end.

(** The configuration rebuilt from the pool when the file has none; [None]
    when the loop over the pool throws. *)
Definition rebuildConfig (pool : list Value) : option Value :=
  sets ← foldl (λ acc m,
                  '(ults, clans) ← acc;
                  ult ← getField m (js "ult");
                  let ults :=
                    if notSentinel ult then valueSetAdd ult ults else ults in
                  clan ← getField m (js "clan");
                  let clans :=
                    if notSentinel clan then valueSetAdd clan clans
                    else clans in
                  Some (ults, clans))
            (Some (VStr <$> DEFAULT_ULT_SKILLS, VStr <$> DEFAULT_CLAN_SKILLS))
            pool;
  Some (VObj [(js "ultSkills", VArr sets.1);
              (js "clanSkills", VArr sets.2);
              (js "professionColors",
               VObj ((λ kv, (kv.1, VStr kv.2)) <$> CLASS_COLORS))]).

Inductive ImportEffect :=
  | SaveValue (v : Value)
  | ImportAlert (m : AlertMsg).

(** What the handler did: the document given to [setData], if it was
    called, and the [saveData] and [alert] calls. *)
Record ImportOutcome := mkOutcome {
  installed : option Value;
  importEffects : list ImportEffect
}.

(** The body of the [try] block after [JSON.parse]; [None] when it
    throws. *)
Definition importParsed (confirm : bool) (parsedData : Value)
    : option ImportOutcome :=
  pool ← getField parsedData (js "pool");
  shapeOk ←
    (if truthyValue pool && isArray pool then
       groups ← getField parsedData (js "groups");
       Some (truthyValue groups && isArray groups)
     else Some false);
  if shapeOk : bool then
    if confirm then
      gameConfig ← getField parsedData (js "gameConfig");
      parsedData ←
        (if truthyValue gameConfig then Some parsedData
         else cfg ← rebuildConfig (arrayItems pool);
              Some (setField parsedData (js "gameConfig") cfg));
      Some (mkOutcome (Some parsedData)
              [SaveValue parsedData; ImportAlert MsgImportOk])
    else Some (mkOutcome None [])
  else Some (mkOutcome None [ImportAlert MsgInvalidFormat]).

(** [reader.onload] on a file whose text parses to [parsedData]: the
    [catch] block answers any exception with the parse-failure alert. *)
Definition handleImportJSON (confirm : bool) (parsedData : Value)
    : ImportOutcome :=
  default (mkOutcome None [ImportAlert MsgParseFailed])
    (importParsed confirm parsedData).

(** [pool] and [groups] both present and sequences. *)
Definition validShape (doc : Value) : Prop :=
  ∃ fields pool groups,
    doc = VObj fields ∧
    getField doc (js "pool") = Some (VArr pool) ∧
    getField doc (js "groups") = Some (VArr groups).

(** ** Vocabulary of the statements *)

(** The groups with every slot emptied: what is left of a document's
    structure when the assignments are ignored. *)
Definition blankMembers (gs : list Group.t) : list Group.t :=
  mapSlots (Slot.set_memberId None) gs.

(** A slot counted as assigned by [stats], and the pool member it shows. *)
Definition assigned (sl : Slot.t) : bool := truthyOpt (Slot.memberId sl).

Definition resolvedMember (pool : list Member.t) (sl : Slot.t)
    : option Member.t :=
  match Slot.memberId sl with
  | Some id => if truthy id then findMember pool id else None
  | None => None
  end.

Definition dangling (pool : list Member.t) (sl : Slot.t) : bool :=
  assigned sl && bool_decide (resolvedMember pool sl = None).


(** The rows produced from a current row [cur] and the groups still to
    come: [groupRows] as a recursion on its input. *)
Fixpoint rowsFrom (cur : list Group.t) (gs : list Group.t)
    : list (list Group.t) :=
  match gs with
  | [] => if bool_decide (0 < length cur) then [cur] else []
  | g :: gs' =>
      if flagSet (Group.newLine g) && bool_decide (0 < length cur)
      then cur :: rowsFrom [g] gs'
      else rowsFrom (cur ++ [g]) gs'
  end.

(** ** Sample documents *)

Definition defaultConfig : GameConfig.t :=
  GameConfig.mk DEFAULT_ULT_SKILLS DEFAULT_CLAN_SKILLS None.

Definition alice : Member.t :=
  Member.mk (js "m1") (js "Alice") (js "healer") SENTINEL SENTINEL None.
Definition bob : Member.t :=
  Member.mk (js "m2") (js "Bob") (js "tank") SENTINEL SENTINEL None.

(** One group with one squad of the given slots. *)
Definition boardOf (pool : list Member.t) (slots : list Slot.t) : AppData.t :=
  AppData.mk pool
    [Group.mk (js "g1") (js "Main") None None None None
       [Squad.mk (js "s1") (js "One") slots]]
    (Some defaultConfig).

(** Alice in slot 0, Bob in slot 1, slot 2 empty. *)
Definition sampleDoc : AppData.t :=
  boardOf [alice; bob]
    [Slot.mk (js "a") (Some (js "m1")) [];
     Slot.mk (js "b") (Some (js "m2")) [];
     Slot.mk (js "c") None []].

(** Alice in two slots: a document that breaks I2, as an imported file
    may. *)
Definition doubledDoc : AppData.t :=
  boardOf [alice]
    [Slot.mk (js "a") (Some (js "m1")) [];
     Slot.mk (js "b") (Some (js "m1")) []].

(** A member whose id is the empty string, placed in slot 0. *)
Definition nameless : Member.t :=
  Member.mk [] (js "Eve") (js "scout") SENTINEL SENTINEL None.

Definition emptyIdDoc : AppData.t :=
  boardOf [nameless] [Slot.mk (js "a") (Some []) []].

(** ** Member editor ([handleSaveSingle], [handleDelete]) *)

(** The edit form, a [Partial<Member>]. Every [setEditForm] of the
    component gives it [profession], [ult] and [clan]; [id] is there once a
    pool member was clicked into the form, and [name] once it was typed.
    [note] is absent ([None]), or present with the value [undefined]
    ([Some None], from a member that carries such a property) or with a
    string. *)
Module EditForm.
Record t := mk {
  id : option jsstring;
  name : option jsstring;
  profession : jsstring;
  ult : jsstring;
  clan : jsstring;
  note : option (option jsstring)
}.
End EditForm.

(** [setEditForm(m)]: the member itself becomes the form. [ownNote] tells
    whether [m] has a property [note]. *)
Definition formOf (m : Member.t) (ownNote : bool) : EditForm.t :=
  EditForm.mk (Some (Member.id m)) (Some (Member.name m))
    (Member.profession m) (Member.ult m) (Member.clan m)
    (if ownNote then Some (Member.note m)
     else match Member.note m with Some n => Some (Some n) | None => None end).

(** [setEditForm({...editForm, name: e.target.value})] *)
Definition typeName (v : jsstring) (editForm : EditForm.t) : EditForm.t :=
  EditForm.mk (EditForm.id editForm) (Some v) (EditForm.profession editForm)
    (EditForm.ult editForm) (EditForm.clan editForm) (EditForm.note editForm).

(** [{ ...existing, ...editForm }] *)
Definition mergeForm (existing : Member.t) (editForm : EditForm.t)
    : Member.t :=
  Member.mk (default (Member.id existing) (EditForm.id editForm))
    (default (Member.name existing) (EditForm.name editForm))
    (EditForm.profession editForm) (EditForm.ult editForm)
    (EditForm.clan editForm)
    (default (Member.note existing) (EditForm.note editForm)).

(** [{ ...editForm, id: generateId() }] for a form that has a name. *)
Definition memberOfForm (editForm : EditForm.t) (name id : jsstring)
    : Member.t :=
  Member.mk id name (EditForm.profession editForm) (EditForm.ult editForm)
    (EditForm.clan editForm) (default None (EditForm.note editForm)).

(** [handleSaveSingle]: the pool handed to [setLocalPool] and
    [onUpdatePool], or [None] when the handler returns before them.
    [generateId] is the value of the one call the handler can make. *)
Definition handleSaveSingle (generateId : jsstring) (confirm : bool)
    (editForm : EditForm.t) (localPool : list Member.t)
    : option (list Member.t) :=
  match EditForm.name editForm with
  | Some name =>
      if truthy name then
        match list_find (λ m, Member.name m = name) localPool with
        | Some (existingIndex, existing) =>
            if confirm then
              Some (<[existingIndex := mergeForm existing editForm]> localPool)
            else None
        | None => Some (localPool ++ [memberOfForm editForm name generateId])
        end
      else None
  | None => None
  end.

(** [handleDelete]: the pool handed to [onUpdatePool]. *)
Definition handleDelete (id : jsstring) (localPool : list Member.t)
    : list Member.t :=
  filter (λ m, Member.id m ≠ id) localPool.

(** ** Skill editor ([handleSlotRightClick], [SkillEditorModal.handleSave]) *)

(** The member shown by the context menu: [pool.find(m => m.id === id)]. *)
Definition handleSlotRightClick (memberId : jsstring) (d : AppData.t)
    : option Member.t :=
  findMember (AppData.pool d) memberId.

(** [{ ...member, ...form }] with [form = { ult, clan, note }]. *)
Definition skillEditorSave (member : Member.t) (ult clan note : jsstring)
    : Member.t :=
  Member.mk (Member.id member) (Member.name member) (Member.profession member)
    ult clan (Some note).

(** ** Structure editor ([StructureEditorModal]) *)

(** [GROUP_COLORS[0].value] and the literals of the new group. *)
Definition FIRST_GROUP_COLOR : jsstring := js "#EF9A9A".
Definition NEW_GROUP_NAME : jsstring := [0x65B0; 0x5EFA; 0x56E2]%N.
Definition NEW_GROUP_STRATEGY : jsstring := [0x8FDB; 0x653B]%N.
Definition NEW_GROUP_SQUAD_NAME : jsstring :=
  [0x65B0; 0x56E2; 0x002D; 0x0031; 0x961F]%N.
Definition SQUAD_SUFFIX : jsstring := [0x961F]%N.

(** [Array(6).fill(null).map(() => ({ id: generateId(), memberId: null,
    note: '' }))], the ids being calls [first], [first + 1], ... *)
Definition freshSlots (generateId : nat → jsstring) (first : nat)
    : list Slot.t :=
  (λ k, Slot.mk (generateId (first + k)) None []) <$> seq 0 6.

(** The decimal text of a number in a template string. *)
Definition decimal (n : nat) : jsstring := js (pretty n).

(** The field written by [handleUpdateGroup] at its four call sites. *)
Inductive GroupField :=
  | FieldName (v : jsstring)
  | FieldStrategy (v : jsstring)
  | FieldColor (v : jsstring)
  | FieldNewLine (v : bool).

Definition setGroupField (f : GroupField) (g : Group.t) : Group.t :=
  match f with
  | FieldName v =>
      Group.mk (Group.id g) v (Group.theme g) (Group.color g)
        (Group.strategy g) (Group.newLine g) (Group.squads g)
  | FieldStrategy v =>
      Group.mk (Group.id g) (Group.name g) (Group.theme g) (Group.color g)
        (Some v) (Group.newLine g) (Group.squads g)
  | FieldColor v =>
      Group.mk (Group.id g) (Group.name g) (Group.theme g) (Some v)
        (Group.strategy g) (Group.newLine g) (Group.squads g)
  | FieldNewLine v =>
      Group.mk (Group.id g) (Group.name g) (Group.theme g) (Group.color g)
        (Group.strategy g) (Some v) (Group.squads g)
  end.

(** [handleUpdateGroup]. Past the end JavaScript would store an object with
    the one field, which is no [Group]; the embedding has no result there. *)
Definition handleUpdateGroup (idx : nat) (field : GroupField)
    (localGroups : list Group.t) : option (list Group.t) :=
  g ← localGroups !! idx;
  Some (<[idx := setGroupField field g]> localGroups).

(** [handleSquadCount]: [None] when [newGroups[gIdx]] is undefined and the
    read of [group.squads] throws; the groups as they were when the handler
    returns without [setLocalGroups]. *)
Definition handleSquadCount (generateId : nat → jsstring) (confirm : bool)
    (gIdx : nat) (delta : Z) (localGroups : list Group.t)
    : option (list Group.t) :=
  group ← localGroups !! gIdx;
  if bool_decide (0 < delta)%Z then
    let squad :=
      Squad.mk (generateId 0)
        (Group.name group ++ js "-"
           ++ decimal (length (Group.squads group) + 1) ++ SQUAD_SUFFIX)
        (freshSlots generateId 1) in
    Some (<[gIdx := Group.set_squads (λ squads, squads ++ [squad]) group]>
            localGroups)
  else if bool_decide (0 < length (Group.squads group)) then
    if confirm then
      Some (<[gIdx := Group.set_squads
                        (λ squads, take (length squads - 1) squads) group]>
              localGroups)
    else Some localGroups
  else Some localGroups.

Definition handleAddGroup (generateId : nat → jsstring)
    (localGroups : list Group.t) : list Group.t :=
  localGroups ++
    [Group.mk (generateId 0) NEW_GROUP_NAME None (Some FIRST_GROUP_COLOR)
       (Some NEW_GROUP_STRATEGY) (Some false)
       [Squad.mk (generateId 1) NEW_GROUP_SQUAD_NAME (freshSlots generateId 2)]].

(** [handleDeleteGroup]: [splice(idx, 1)] after confirmation. *)
Definition handleDeleteGroup (confirm : bool) (idx : nat)
    (localGroups : list Group.t) : list Group.t :=
  if confirm then delete idx localGroups else localGroups.

(** [StructureEditorModal.handleSave], into [handleStructureUpdate]. *)
Definition saveStructure (localGroups : list Group.t) (data : AppData.t)
    : Outcome :=
  handleStructureUpdate
    (AppData.mk (AppData.pool data) localGroups (AppData.gameConfig data)).

(** One edit in the structure editor. A handler that throws leaves the
    local groups as they are, and so does, in the embedding, a field update
    past the end, where [handleUpdateGroup] has no result. *)
Inductive StructEdit :=
  | UpdateGroup (idx : nat) (field : GroupField)
  | SquadCount (generateId : nat → jsstring) (confirm : bool) (gIdx : nat)
      (delta : Z)
  | AddGroup (generateId : nat → jsstring)
  | DeleteGroup (confirm : bool) (idx : nat).

Definition applyEdit (localGroups : list Group.t) (e : StructEdit)
    : list Group.t :=
  match e with
  | UpdateGroup idx field =>
      default localGroups (handleUpdateGroup idx field localGroups)
  | SquadCount generateId confirm gIdx delta =>
      default localGroups
        (handleSquadCount generateId confirm gIdx delta localGroups)
  | AddGroup generateId => handleAddGroup generateId localGroups
  | DeleteGroup confirm idx => handleDeleteGroup confirm idx localGroups
  end.

(** The editor opened on a document ([localGroups] starts as a clone of
    [data.groups]), a series of edits, then the save button. *)
Definition editStructure (edits : list StructEdit) (data : AppData.t)
    : Outcome :=
  saveStructure (foldl applyEdit (jsonClone data).(AppData.groups) edits) data.

(** The edits the editor offers: a field is edited on a group that is
    shown. *)
Fixpoint editsOffered (localGroups : list Group.t) (edits : list StructEdit)
    : Prop :=
  match edits with
  | [] => True
  | e :: edits =>
      match e with
      | UpdateGroup idx _ => idx < length localGroups
      | _ => True
      end ∧ editsOffered (applyEdit localGroups e) edits
  end.

(** ** Sidebar ([MemberSidebar]) *)

(** [assignedMemberIds]: the truthy references of all slots. *)
Definition assignedMemberIds (data : AppData.t) : gset jsstring :=
  foldl (λ ids slot,
           match Slot.memberId slot with
           | Some id => if truthy id then {[id]} ∪ ids else ids
           | None => ids
           end) ∅ (allSlots data).

(** [availableMembers] *)
Definition availableMembers (members : list Member.t) (data : AppData.t)
    : list Member.t :=
  filter (λ m, Member.id m ∉ assignedMemberIds data) members.

(** [professions]: [Array.from(new Set(members.map(m => m.profession)))] *)
Definition professions (members : list Member.t) : list jsstring :=
  setOf (Member.profession <$> members).

(** I1: every slot reference names a pool member. *)
Definition noDangling (d : AppData.t) : Prop :=
  ∀ g s sl slot id,
    slotAt d g s sl = Some slot → Slot.memberId slot = Some id →
    ∃ m, m ∈ AppData.pool d ∧ Member.id m = id.

(** A member of the pool with the given id. *)
Definition knownMember (d : AppData.t) (id : jsstring) : Prop :=
  ∃ m, m ∈ AppData.pool d ∧ Member.id m = id.

(** The operations the board itself offers: the sidebar lists pool members
    only, for selection and for dragging, and a slot is dragged with its
    occupant. *)
Definition offered (st : AppState) (op : Op) : Prop :=
  match op with
  | SelectMember id => knownMember (data st) id
  | Drop _ _ _ (SidebarPayload m) => knownMember (data st) m
  | Drop _ _ _ (SlotPayload sg ss ssl m) =>
      Slot.memberId <$> slotAt (data st) sg ss ssl = Some (Some m)
  | _ => True
  end.

Fixpoint offeredRun (st : AppState) (ops : list Op) : Prop :=
  match ops with
  | [] => True
  | op :: ops => offered st op ∧ offeredRun (step st op) ops
  end.

(** The pool editor hands the pool over while the board keeps its
    selection: [handlePoolUpdate] has no [setSelectedMemberId]. *)
Definition poolUpdateStep (newPool : list Member.t) (st : AppState)
    : AppState :=
  mkState (commit (data st) (handlePoolUpdate newPool (data st)))
    (selectedMemberId st).

(** The truthy references of the slots, in traversal order. *)
Definition placedIds (d : AppData.t) : list jsstring :=
  omap (λ sl, match Slot.memberId sl with
              | Some id => if truthy id then Some id else None
              | None => None
              end) (allSlots d).

(** [l.join('\n')], the text with which [GameConfigModal] fills a skill
    box. *)
Fixpoint joinLines (l : list jsstring) : jsstring :=
  match l with
  | [] => []
  | x :: rest =>
      match rest with
      | [] => x
      | _ :: _ => x ++ LF :: joinLines rest
      end
  end.

(** The initial state of [GameConfigModal]: both skill boxes and
    [config.professionColors || CLASS_COLORS]. *)
Definition GameConfigModal_open (config : GameConfig.t)
    : jsstring * jsstring * list (jsstring * jsstring) :=
  (joinLines (GameConfig.ultSkills config),
   joinLines (GameConfig.clanSkills config),
   default CLASS_COLORS (GameConfig.professionColors config)).

(** A string that is empty or starts with a unit that is no white space,
    and an entry as [handleSave] leaves it: not empty, on one line, without
    white space at either end. *)
Definition tidy (s : jsstring) : Prop :=
  match s with
  | [] => True
  | c :: _ => isWhiteSpace c = false
  end.

Definition cleanEntry (s : jsstring) : Prop :=
  s ≠ [] ∧ (LF ∉ s) ∧ tidy s ∧ tidy (reverse s).

(** A line whose name and skills are already known. *)
Definition knownLine (st : ImportState) (line : jsstring) : Prop :=
  ∀ name profession rest,
    splitWs (trim line) = name :: profession :: rest →
    name ∈ Member.name <$> newPool st ∧
    (orElse (rest !! 0) SENTINEL ≠ SENTINEL →
       orElse (rest !! 0) SENTINEL ∈ foundUlts st) ∧
    (orElse (rest !! 1) SENTINEL ≠ SENTINEL →
       orElse (rest !! 1) SENTINEL ∈ foundClans st).

(** ** The session as a whole *)

(** What the operator can do to the document from the board and its
    dialogs, the import of an exchange file apart: a placement operation,
    a pool handed over by the member editor, a session of the structure
    editor, a configuration handed over by the configuration dialog or the
    batch import, a member saved by the skill editor, a squad renamed on
    the board. Only the placement operations touch the selection. *)
Inductive AppOp :=
  | Placement (op : Op)
  | PoolEdit (newPool : list Member.t)
  | StructureEdit (edits : list StructEdit)
  | ConfigEdit (newConfig : GameConfig.t)
  | SkillEdit (updatedMember : Member.t)
  | SquadRename (groupIdx squadIdx : nat) (val : jsstring).

Definition appStep (st : AppState) (op : AppOp) : AppState :=
  match op with
  | Placement op => step st op
  | PoolEdit newPool => poolUpdateStep newPool st
  | StructureEdit edits =>
      mkState (commit (data st) (editStructure edits (data st)))
        (selectedMemberId st)
  | ConfigEdit newConfig =>
      mkState (commit (data st) (handleGameConfigUpdate newConfig (data st)))
        (selectedMemberId st)
  | SkillEdit updatedMember =>
      mkState
        (commit (data st) (handleUpdateMemberSkill updatedMember (data st)))
        (selectedMemberId st)
  | SquadRename groupIdx squadIdx val =>
      mkState
        (commit (data st)
           (handleSquadNameChange groupIdx squadIdx val (data st)))
        (selectedMemberId st)
  end.

(** The operations within reach of the interface: a slot is dragged with
    its occupant, a field is edited on a group that is shown, and a squad
    that is shown is renamed. *)
Definition appOffered (st : AppState) (op : AppOp) : Prop :=
  match op with
  | Placement op => admissible st op
  | StructureEdit edits => editsOffered (AppData.groups (data st)) edits
  | SquadRename groupIdx squadIdx _ =>
      is_Some (grp ← AppData.groups (data st) !! groupIdx;
               Group.squads grp !! squadIdx)
  | _ => True
  end.

Fixpoint appTrace (st : AppState) (ops : list AppOp) : list AppState :=
  match ops with
  | [] => []
  | op :: ops => appStep st op :: appTrace (appStep st op) ops
  end.

Fixpoint appOfferedRun (st : AppState) (ops : list AppOp) : Prop :=
  match ops with
  | [] => True
  | op :: ops => appOffered st op ∧ appOfferedRun (appStep st op) ops
  end.

(** ** What the components hand to the handlers *)

(** [SlotItem.handleDragStartInternal] into [handleSlotDragStart]: the
    payload of a drag that starts on a slot, if one starts. The member is
    the one [SquadColumn] resolves for the slot,
    [slot.memberId ? pool.find(m => m.id === slot.memberId) : undefined]. *)
Definition slotDragStart (isExportMode : bool) (pool : list Member.t)
    (gIdx sIdx slotIdx : nat) (slot : Slot.t) : option DragPayload :=
  member ← resolvedMember pool slot;
  if isExportMode then None
  else Some (SlotPayload gIdx sIdx slotIdx (Member.id member)).

(** [SlotItem]'s [onContextMenu] into [handleSlotRightClick]. *)
Definition slotContextMenu (isExportMode : bool) (slot : Slot.t)
    (d : AppData.t) : option Member.t :=
  member ← resolvedMember (AppData.pool d) slot;
  if isExportMode then None else handleSlotRightClick (Member.id member) d.

(** [MemberSidebar.handleDragStart] and [onSelectMember] on a listed
    member. *)
Definition sidebarDragStart (member : Member.t) : DragPayload :=
  SidebarPayload (Member.id member).

Definition sidebarSelect (member : Member.t) : Op :=
  SelectMember (Member.id member).

(** ** Colour and strategy of a group ([THEME_CONFIG], [GROUP_COLORS]) *)

Module Theme.
Record t := mk {
  bg : jsstring;
  border : jsstring;
  label : jsstring
}.
End Theme.

Definition ATTACK_THEME : jsstring := [0x8FDB; 0x653B; 0x0028; 0x7EA2; 0x0029]%N.

Definition THEME_CONFIG : list (jsstring * Theme.t) :=
  [ (ATTACK_THEME,
     Theme.mk (js "rgba(239, 154, 154, 0.2)") (js "#EF9A9A")
       [0x8FDB; 0x653B]%N);
    ([0x9632; 0x5B88; 0x0028; 0x84DD; 0x0029]%N,
     Theme.mk (js "rgba(144, 202, 249, 0.2)") (js "#90CAF9")
       [0x9632; 0x5B88]%N);
    ([0x673A; 0x52A8; 0x0028; 0x9EC4; 0x0029]%N,
     Theme.mk (js "rgba(255, 224, 130, 0.2)") (js "#FFE082")
       [0x673A; 0x52A8]%N);
    ([0x8F85; 0x52A9; 0x0028; 0x7EFF; 0x0029]%N,
     Theme.mk (js "rgba(165, 214, 167, 0.2)") (js "#A5D6A7")
       [0x8F85; 0x52A9]%N);
    ([0x7EFC; 0x5408; 0x0028; 0x7D2B; 0x0029]%N,
     Theme.mk (js "rgba(206, 147, 216, 0.2)") (js "#CE93D8")
       [0x7EFC; 0x5408]%N);
    ([0x6697; 0x9ED1; 0x0028; 0x7070; 0x0029]%N,
     Theme.mk (js "rgba(176, 190, 197, 0.2)") (js "#B0BEC5")
       [0x6697; 0x9ED1]%N) ].

(** [GROUP_COLORS]: label and value. *)
Definition GROUP_COLORS : list (jsstring * jsstring) :=
  [ ([0x7EA2]%N, js "#EF9A9A"); ([0x84DD]%N, js "#90CAF9");
    ([0x9EC4]%N, js "#FFE082"); ([0x7EFF]%N, js "#A5D6A7");
    ([0x7D2B]%N, js "#CE93D8"); ([0x7070]%N, js "#B0BEC5");
    ([0x7C89]%N, js "#F48FB1"); ([0x6A59]%N, js "#FFCC80");
    ([0x9752]%N, js "#80DEEA") ].

(** The strategy shown for a group that has neither strategy nor theme. *)
Definition MIXED_STRATEGY : jsstring := [0x7EFC; 0x5408]%N.

(** [s.startsWith(t)] and [s.includes(t)] *)
Fixpoint startsWith (s t : jsstring) : bool :=
  match t, s with
  | [], _ => true
  | _ :: _, [] => false
  | b :: t', a :: s' => (a =? b)%N && startsWith s' t'
  end.

Fixpoint includes (s t : jsstring) : bool :=
  startsWith s t ||
  match s with
  | [] => false
  | _ :: s' => includes s' t
  end.

(** [THEME_CONFIG[theme]], undefined for other keys. *)
Definition themeOf (theme : jsstring) : option Theme.t :=
  (λ r, r.2.2) <$> list_find (λ e, e.1 = theme) THEME_CONFIG.

(** [a || b] for an optional string [a]. *)
Definition orElseOpt (a b : option jsstring) : option jsstring :=
  if truthyOpt a then a else b.

(** [currentColor] and [currentStrategy] of the structure editor. *)
Definition currentColor (group : Group.t) : option jsstring :=
  orElseOpt (Group.color group)
    (if truthyOpt (Group.theme group) then
       (λ r, r.2.2)
         <$> list_find
               (λ c, includes (default [] (Group.theme group)) c.1 = true)
               GROUP_COLORS
     else (λ c, c.2) <$> GROUP_COLORS !! 0).

Definition currentStrategy (group : Group.t) : option jsstring :=
  orElseOpt (Group.strategy group)
    (if truthyOpt (Group.theme group) then
       splitOn 0x28 (default [] (Group.theme group)) !! 0
     else Some MIXED_STRATEGY).

(** [themeColor] and [strategyTag] of the board. *)
Definition themeColor (group : Group.t) : option jsstring :=
  orElseOpt (Group.color group)
    (if truthyOpt (Group.theme group) then
       Theme.border <$> themeOf (default [] (Group.theme group))
     else Theme.border <$> themeOf ATTACK_THEME).

Definition strategyTag (group : Group.t) : option jsstring :=
  orElseOpt (Group.strategy group)
    (if truthyOpt (Group.theme group) then
       Theme.label <$> themeOf (default [] (Group.theme group))
     else Some MIXED_STRATEGY).

(** * Properties *)

(** ** Lists updated in place *)

Section SumAlter.
Context {A : Type} (w : A → nat).

Lemma sum_list_alter (f : A → A) (i : nat) (l : list A) (x : A) :
  l !! i = Some x →
  sum_list (w <$> alter f i l) + w x = sum_list (w <$> l) + w (f x).
Proof.
  revert i; induction l as [|y l IH]; intros [|i] Hi; simplify_eq/=.
  - lia.
  - specialize (IH _ Hi). lia.
Qed.

Lemma sum_list_fmap_le (c : A → A) (l : list A) :
  (∀ x, w (c x) ≤ w x) → sum_list (w <$> (c <$> l)) ≤ sum_list (w <$> l).
Proof.
  intros Hc; induction l as [|y l IH]; csimpl; [lia|].
  specialize (Hc y). lia.
Qed.

Lemma sum_list_fmap_zero (c : A → A) (l : list A) :
  (∀ x, w (c x) = 0) → sum_list (w <$> (c <$> l)) = 0.
Proof.
  intros Hc; induction l as [|y l IH]; csimpl; [done|].
  rewrite Hc, IH. done.
Qed.

Lemma sum_list_lookup_le (i : nat) (l : list A) (x : A) :
  l !! i = Some x → w x ≤ sum_list (w <$> l).
Proof.
  revert i; induction l as [|y l IH]; intros [|i] Hi; simplify_eq/=.
  - lia.
  - specialize (IH _ Hi). lia.
Qed.
End SumAlter.

(** ** Reading and counting after a write *)

Section Placement.
Implicit Types (d : AppData.t) (id : jsstring) (v : option jsstring).
Implicit Types (g s sl : nat) (x : Slot.t).

Lemma slotAt_put g s sl v d g' s' sl' :
  slotAt (putMemberId g s sl v d) g' s' sl' =
  if decide (g = g' ∧ s = s' ∧ sl = sl')
  then Slot.set_memberId v <$> slotAt d g' s' sl'
  else slotAt d g' s' sl'.
Proof.
  unfold slotAt, putMemberId, alterSlot; simpl.
  destruct (decide (g = g')) as [->|Hg].
  2:{ rewrite list_lookup_alter_ne by done. case_decide as Hc; [by destruct Hc as (?&?&?)|done]. }
  rewrite list_lookup_alter_eq.
  destruct (AppData.groups d !! g') as [grp|]; simpl; [|by case_decide].
  destruct (decide (s = s')) as [->|Hs].
  2:{ rewrite list_lookup_alter_ne by done. case_decide as Hc; [by destruct Hc as (?&?&?)|done]. }
  rewrite list_lookup_alter_eq.
  destruct (Group.squads grp !! s') as [sq|]; simpl; [|by case_decide].
  destruct (decide (sl = sl')) as [->|Hsl].
  2:{ rewrite list_lookup_alter_ne by done. case_decide as Hc; [by destruct Hc as (?&?&?)|done]. }
  rewrite list_lookup_alter_eq. case_decide as Hc; [done|by destruct Hc].
Qed.

Lemma slotAt_mapSlots (f : Slot.t → Slot.t) d g s sl :
  slotAt (AppData.set_groups (mapSlots f) d) g s sl = f <$> slotAt d g s sl.
Proof.
  unfold slotAt, mapSlots; simpl.
  rewrite list_lookup_fmap.
  destruct (AppData.groups d !! g) as [grp|]; simpl; [|done].
  rewrite list_lookup_fmap.
  destruct (Group.squads grp !! s) as [sq|]; simpl; [|done].
  by rewrite list_lookup_fmap.
Qed.

Lemma slotAt_clear id d g s sl :
  slotAt (clearMember id d) g s sl = clearSlot id <$> slotAt d g s sl.
Proof. apply slotAt_mapSlots. Qed.

Lemma occurrences_put id g s sl v d x :
  slotAt d g s sl = Some x →
  occurrences id (putMemberId g s sl v d) + holds id x =
  occurrences id d + holds id (Slot.set_memberId v x).
Proof.
  unfold slotAt, putMemberId, alterSlot, occurrences; simpl.
  destruct (AppData.groups d !! g) as [grp|] eqn:Hg; simpl; [|done].
  destruct (Group.squads grp !! s) as [sq|] eqn:Hs; simpl; [|done].
  intros Hsl.
  pose proof (sum_list_alter (occGroup id)
    (Group.set_squads
       (alter (Squad.set_slots (alter (Slot.set_memberId v) sl)) s))
    g _ _ Hg) as H1.
  pose proof (sum_list_alter (occSquad id)
    (Squad.set_slots (alter (Slot.set_memberId v) sl)) s _ _ Hs) as H2.
  pose proof (sum_list_alter (holds id) (Slot.set_memberId v) sl _ _ Hsl)
    as H3.
  unfold occGroup, occSquad in *; simpl in *. lia.
Qed.

Lemma holds_le_1 id x : holds id x ≤ 1.
Proof. unfold holds; case_decide; lia. Qed.

Lemma holds_clearSlot_same id x : holds id (clearSlot id x) = 0.
Proof.
  unfold holds, clearSlot.
  destruct (decide (Slot.memberId x = Some id)); simpl;
    [done|by rewrite decide_False].
Qed.

Lemma holds_clearSlot_le id id' x : holds id' (clearSlot id x) ≤ holds id' x.
Proof.
  unfold holds, clearSlot.
  destruct (decide (Slot.memberId x = Some id)); simpl; [|done].
  case_decide; lia.
Qed.

Lemma occurrences_clear_same id d : occurrences id (clearMember id d) = 0.
Proof.
  unfold occurrences, clearMember, mapSlots; simpl.
  apply sum_list_fmap_zero; intros grp. unfold occGroup; simpl.
  apply sum_list_fmap_zero; intros sq. unfold occSquad; simpl.
  apply sum_list_fmap_zero, holds_clearSlot_same.
Qed.

Lemma occurrences_clear_le id id' d :
  occurrences id' (clearMember id d) ≤ occurrences id' d.
Proof.
  unfold occurrences, clearMember, mapSlots; simpl.
  apply sum_list_fmap_le; intros grp. unfold occGroup; simpl.
  apply sum_list_fmap_le; intros sq. unfold occSquad; simpl.
  apply sum_list_fmap_le, holds_clearSlot_le.
Qed.

Lemma holds_set id v x :
  holds id (Slot.set_memberId v x) = if decide (v = Some id) then 1 else 0.
Proof. done. Qed.

(** Clear every slot holding [m], then write [m] somewhere: no id gains a
    second slot. *)
Lemma occurrences_place m g s sl d d' id :
  assignMemberId g s sl (Some m) (clearMember m d) = Some d' →
  occurrences id d ≤ 1 → occurrences id d' ≤ 1.
Proof.
  unfold assignMemberId.
  destruct (slotAt (clearMember m d) g s sl) as [x|] eqn:Hx; [|done].
  simpl; intros [= <-] Hd.
  pose proof (occurrences_put id g s sl (Some m) _ x Hx) as Hput.
  rewrite holds_set in Hput.
  pose proof (occurrences_clear_le m id d).
  pose proof (holds_le_1 id x).
  case_decide; simplify_eq; [|lia].
  rewrite occurrences_clear_same in Hput. lia.
Qed.

Lemma occurrences_remove g s sl d d' id :
  assignMemberId g s sl None d = Some d' →
  occurrences id d' ≤ occurrences id d.
Proof.
  unfold assignMemberId.
  destruct (slotAt d g s sl) as [x|] eqn:Hx; [|done].
  simpl; intros [= <-].
  pose proof (occurrences_put id g s sl None _ x Hx) as Hput.
  rewrite holds_set in Hput. case_decide; [done|lia].
Qed.

(** The swap of a slot-type drop whose payload names the occupant of its
    source keeps every count. *)
Lemma occurrences_swap g s sl sg ss ssl m d d1 d2 target id :
  slotAt d g s sl = Some target →
  Slot.memberId <$> slotAt d sg ss ssl = Some (Some m) →
  assignMemberId g s sl (Some m) d = Some d1 →
  assignMemberId sg ss ssl (Slot.memberId target) d1 = Some d2 →
  occurrences id d2 = occurrences id d.
Proof.
  intros Ht Hsrc. unfold assignMemberId. rewrite Ht; simpl. intros [= <-].
  destruct (slotAt (putMemberId g s sl (Some m) d) sg ss ssl)
    as [y|] eqn:Hy; [|done].
  simpl; intros [= <-].
  pose proof (occurrences_put id g s sl (Some m) d target Ht) as H1.
  pose proof (occurrences_put id sg ss ssl (Slot.memberId target) _ y Hy)
    as H2.
  rewrite holds_set in H1, H2.
  assert (Slot.memberId y = Some m) as Hym.
  { clear H1 H2. rewrite slotAt_put in Hy.
    destruct (slotAt d sg ss ssl) as [t|]; simplify_eq/=.
    case_decide; by simplify_eq/=. }
  unfold holds in *. rewrite Hym in *.
  repeat case_decide; simplify_eq; try lia; congruence.
Qed.

Lemma step_occurrences st op id :
  admissible st op →
  occurrences id (data st) ≤ 1 → occurrences id (data (step st op)) ≤ 1.
Proof.
  destruct st as [d sel], op as [m| |g s sl c|g s sl p]; simpl;
    intros Hadm Hd; try done.
  - unfold handleSlotClick, jsonClone.
    destruct (truthyOpt sel) eqn:Hsel.
    + destruct (assignMemberId g s sl _ (clearMember _ d)) as [d'|] eqn:Hd';
        simpl; [|done].
      by eapply occurrences_place.
    + destruct (slotAt d g s sl) as [x|]; simpl; [|done].
      destruct (truthyOpt (Slot.memberId x) && c); simpl; [|done].
      destruct (assignMemberId g s sl None d) as [d'|] eqn:Hd'; simpl;
        [|done].
      pose proof (occurrences_remove _ _ _ _ _ id Hd'). lia.
  - unfold handleSlotDrop, jsonClone.
    destruct (slotAt d g s sl) as [target|] eqn:Ht; simpl; [|done].
    destruct p as [m|sg ss ssl m|]; simpl; [| |done].
    + destruct (assignMemberId g s sl _ (clearMember _ d)) as [d'|] eqn:Hd';
        simpl; [|done].
      by eapply occurrences_place.
    + destruct (assignMemberId g s sl (Some m) d) as [d1|] eqn:Hd1; simpl;
        [|done].
      destruct (assignMemberId sg ss ssl _ d1) as [d2|] eqn:Hd2; simpl;
        [|done].
      by erewrite occurrences_swap.
Qed.
End Placement.

(** C1 (P1, I2): along every run of placement operations (member
    selection, slot clicks, sidebar drops, and slot drops whose payload names
    the occupant of the source slot) from a document in which no member id is
    held by two slots, every visited document still holds each member id in
    at most one slot. *)
Theorem placement_keeps_members_unique (ops : list Op) (st : AppState) :
  uniquePlacement (data st) →
  admissibleRun st ops →
  Forall (λ st', uniquePlacement (data st')) (trace st ops).
Proof.
  revert st; induction ops as [|op ops IH]; intros st Hu Hrun; simpl.
  - constructor.
  - destruct Hrun as [Hop Hrun].
    assert (uniquePlacement (data (step st op))) as Hu'.
    { intros id. by apply step_occurrences. }
    constructor; [done|]. by apply IH.
Qed.

(** ** Algebra of slot writes *)

Section AlterAlgebra.
Context {A : Type}.
Implicit Types (l : list A) (i j : nat).

Lemma alter_alter_swap (F G : A → A) i j l :
  (i = j → ∀ x, l !! i = Some x → F (G x) = G (F x)) →
  alter F i (alter G j l) = alter G j (alter F i l).
Proof.
  intros HFG. destruct (decide (i = j)) as [->|Hij].
  - rewrite !list_alter_alter_eq. apply list_alter_ext; [|done].
    intros x Hx; simpl. by apply HFG.
  - by apply list_alter_alter_ne.
Qed.

Lemma alter_fixed (F : A → A) i l x :
  l !! i = Some x → F x = x → alter F i l = l.
Proof.
  intros Hi HF. apply list_eq; intros j.
  rewrite list_lookup_alter. case_decide; [subst|done].
  by rewrite Hi; simpl; rewrite HF.
Qed.

Lemma fmap_fixed (w : A → nat) (c : A → A) l :
  (∀ y, w y = 0 → c y = y) → sum_list (w <$> l) = 0 → c <$> l = l.
Proof.
  intros Hc; induction l as [|y l IH]; csimpl; [done|].
  intros Hs. rewrite Hc, IH by lia. done.
Qed.

Lemma fmap_alter_unique (w : A → nat) (c c' : A → A) i l x :
  l !! i = Some x →
  sum_list (w <$> l) ≤ w x →
  (∀ y, w y = 0 → c y = y) →
  c x = c' x →
  c <$> l = alter c' i l.
Proof.
  intros Hi Hs Hc Hx. revert i Hi Hs.
  induction l as [|y l IH]; intros [|i] Hi Hs; simplify_eq/=.
  - rewrite Hx. f_equal. apply (fmap_fixed w); [done|lia].
  - pose proof (sum_list_lookup_le w _ _ _ Hi).
    rewrite Hc by lia. f_equal. apply IH; [done|lia].
Qed.
End AlterAlgebra.

Section SlotAlgebra.
Implicit Types (d : AppData.t) (id m : jsstring) (v : option jsstring).
Implicit Types (g s sl : nat) (x : Slot.t) (f h : Slot.t → Slot.t).

Lemma alterSlot_compose f h g s sl d :
  alterSlot f g s sl (alterSlot h g s sl d) = alterSlot (f ∘ h) g s sl d.
Proof.
  unfold alterSlot, AppData.set_groups; destruct d as [p gs c]; simpl. f_equal.
  rewrite list_alter_alter_eq. apply list_alter_ext; [|done].
  intros [] _; simpl; unfold Group.set_squads; simpl. f_equal.
  rewrite list_alter_alter_eq. apply list_alter_ext; [|done].
  intros [] _; simpl; unfold Squad.set_slots; simpl. f_equal.
  by rewrite list_alter_alter_eq.
Qed.

Lemma alterSlot_commute f h g s sl g' s' sl' d :
  ¬ (g = g' ∧ s = s' ∧ sl = sl') →
  alterSlot f g s sl (alterSlot h g' s' sl' d) =
  alterSlot h g' s' sl' (alterSlot f g s sl d).
Proof.
  intros Hne. unfold alterSlot, AppData.set_groups; destruct d as [p gs c]; simpl. f_equal.
  apply alter_alter_swap. intros -> [] _; unfold Group.set_squads; simpl.
  f_equal. apply alter_alter_swap.
  intros -> [] _; unfold Squad.set_slots; simpl.
  f_equal. apply alter_alter_swap. intros ->. by destruct Hne.
Qed.

Lemma alterSlot_fixed f g s sl d x :
  slotAt d g s sl = Some x → f x = x → alterSlot f g s sl d = d.
Proof.
  unfold slotAt, alterSlot, AppData.set_groups; destruct d as [p gs c]; simpl.
  destruct (gs !! g) as [grp|] eqn:Hg; simpl; [|done].
  destruct (Group.squads grp !! s) as [sq|] eqn:Hs; simpl; [|done].
  intros Hsl Hf. f_equal. apply (alter_fixed _ _ _ grp); [done|].
  destruct grp; unfold Group.set_squads; simpl in *. f_equal.
  apply (alter_fixed _ _ _ sq); [done|].
  destruct sq; unfold Squad.set_slots; simpl in *. f_equal.
  by apply (alter_fixed _ _ _ x).
Qed.

Lemma alterSlot_ext f h g s sl d :
  (∀ x, slotAt d g s sl = Some x → f x = h x) →
  alterSlot f g s sl d = alterSlot h g s sl d.
Proof.
  unfold slotAt, alterSlot, AppData.set_groups; destruct d as [p gs c]; simpl. intros Hfh.
  f_equal. apply list_alter_ext; [|done].
  intros grp Hg; rewrite Hg in Hfh; simpl in Hfh.
  destruct grp; unfold Group.set_squads; simpl in *. f_equal.
  apply list_alter_ext; [|done].
  intros sq Hs; rewrite Hs in Hfh; simpl in Hfh.
  destruct sq; unfold Squad.set_slots; simpl in *. f_equal.
  by apply list_alter_ext.
Qed.

Lemma set_memberId_same x : Slot.set_memberId (Slot.memberId x) x = x.
Proof. by destruct x. Qed.

Lemma putMemberId_fixed g s sl d x :
  slotAt d g s sl = Some x → putMemberId g s sl (Slot.memberId x) d = d.
Proof.
  intros Hx. eapply alterSlot_fixed; [done|apply set_memberId_same].
Qed.

Lemma putMemberId_twice g s sl v v' d :
  putMemberId g s sl v (putMemberId g s sl v' d) = putMemberId g s sl v d.
Proof. unfold putMemberId. by rewrite alterSlot_compose. Qed.

Lemma occSquad_zero_clear m sq :
  occSquad m sq = 0 → Squad.set_slots (fmap (clearSlot m)) sq = sq.
Proof.
  destruct sq as [i n sls]; unfold occSquad, Squad.set_slots; simpl.
  intros H0. f_equal. apply (fmap_fixed (holds m)); [|done].
  intros y. unfold holds, clearSlot. by case_decide.
Qed.

Lemma occGroup_zero_clear m grp :
  occGroup m grp = 0 →
  Group.set_squads (fmap (Squad.set_slots (fmap (clearSlot m)))) grp = grp.
Proof.
  destruct grp; unfold occGroup, Group.set_squads; simpl.
  intros H0. f_equal. apply (fmap_fixed (occSquad m)); [|done].
  apply occSquad_zero_clear.
Qed.

(** When [m] sits in a single slot, clearing it everywhere is clearing
    that slot. *)
Lemma clearMember_single m g s sl d x :
  slotAt d g s sl = Some x →
  Slot.memberId x = Some m →
  occurrences m d ≤ 1 →
  clearMember m d = alterSlot (clearSlot m) g s sl d.
Proof.
  unfold slotAt, clearMember, mapSlots, alterSlot, occurrences,
    AppData.set_groups.
  destruct d as [p gs c]; simpl.
  destruct (gs !! g) as [grp|] eqn:Hg; simpl; [|done].
  destruct (Group.squads grp !! s) as [sq|] eqn:Hs; simpl; [|done].
  intros Hsl Hm Hocc.
  assert (holds m x = 1) as Hx by (unfold holds; by rewrite decide_True).
  pose proof (sum_list_lookup_le (holds m) _ _ _ Hsl) as Hsq.
  pose proof (sum_list_lookup_le (occSquad m) _ _ _ Hs) as Hgrp.
  fold (occSquad m sq) in Hsq. fold (occGroup m grp) in Hgrp.
  f_equal.
  apply (fmap_alter_unique (occGroup m) _ _ _ _ grp);
    [done|lia|apply occGroup_zero_clear|].
  pose proof (sum_list_lookup_le (occGroup m) _ _ _ Hg) as Hall.
  destruct grp as [gi gn gt gc gst gnl sqs]; unfold Group.set_squads;
    simpl in *. f_equal.
  apply (fmap_alter_unique (occSquad m) _ _ _ _ sq);
    [done|unfold occGroup in *; simpl in *; lia|apply occSquad_zero_clear|].
  destruct sq as [si sn sls]; unfold Squad.set_slots; simpl in *. f_equal.
  apply (fmap_alter_unique (holds m) _ _ _ _ x);
    [done|unfold occGroup, occSquad in *; simpl in *; lia| |done].
  intros y. unfold holds, clearSlot. by case_decide.
Qed.
End SlotAlgebra.

Section Swap.
Implicit Types (d : AppData.t) (m : jsstring) (a b : Slot.t).

Lemma assignMemberId_Some g s sl v d x :
  slotAt d g s sl = Some x →
  assignMemberId g s sl v d = Some (putMemberId g s sl v d).
Proof. unfold assignMemberId. by intros ->. Qed.

Lemma handleSlotDrop_slot gB sB slB gA sA slA m d a b :
  slotAt d gA sA slA = Some a →
  slotAt d gB sB slB = Some b →
  handleSlotDrop gB sB slB (SlotPayload gA sA slA m) d =
  let d' := putMemberId gA sA slA (Slot.memberId b)
              (putMemberId gB sB slB (Some m) d) in
  Some (d', [SaveData d']).
Proof.
  intros Ha Hb. unfold handleSlotDrop, jsonClone. rewrite Hb; simpl.
  rewrite (assignMemberId_Some _ _ _ _ _ b) by done; simpl.
  destruct (slotAt (putMemberId gB sB slB (Some m) d) gA sA slA)
    as [y|] eqn:Hy.
  - by rewrite (assignMemberId_Some _ _ _ _ _ y).
  - rewrite slotAt_put, Ha in Hy. by case_decide.
Qed.

Lemma swap_back gA sA slA gB sB slB m d a b :
  slotAt d gA sA slA = Some a → Slot.memberId a = Some m →
  slotAt d gB sB slB = Some b →
  putMemberId gB sB slB (Slot.memberId b)
    (putMemberId gA sA slA (Some m)
       (putMemberId gA sA slA (Slot.memberId b)
          (putMemberId gB sB slB (Some m) d))) = d.
Proof.
  intros Ha Hm Hb. rewrite putMemberId_twice.
  destruct (decide (gA = gB ∧ sA = sB ∧ slA = slB)) as [(-> & -> & ->)|Hne].
  - rewrite !putMemberId_twice. by apply putMemberId_fixed.
  - unfold putMemberId at 2 3. rewrite alterSlot_commute by done.
    fold (putMemberId gA sA slA (Some m) d).
    rewrite <- Hm, (putMemberId_fixed _ _ _ _ a) by done.
    fold (putMemberId gB sB slB (Some (Slot.id a)) d).
    rewrite Hm. fold (putMemberId gB sB slB (Some m) d).
    rewrite putMemberId_twice. by apply putMemberId_fixed.
Qed.
End Swap.

(** C3 (P4, swap symmetry): when slot A holds member [m] and slot B holds
    [n] (possibly nobody), dropping the slot-type payload {source A,
    memberId m} on B leaves B holding [m] and A holding [n], every other
    slot as it was; the inverse drop (source B, memberId m, target A)
    restores the document; and a slot-type payload dropped on its own
    source slot leaves the document unchanged. *)
Theorem slot_drop_swaps_and_swaps_back
    (d : AppData.t) (gA sA slA gB sB slB : nat) (a b : Slot.t)
    (m : jsstring) :
  slotAt d gA sA slA = Some a →
  Slot.memberId a = Some m →
  slotAt d gB sB slB = Some b →
  ∃ d',
    handleSlotDrop gB sB slB (SlotPayload gA sA slA m) d
      = Some (d', [SaveData d']) ∧
    slotAt d' gB sB slB = Some (Slot.set_memberId (Some m) b) ∧
    slotAt d' gA sA slA = Some (Slot.set_memberId (Slot.memberId b) a) ∧
    (∀ g s sl,
       ¬ (g = gA ∧ s = sA ∧ sl = slA) → ¬ (g = gB ∧ s = sB ∧ sl = slB) →
       slotAt d' g s sl = slotAt d g s sl) ∧
    AppData.pool d' = AppData.pool d ∧
    AppData.gameConfig d' = AppData.gameConfig d ∧
    handleSlotDrop gA sA slA (SlotPayload gB sB slB m) d'
      = Some (d, [SaveData d]) ∧
    (∀ m', handleSlotDrop gB sB slB (SlotPayload gB sB slB m') d
             = Some (d, [SaveData d])).
Proof.
  intros Ha Hm Hb.
  set (d1 := putMemberId gB sB slB (Some m) d).
  set (d' := putMemberId gA sA slA (Slot.memberId b) d1).
  assert (slotAt d' gA sA slA
          = Some (Slot.set_memberId (Slot.memberId b) a)) as HA'.
  { unfold d', d1. rewrite !slotAt_put, Ha. rewrite decide_True by done.
    case_decide; done. }
  assert (slotAt d' gB sB slB = Some (Slot.set_memberId (Some m) b)) as HB'.
  { unfold d', d1. rewrite !slotAt_put, Hb.
    rewrite (decide_True (P := gB = gB ∧ _)) by done.
    case_decide as Hc; [|done]. destruct Hc as (-> & -> & ->).
    assert (a = b) as -> by congruence.
    simpl. unfold Slot.set_memberId; simpl. by rewrite Hm. }
  exists d'. split_and!; try done.
  - by rewrite (handleSlotDrop_slot _ _ _ _ _ _ _ _ a b).
  - intros g s sl HnA HnB. unfold d', d1. rewrite !slotAt_put.
    rewrite !decide_False; [done| |]; intros (-> & -> & ->); tauto.
  - rewrite (handleSlotDrop_slot _ _ _ _ _ _ _ _ _ _ HB' HA'); simpl.
    unfold d', d1. by rewrite (swap_back _ _ _ _ _ _ _ _ a b).
  - intros m'. rewrite (handleSlotDrop_slot _ _ _ _ _ _ _ _ b b) by done.
    simpl. rewrite putMemberId_twice.
    by rewrite (putMemberId_fixed _ _ _ _ b).
Qed.

(** C7 (P3), as the code has it: when the armed member [m] occupies the
    clicked slot and no other slot, the click writes back the document it
    found and the session returns to Idle. *)
Theorem click_on_own_slot_keeps_document
    (st : AppState) (m : jsstring) (g s sl : nat) (x : Slot.t)
    (confirm : bool) :
  armed st m →
  slotAt (data st) g s sl = Some x →
  Slot.memberId x = Some m →
  occurrences m (data st) ≤ 1 →
  handleSlotClick (selectedMemberId st) confirm g s sl (data st)
    = Some (data st, [SaveData (data st)]) ∧
  step st (ClickSlot g s sl confirm) = mkState (data st) None.
Proof.
  destruct st as [d sel]; unfold armed; simpl. intros [-> Hm] Hx Hmx Hocc.
  assert (handleSlotClick (Some m) confirm g s sl d
          = Some (d, [SaveData d])) as Hclick.
  { unfold handleSlotClick, jsonClone; simpl. rewrite Hm.
    rewrite (clearMember_single m g s sl d x) by done.
    assert (slotAt (alterSlot (clearSlot m) g s sl d) g s sl
            = Some (clearSlot m x)) as Hc.
    { rewrite <- (clearMember_single m g s sl d x) by done.
      by rewrite slotAt_clear, Hx. }
    rewrite (assignMemberId_Some _ _ _ _ _ _ Hc); simpl.
    unfold putMemberId. rewrite alterSlot_compose.
    rewrite (alterSlot_fixed _ _ _ _ _ x); [done|done|].
    simpl. unfold clearSlot. rewrite decide_True by done.
    destruct x; simpl in *. by rewrite Hmx. }
  split; [done|]. rewrite Hclick; simpl. by rewrite Hm.
Qed.

(** ** Row grouping *)

Section GroupRows.
Implicit Types (g : Group.t) (gs cur : list Group.t).
Implicit Types (rows : list (list Group.t)).

Lemma groupRows_rowsFrom gs : groupRows gs = rowsFrom [] gs.
Proof.
  unfold groupRows.
  enough (∀ rows cur,
    (let '(rows', cur') :=
       foldl (λ '(rows, currentRow) g,
                let '(rows, currentRow) :=
                  if flagSet (Group.newLine g)
                     && bool_decide (0 < length currentRow)
                  then (rows ++ [currentRow], [])
                  else (rows, currentRow) in
                (rows, currentRow ++ [g]))
             (rows, cur) gs in
     if bool_decide (0 < length cur') then rows' ++ [cur'] else rows')
    = rows ++ rowsFrom cur gs) as H by apply (H [] []).
  induction gs as [|g gs IH]; intros rows cur; simpl.
  - case_bool_decide; [done|by rewrite app_nil_r].
  - destruct (flagSet (Group.newLine g) && bool_decide (0 < length cur)).
    + rewrite IH. by rewrite <- app_assoc.
    + by rewrite IH.
Qed.

Lemma rowsFrom_concat cur gs : concat (rowsFrom cur gs) = cur ++ gs.
Proof.
  revert cur; induction gs as [|g gs IH]; intros cur; simpl.
  - case_bool_decide; simpl; [done|]. destruct cur; simpl in *; [done|lia].
  - destruct (flagSet (Group.newLine g) && bool_decide (0 < length cur));
      simpl; rewrite IH; [done|by rewrite <- app_assoc].
Qed.

Lemma rowsFrom_nonempty cur gs : Forall (λ r, r ≠ []) (rowsFrom cur gs).
Proof.
  revert cur; induction gs as [|g gs IH]; intros cur; simpl.
  - case_bool_decide; [|done]. constructor; [|done].
    destruct cur; simpl in *; [lia|done].
  - destruct (flagSet (Group.newLine g) && bool_decide (0 < length cur))
      eqn:Hc; [|done].
    apply andb_true_iff in Hc as [_ Hc%bool_decide_eq_true].
    constructor; [|done]. destruct cur; simpl in *; [lia|done].
Qed.

Lemma rowsFrom_starts cur gs i :
  cur ≠ [] →
  i ∈ rowStarts (rowsFrom cur gs) ↔
  i = 0 ∨ ∃ j g, i = length cur + j ∧ gs !! j = Some g
                 ∧ flagSet (Group.newLine g) = true.
Proof.
  revert cur i; induction gs as [|g gs IH]; intros cur i Hcur; simpl.
  - rewrite bool_decide_eq_true_2 by (destruct cur; simpl; [done|lia]).
    simpl. rewrite list_elem_of_singleton. split; [by left|].
    intros [->|(j & g' & _ & Hj & _)]; [done|by rewrite lookup_nil in Hj].
  - rewrite bool_decide_eq_true_2 by (destruct cur; simpl; [done|lia]).
    rewrite andb_true_r. destruct (flagSet (Group.newLine g)) eqn:Hg; simpl.
    + rewrite elem_of_cons, list_elem_of_fmap. split.
      * intros [->|(i' & -> & Hi')]; [by left|right].
        destruct (proj1 (IH [g] i' ltac:(done)) Hi')
          as [->|(j & g' & -> & Hj & Hf)].
        -- exists 0, g. split_and!; [lia|done|done].
        -- exists (S j), g'. simpl. split_and!; [lia|done|done].
      * intros [->|(j & g' & -> & Hj & Hf)]; [by left|right].
        destruct j as [|j]; simpl in Hj.
        -- exists 0. split; [lia|]. apply (IH [g]); [done|by left].
        -- exists (S j). split; [simpl; lia|]. apply (IH [g]); [done|].
           right. exists j, g'. by split_and!.
    + rewrite IH by (by destruct cur). rewrite length_app; simpl. split.
      * intros [->|(j & g' & -> & Hj & Hf)]; [by left|right].
        exists (S j), g'. split_and!; [lia|done|done].
      * intros [->|(j & g' & -> & Hj & Hf)]; [by left|right].
        destruct j as [|j]; simpl in Hj; [congruence|].
        exists j, g'. split_and!; [lia|done|done].
Qed.
End GroupRows.

(** C8: [groupRows] splits the groups into rows whose concatenation is the
    original sequence, none of them empty, and a row starts exactly at the
    first group and at every later group whose [newLine] is true. *)
Theorem groupRows_partitions_at_newLine (groups : list Group.t) :
  concat (groupRows groups) = groups ∧
  Forall (λ row, row ≠ []) (groupRows groups) ∧
  ∀ i, i ∈ rowStarts (groupRows groups) ↔
       ∃ g, groups !! i = Some g
            ∧ (i = 0 ∨ flagSet (Group.newLine g) = true).
Proof.
  rewrite groupRows_rowsFrom. split_and!.
  - apply rowsFrom_concat.
  - apply rowsFrom_nonempty.
  - intros i. destruct groups as [|g gs]; simpl.
    + split; [by intros ?%elem_of_nil|by intros (? & ? & _)].
    + rewrite andb_false_r.
      rewrite (rowsFrom_starts [g] gs i) by done. simpl. split.
      * intros [->|(j & g' & -> & Hj & Hf)]; [exists g; by split; [|left]|].
        exists g'. split; [done|by right].
      * intros (g' & Hi & Hor). destruct i as [|i]; [by left|right].
        destruct Hor as [|Hf]; [done|]. exists i, g'. by split_and!.
Qed.

(** ** Pool update *)

Section PoolUpdate.
Implicit Types (newPool : list Member.t) (prev : AppData.t).

Lemma mapSlots_compose (f h : Slot.t → Slot.t) (gs : list Group.t) :
  mapSlots f (mapSlots h gs) = mapSlots (f ∘ h) gs.
Proof.
  unfold mapSlots. rewrite <- list_fmap_compose.
  apply list_fmap_ext; intros _ [] _; unfold Group.set_squads; simpl.
  f_equal. rewrite <- list_fmap_compose.
  apply list_fmap_ext; intros _ [] _; unfold Squad.set_slots; simpl.
  f_equal. by rewrite <- list_fmap_compose.
Qed.

Lemma in_pool_ids newPool (id : jsstring) :
  id ∈ (list_to_set (Member.id <$> newPool) : gset jsstring) ↔
  ∃ m, m ∈ newPool ∧ Member.id m = id.
Proof.
  rewrite elem_of_list_to_set, list_elem_of_fmap. split.
  - intros (m & -> & Hm). by exists m.
  - intros (m & Hm & <-). by exists m.
Qed.

Lemma reconcileMemberId_spec newPool (v : option jsstring) :
  let v' := reconcileMemberId (list_to_set (Member.id <$> newPool)) v in
  (v' = None ∨ v' = v) ∧
  (v' = None ↔
     v = None ∨ v = Some [] ∨
     ∃ id, v = Some id ∧ ¬ ∃ m, m ∈ newPool ∧ Member.id m = id) ∧
  (∀ id, v' = Some id → ∃ m, m ∈ newPool ∧ Member.id m = id).
Proof.
  destruct v as [[|c id]|]; simpl.
  - split_and!; [by left| |done]. split; [by right; left|done].
  - case_bool_decide as Hin; rewrite in_pool_ids in Hin.
    + split_and!; [by right| |by intros ? [= <-]].
      split; [done|]. intros [|[|(? & [= <-] & Hn)]]; done.
    + split_and!; [by left| |done].
      split; [|done]. intros _. right; right. by eexists.
  - split_and!; [by left| |done]. split; [by left|done].
Qed.
End PoolUpdate.

(** C2 (I1, reconcileSlots), as the code has it: the pool update installs
    the new pool, saves the result, and keeps groups, squads, slot ids and
    slot notes as they were; a slot's member reference becomes null exactly
    when it was null, was the empty string, or names no member of the new
    pool, and is otherwise kept; afterwards every non-null reference names a
    member of the pool. *)
Theorem pool_update_reconciles_slots
    (newPool : list Member.t) (prev : AppData.t) :
  ∃ d',
    handlePoolUpdate newPool prev = Some (d', [SaveData d']) ∧
    AppData.pool d' = newPool ∧
    AppData.gameConfig d' = AppData.gameConfig prev ∧
    blankMembers (AppData.groups d') = blankMembers (AppData.groups prev) ∧
    (∀ g s sl, slotAt d' g s sl = None ↔ slotAt prev g s sl = None) ∧
    (∀ g s sl slot, slotAt prev g s sl = Some slot →
       ∃ slot',
         slotAt d' g s sl = Some slot' ∧
         Slot.id slot' = Slot.id slot ∧
         Slot.note slot' = Slot.note slot ∧
         (Slot.memberId slot' = None
          ∨ Slot.memberId slot' = Slot.memberId slot) ∧
         (Slot.memberId slot' = None ↔
            Slot.memberId slot = None ∨ Slot.memberId slot = Some [] ∨
            ∃ id, Slot.memberId slot = Some id
                  ∧ ¬ ∃ m, m ∈ newPool ∧ Member.id m = id)) ∧
    (∀ g s sl slot' id,
       slotAt d' g s sl = Some slot' → Slot.memberId slot' = Some id →
       ∃ m, m ∈ AppData.pool d' ∧ Member.id m = id).
Proof.
  eexists. split; [reflexivity|]. simpl.
  set (f := λ slot : Slot.t,
         Slot.set_memberId
           (reconcileMemberId (list_to_set (Member.id <$> newPool))
              (Slot.memberId slot)) slot).
  assert (∀ g s sl,
    slotAt (AppData.mk newPool (mapSlots f (AppData.groups prev))
              (AppData.gameConfig prev)) g s sl
    = f <$> slotAt prev g s sl) as Hat.
  { intros g s sl. rewrite <- (slotAt_mapSlots f prev). done. }
  split_and!; try done.
  - unfold blankMembers. by rewrite mapSlots_compose.
  - intros g s sl. rewrite Hat. by destruct (slotAt prev g s sl).
  - intros g s sl slot Hslot. rewrite Hat, Hslot; simpl.
    eexists; split; [done|]. simpl.
    destruct (reconcileMemberId_spec newPool (Slot.memberId slot))
      as (H1 & H2 & _).
    by split_and!.
  - intros g s sl slot' id. rewrite Hat.
    destruct (slotAt prev g s sl) as [slot|]; simpl; [|done].
    intros [= <-]; simpl.
    by apply (reconcileMemberId_spec newPool (Slot.memberId slot)).
Qed.

(** ** Occupancy statistics *)

Section Stats.
Implicit Types (p q : jsstring) (l : list (jsstring * nat)).
Implicit Types (pool : list Member.t) (sls : list Slot.t).











Lemma slot_cases pool (sl : Slot.t) :
  (assigned sl = false ∧ resolvedMember pool sl = None
     ∧ dangling pool sl = false)
  ∨ (assigned sl = true ∧ (∃ m, resolvedMember pool sl = Some m)
     ∧ dangling pool sl = false)
  ∨ (assigned sl = true ∧ resolvedMember pool sl = None
     ∧ dangling pool sl = true).
Proof.
  unfold dangling, assigned, resolvedMember, truthyOpt.
  destruct (Slot.memberId sl) as [id|]; simpl; [|by left].
  destruct (truthy id); simpl; [|by left].
  destruct (findMember pool id) as [m|]; simpl.
  - right; left. split_and!; [done|by exists m|done].
  - right; right. done.
Qed.

(** The loop of [stats] from any intermediate state. *)
Lemma stats_loop pool sls (c : nat) l :
  foldl (λ '(count, profCounts) sl,
           match Slot.memberId sl with
           | Some id =>
               if truthy id then
                 match findMember pool id with
                 | Some m => (S count, bump (Member.profession m) profCounts)
                 | None => (S count, profCounts)
                 end
               else (count, profCounts)
           | None => (count, profCounts)
           end) (c, l) sls
  = (c + length (filter (λ sl, assigned sl = true) sls),
     foldl (λ l m, bump (Member.profession m) l) l
       (omap (resolvedMember pool) sls)).
Proof.
  revert c l; induction sls as [|sl sls IH]; intros c l; simpl.
  - f_equal. lia.
  - rewrite filter_cons.
    destruct (slot_cases pool sl) as [(Ha & Hr & Hd)|[(Ha & [m Hr] & Hd)
                                                     |(Ha & Hr & Hd)]];
      rewrite Hr; case_decide; try congruence;
      unfold assigned, resolvedMember, truthyOpt in Ha, Hr;
      destruct (Slot.memberId sl) as [id|]; simplify_eq/=;
      try (destruct (truthy id); simplify_eq/=);
      try rewrite Hr; rewrite IH; simpl; f_equal; lia.
Qed.




End Stats.


(** ** Batch import *)

Section BatchImport.
Variable generateId : nat → jsstring.
Implicit Types (st : ImportState) (line name profession : jsstring).
Implicit Types (rest : list jsstring).

Lemma elem_of_setAdd (x y : jsstring) (s : list jsstring) :
  x ∈ setAdd y s ↔ x = y ∨ x ∈ s.
Proof.
  unfold setAdd. case_decide as Hy.
  - split; [by right|]. by intros [->|].
  - rewrite elem_of_app, list_elem_of_singleton. tauto.
Qed.

Lemma elem_of_setOf (x : jsstring) (l : list jsstring) : x ∈ setOf l ↔ x ∈ l.
Proof.
  unfold setOf.
  enough (∀ s, x ∈ foldl (λ s y, setAdd y s) s l ↔ x ∈ s ∨ x ∈ l) as H.
  { rewrite H, elem_of_nil. tauto. }
  induction l as [|y l IH]; intros s; simpl.
  - rewrite elem_of_nil. tauto.
  - rewrite IH, elem_of_setAdd, elem_of_cons. tauto.
Qed.

Lemma importLine_short st line :
  length (splitWs (trim line)) < 2 → importLine generateId st line = st.
Proof. intros Hlen. unfold importLine. rewrite decide_False by lia. done. Qed.

(** The loop body on a line with at least a name and a profession. *)
Lemma importLine_fields st line name profession rest :
  splitWs (trim line) = name :: profession :: rest →
  let ult := orElse (rest !! 0) SENTINEL in
  let clan := orElse (rest !! 1) SENTINEL in
  let note := orElse (rest !! 2) [] in
  let st' := importLine generateId st line in
  match list_find (λ m, Member.name m = name) (newPool st) with
  | Some (i, existing) =>
      newPool st' =
        <[i := Member.mk (Member.id existing) (Member.name existing)
                 profession ult clan
                 (if truthy note then Some note else Member.note existing)]>
          (newPool st)
      ∧ addedCount st' = addedCount st
  | None =>
      newPool st' =
        newPool st ++
          [Member.mk (generateId (addedCount st)) name profession ult clan
             (Some note)]
      ∧ addedCount st' = S (addedCount st)
  end.
Proof.
  intros Hparts; simpl. unfold importLine. rewrite Hparts; simpl.
  by destruct (list_find _ (newPool st)) as [[i existing]|].
Qed.

Lemma importLine_step st line :
  let st' := importLine generateId st line in
  addedCount st ≤ addedCount st' ∧
  length (newPool st')
    = length (newPool st) + (addedCount st' - addedCount st) ∧
  (∀ i m, newPool st !! i = Some m →
     ∃ m', newPool st' !! i = Some m' ∧ Member.id m' = Member.id m
           ∧ Member.name m' = Member.name m) ∧
  (∀ k m', newPool st' !! (length (newPool st) + k) = Some m' →
     Member.id m' = generateId (addedCount st + k)) ∧
  foundUlts st `prefix_of` foundUlts st' ∧
  foundClans st `prefix_of` foundClans st' ∧
  (configChanged st' = false →
     foundUlts st' = foundUlts st ∧ foundClans st' = foundClans st) ∧
  (configChanged st = true → configChanged st' = true) ∧
  (∀ name profession rest,
     splitWs (trim line) = name :: profession :: rest →
     (orElse (rest !! 0) SENTINEL ≠ SENTINEL →
        orElse (rest !! 0) SENTINEL ∈ foundUlts st') ∧
     (orElse (rest !! 1) SENTINEL ≠ SENTINEL →
        orElse (rest !! 1) SENTINEL ∈ foundClans st')).
Proof.
  simpl. unfold importLine.
  destruct (decide (2 ≤ length (splitWs (trim line)))) as [Hlen|Hlen].
  2:{ split_and!; try done; try lia.
      - intros i m Hm. by exists m.
      - intros k m' Hk. apply lookup_lt_Some in Hk. lia.
      - intros name profession rest Hparts. rewrite Hparts in Hlen.
        simpl in Hlen. lia. }
  destruct (splitWs (trim line)) as [|name [|profession rest]] eqn:Hparts;
    simpl in Hlen; [lia|lia|]. simpl.
  set (ult := orElse (rest !! 0) SENTINEL).
  set (clan := orElse (rest !! 1) SENTINEL).
  set (newUlt := bool_decide (ult ≠ SENTINEL ∧ ult ∉ foundUlts st)).
  set (newClan := bool_decide (clan ≠ SENTINEL ∧ clan ∉ foundClans st)).
  assert (foundUlts st `prefix_of`
            (if newUlt then foundUlts st ++ [ult] else foundUlts st)) as HpU.
  { destruct newUlt; [by apply prefix_app_r|done]. }
  assert (foundClans st `prefix_of`
            (if newClan then foundClans st ++ [clan] else foundClans st))
    as HpC.
  { destruct newClan; [by apply prefix_app_r|done]. }
  assert (ult ≠ SENTINEL →
          ult ∈ (if newUlt then foundUlts st ++ [ult] else foundUlts st))
    as HinU.
  { intros Hne. unfold newUlt. case_bool_decide as Hd.
    - rewrite elem_of_app, list_elem_of_singleton. by right.
    - destruct (decide (ult ∈ foundUlts st)); [done|]. by destruct Hd. }
  assert (clan ≠ SENTINEL →
          clan ∈ (if newClan then foundClans st ++ [clan]
                  else foundClans st)) as HinC.
  { intros Hne. unfold newClan. case_bool_decide as Hd.
    - rewrite elem_of_app, list_elem_of_singleton. by right.
    - destruct (decide (clan ∈ foundClans st)); [done|]. by destruct Hd. }
  assert (newUlt || newClan || configChanged st = false →
          (if newUlt then foundUlts st ++ [ult] else foundUlts st)
            = foundUlts st
          ∧ (if newClan then foundClans st ++ [clan] else foundClans st)
            = foundClans st) as Hunch.
  { by destruct newUlt, newClan. }
  assert (configChanged st = true →
          newUlt || newClan || configChanged st = true) as Hmono.
  { intros ->. by rewrite orb_true_r. }
  assert (∀ name' profession' rest',
    name :: profession :: rest = name' :: profession' :: rest' →
    (orElse (rest' !! 0) SENTINEL ≠ SENTINEL →
       orElse (rest' !! 0) SENTINEL
         ∈ (if newUlt then foundUlts st ++ [ult] else foundUlts st)) ∧
    (orElse (rest' !! 1) SENTINEL ≠ SENTINEL →
       orElse (rest' !! 1) SENTINEL
         ∈ (if newClan then foundClans st ++ [clan] else foundClans st)))
    as Hskills.
  { intros ? ? ? [= <- <- <-]. done. }
  destruct (list_find _ (newPool st)) as [[i existing]|] eqn:Hfind; simpl.
  - apply list_find_Some in Hfind as (Hi & _ & _).
    split_and!; try done; try lia.
    + rewrite length_insert. lia.
    + intros j m Hj. destruct (decide (i = j)) as [->|Hij].
      * rewrite list_lookup_insert_eq by (by eapply lookup_lt_Some).
        eexists; split; [done|]. by simplify_eq.
      * rewrite list_lookup_insert_ne by done. by exists m.
    + intros k m' Hk. apply lookup_lt_Some in Hk.
      rewrite length_insert in Hk. lia.
  - split_and!; try done; try lia.
    + rewrite length_app; simpl. lia.
    + intros j m Hj. exists m. split; [by apply lookup_app_l_Some|done].
    + intros k m' Hk. rewrite lookup_app_r in Hk by lia.
      replace (length (newPool st) + k - length (newPool st)) with k
        in Hk by lia.
      destruct k as [|k]; simplify_eq/=. f_equal. lia.
Qed.

Lemma importLines_run (lines : list jsstring) st :
  let st' := foldl (importLine generateId) st lines in
  addedCount st ≤ addedCount st' ∧
  length (newPool st')
    = length (newPool st) + (addedCount st' - addedCount st) ∧
  (∀ i m, newPool st !! i = Some m →
     ∃ m', newPool st' !! i = Some m' ∧ Member.id m' = Member.id m
           ∧ Member.name m' = Member.name m) ∧
  (∀ k m', newPool st' !! (length (newPool st) + k) = Some m' →
     Member.id m' = generateId (addedCount st + k)) ∧
  foundUlts st `prefix_of` foundUlts st' ∧
  foundClans st `prefix_of` foundClans st' ∧
  (configChanged st' = false →
     foundUlts st' = foundUlts st ∧ foundClans st' = foundClans st) ∧
  (configChanged st = true → configChanged st' = true) ∧
  (∀ line name profession rest,
     line ∈ lines →
     splitWs (trim line) = name :: profession :: rest →
     (orElse (rest !! 0) SENTINEL ≠ SENTINEL →
        orElse (rest !! 0) SENTINEL ∈ foundUlts st') ∧
     (orElse (rest !! 1) SENTINEL ≠ SENTINEL →
        orElse (rest !! 1) SENTINEL ∈ foundClans st')).
Proof.
  revert st; induction lines as [|line lines IH]; intros st; simpl.
  { split_and!; try done; try lia.
    - intros i m Hm. by exists m.
    - intros k m' Hk. apply lookup_lt_Some in Hk. lia.
    - intros line name profession rest Hin. by apply elem_of_nil in Hin. }
  destruct (importLine_step st line)
    as (A1 & A2 & A3 & A4 & A5 & A6 & A7 & A8 & A9).
  destruct (IH (importLine generateId st line))
    as (B1 & B2 & B3 & B4 & B5 & B6 & B7 & B8 & B9).
  set (st1 := importLine generateId st line) in *.
  set (st2 := foldl (importLine generateId) st1 lines) in *.
  split_and!.
  - lia.
  - lia.
  - intros i m Hm. destruct (A3 i m Hm) as (m1 & Hm1 & Hid1 & Hn1).
    destruct (B3 i m1 Hm1) as (m2 & Hm2 & Hid2 & Hn2).
    exists m2. split_and!; [done|congruence|congruence].
  - intros k m' Hk.
    destruct (decide (length (newPool st) + k < length (newPool st1)))
      as [Hlt|Hge].
    + destruct (lookup_lt_is_Some_2 _ _ Hlt) as [m1 Hm1].
      destruct (B3 _ m1 Hm1) as (m2 & Hm2 & Hid2 & _).
      rewrite Hk in Hm2. simplify_eq. rewrite Hid2. by apply A4.
    + replace (length (newPool st) + k)
        with (length (newPool st1)
              + (k - (addedCount st1 - addedCount st))) in Hk by lia.
      rewrite (B4 _ _ Hk). f_equal. lia.
  - by etrans.
  - by etrans.
  - intros Hc. destruct (B7 Hc) as [-> ->].
    apply A7. destruct (configChanged st1) eqn:Hc1; [|done].
    rewrite B8 in Hc; done.
  - intros Hc. by apply B8, A8.
  - intros l name profession rest Hin Hparts.
    apply elem_of_cons in Hin as [->|Hin]; [|by eapply B9].
    destruct (A9 name profession rest Hparts) as [HU HC]. split.
    + intros Hne. eapply elem_of_prefix; [by apply HU|done].
    + intros Hne. eapply elem_of_prefix; [by apply HC|done].
Qed.

End BatchImport.


(** ** Configuration *)

Section Config.
Implicit Types (d prev : AppData.t) (str : jsstring).

Lemma elem_of_skillLines (x : jsstring) str :
  x ∈ skillLines str ↔
  x ≠ [] ∧ ∃ line, line ∈ splitOn LF str ∧ trim line = x.
Proof.
  unfold skillLines. rewrite list_elem_of_filter, list_elem_of_fmap.
  split.
  - intros [Ht (line & -> & Hin)]. split; [|by exists line].
    intros Hnil. by rewrite Hnil in Ht.
  - intros [Hne (line & Hin & <-)]. split; [|by exists line].
    by destruct (trim line).
Qed.





End Config.


(** ** Exchange file import *)

Section ExchangeImport.
Implicit Types (doc v : Value) (c : bool).

Lemma importParsed_shape c doc :
  importParsed c doc =
  match getField doc (js "pool") with
  | None => None
  | Some (VArr pool) =>
      match getField doc (js "groups") with
      | Some (VArr _) =>
          if c then
            gameConfig ← getField doc (js "gameConfig");
            parsedData ←
              (if truthyValue gameConfig then Some doc
               else cfg ← rebuildConfig pool;
                    Some (setField doc (js "gameConfig") cfg));
            Some (mkOutcome (Some parsedData)
                    [SaveValue parsedData; ImportAlert MsgImportOk])
          else Some (mkOutcome None [])
      | Some _ => Some (mkOutcome None [ImportAlert MsgInvalidFormat])
      | None => None
      end
  | Some _ => Some (mkOutcome None [ImportAlert MsgInvalidFormat])
  end.
Proof.
  unfold importParsed.
  destruct (getField doc (js "pool")) as [pool|]; simpl; [|done].
  destruct pool as [| |b|n|s|items|fields]; simpl; try done.
  - by destruct b.
  - by destruct (negb (n =? 0)%Z).
  - by destruct (truthy s).
  - destruct (getField doc (js "groups")) as [groups|]; simpl; [|done].
    destruct groups as [| |b|n|s|gitems|gfields]; simpl; try done.
    + by destruct b.
    + by destruct (negb (n =? 0)%Z).
    + by destruct (truthy s).
Qed.

Lemma getField_Some doc key :
  doc ≠ VNull → doc ≠ VUndefined → is_Some (getField doc key).
Proof. destruct doc; simpl; eauto; done. Qed.

Lemma import_invalid_shape c doc :
  ¬ validShape doc → doc ≠ VNull → doc ≠ VUndefined →
  handleImportJSON c doc = mkOutcome None [ImportAlert MsgInvalidFormat].
Proof.
  intros Hshape Hnull Hundef. unfold handleImportJSON.
  rewrite importParsed_shape.
  destruct (getField_Some doc (js "pool") Hnull Hundef) as [pool Hpool].
  destruct (getField_Some doc (js "groups") Hnull Hundef) as [groups Hgroups].
  rewrite Hpool, Hgroups.
  destruct pool as [| |b|n|s|items|fields]; try done.
  destruct groups as [| |b|n|s|gitems|gfields]; try done.
  destruct Hshape. destruct doc as [| |b|n|s|ditems|dfields]; try done.
  by exists dfields, items, gitems.
Qed.
End ExchangeImport.

(** C9: what [handleImportJSON] does with a parsed file. A file of valid
    shape whose pool has a null entry and that lacks [gameConfig] is not
    installed after confirmation, and the file [null] is answered with the
    parse-failure alert, not the invalid-format one. Otherwise: a declined
    confirmation does nothing; a confirmed file of valid shape is installed
    and saved, as it is when it has a [gameConfig] and with a rebuilt one
    when it has none; any non-null file of another shape gets the
    invalid-format alert; and nothing is saved that is not installed. *)
Theorem import_null_entries_end_in_parse_failure :
  let doc := VObj [(js "pool", VArr [VNull]); (js "groups", VArr [])] in
  (validShape doc ∧
   handleImportJSON true doc = mkOutcome None [ImportAlert MsgParseFailed]) ∧
  (∀ c, handleImportJSON c VNull
        = mkOutcome None [ImportAlert MsgParseFailed]) ∧
  (∀ doc, validShape doc → handleImportJSON false doc = mkOutcome None []) ∧
  (∀ doc gameConfig,
     validShape doc →
     getField doc (js "gameConfig") = Some gameConfig →
     truthyValue gameConfig = true →
     handleImportJSON true doc
     = mkOutcome (Some doc) [SaveValue doc; ImportAlert MsgImportOk]) ∧
  (∀ doc gameConfig pool cfg,
     validShape doc →
     getField doc (js "gameConfig") = Some gameConfig →
     truthyValue gameConfig = false →
     getField doc (js "pool") = Some (VArr pool) →
     rebuildConfig pool = Some cfg →
     let doc' := setField doc (js "gameConfig") cfg in
     handleImportJSON true doc
     = mkOutcome (Some doc') [SaveValue doc'; ImportAlert MsgImportOk]) ∧
  (∀ c doc,
     ¬ validShape doc → doc ≠ VNull → doc ≠ VUndefined →
     handleImportJSON c doc
     = mkOutcome None [ImportAlert MsgInvalidFormat]) ∧
  (∀ c doc v,
     SaveValue v ∈ importEffects (handleImportJSON c doc) →
     c = true ∧ validShape doc ∧ installed (handleImportJSON c doc) = Some v).
Proof.
  split_and!.
  - by eexists _, _, _.
  - reflexivity.
  - by intros [].
  - intros doc (fields & pool & groups & -> & Hpool & Hgroups).
    unfold handleImportJSON. by rewrite importParsed_shape, Hpool, Hgroups.
  - intros doc gameConfig (fields & pool & groups & -> & Hpool & Hgroups)
      Hcfg Htruthy.
    unfold handleImportJSON.
    rewrite importParsed_shape, Hpool, Hgroups, Hcfg; simpl.
    by rewrite Htruthy.
  - intros doc gameConfig pool cfg
      (fields & pool' & groups & -> & Hpool' & Hgroups)
      Hcfg Hfalsy Hpool Hrebuild.
    unfold handleImportJSON.
    rewrite importParsed_shape, Hpool, Hgroups, Hcfg; simpl.
    by rewrite Hfalsy, Hrebuild.
  - apply import_invalid_shape.
  - intros c doc v. unfold handleImportJSON. rewrite importParsed_shape.
    destruct (getField doc (js "pool")) as [pool|] eqn:Hpool; simpl.
    2:{ rewrite list_elem_of_singleton. done. }
    destruct pool as [| |b|n|s|items|fields]; simpl;
      try (rewrite list_elem_of_singleton; done).
    destruct (getField doc (js "groups")) as [groups|] eqn:Hgroups; simpl.
    2:{ rewrite list_elem_of_singleton. done. }
    destruct groups as [| |b|n|s|gitems|gfields]; simpl;
      try (rewrite list_elem_of_singleton; done).
    assert (validShape doc) as Hshape.
    { destruct doc as [| |b|n|s|ditems|dfields]; try done.
      by exists dfields, items, gitems. }
    destruct c; simpl; [|by intros ?%elem_of_nil].
    destruct (getField doc (js "gameConfig")) as [gameConfig|]; simpl.
    2:{ rewrite list_elem_of_singleton. done. }
    destruct (if truthyValue gameConfig then Some doc else _) as [parsed|];
      simpl.
    2:{ rewrite list_elem_of_singleton. done. }
    rewrite elem_of_cons, list_elem_of_singleton.
    intros [[= ->]|?]; done.
Qed.

(** ** Persistence *)

(** C5: renaming a squad changes the document and saves nothing, while
    every other handler that changes the document saves the document it
    returns. *)
Theorem squad_rename_is_not_saved :
  (∀ g s val prev, effectsOf (handleSquadNameChange g s val prev) = []) ∧
  (∃ d', handleSquadNameChange 0 0 (js "Two") sampleDoc = Some (d', [])
         ∧ d' ≠ sampleDoc
         ∧ (grp ← AppData.groups d' !! 0;
            Squad.name <$> Group.squads grp !! 0) = Some (js "Two")) ∧
  (∀ newPool prev,
     ∃ d', handlePoolUpdate newPool prev = Some (d', [SaveData d'])) ∧
  (∀ newData, handleStructureUpdate newData = Some (newData, [SaveData newData])) ∧
  (∀ cfg prev,
     ∃ d', handleGameConfigUpdate cfg prev = Some (d', [SaveData d'])) ∧
  (∀ m prev,
     ∃ d', handleUpdateMemberSkill m prev = Some (d', [SaveData d'])) ∧
  (∀ sel c g s sl prev d' e,
     handleSlotClick sel c g s sl prev = Some (d', e) →
     e = [SaveData d'] ∨ (e = [] ∧ d' = prev)) ∧
  (∀ g s sl p prev d' e,
     handleSlotDrop g s sl p prev = Some (d', e) → e = [SaveData d']).
Proof.
  split_and!.
  - intros g s val prev. unfold handleSquadNameChange.
    destruct (AppData.groups prev !! g) as [grp|]; simpl; [|done].
    by destruct (Group.squads grp !! s).
  - eexists. split; [reflexivity|]. split; [|reflexivity].
    intros Heq. by vm_compute in Heq.
  - intros; by eexists.
  - done.
  - intros; by eexists.
  - intros; by eexists.
  - intros sel c g s sl prev d' e. unfold handleSlotClick, jsonClone.
    destruct (truthyOpt sel).
    + destruct (assignMemberId g s sl _ _); simpl; [|done].
      intros [= <- <-]. by left.
    + destruct (slotAt prev g s sl) as [x|]; simpl; [|done].
      destruct (truthyOpt (Slot.memberId x) && c); simpl.
      * destruct (assignMemberId g s sl None prev); simpl; [|done].
        intros [= <- <-]. by left.
      * intros [= <- <-]. by right.
  - intros g s sl p prev d' e. unfold handleSlotDrop, jsonClone.
    destruct (slotAt prev g s sl) as [x|]; simpl; [|done].
    destruct (match p with
              | SidebarPayload m => _ | SlotPayload _ _ _ _ => _
              | OtherPayload => _ end); simpl; [|done].
    by intros [= <- <-].
Qed.

(** ** Concrete runs *)

(** The sample board satisfies I2. *)
Lemma sampleDoc_unique : uniquePlacement sampleDoc.
Proof.
  intros id. unfold occurrences, occGroup, occSquad, holds; simpl.
  repeat case_decide; simplify_eq; lia.
Qed.

(** P1 on a run over the sample board: arm Bob, place him in the free slot,
    drag him onto Alice's slot, drop Alice from the sidebar on slot 1, and
    remove her by an idle click. *)
Lemma placement_keeps_members_unique_run :
  let st := mkState sampleDoc None in
  let ops := [SelectMember (js "m2"); ClickSlot 0 0 2 false;
              Drop 0 0 0 (SlotPayload 0 0 2 (js "m2"));
              Drop 0 0 1 (SidebarPayload (js "m1"));
              ClickSlot 0 0 1 true] in
  uniquePlacement (data st) ∧ admissibleRun st ops ∧
  Forall (λ st', uniquePlacement (data st')) (trace st ops).
Proof.
  intros st ops.
  assert (admissibleRun st ops) as Hrun by (vm_compute; tauto).
  split; [apply sampleDoc_unique|]. split; [exact Hrun|].
  apply (placement_keeps_members_unique ops st);
    [apply sampleDoc_unique|exact Hrun].
Defined.

(** Scenario C: Alice is dragged from slot 0 onto Bob's slot 1, and back. *)
Lemma slot_drop_swaps_and_swaps_back_run :
  let a := Slot.mk (js "a") (Some (js "m1")) [] in
  let b := Slot.mk (js "b") (Some (js "m2")) [] in
  slotAt sampleDoc 0 0 0 = Some a ∧ Slot.memberId a = Some (js "m1") ∧
  slotAt sampleDoc 0 0 1 = Some b ∧
  ∃ d',
    handleSlotDrop 0 0 1 (SlotPayload 0 0 0 (js "m1")) sampleDoc
      = Some (d', [SaveData d']) ∧
    slotAt d' 0 0 1 = Some (Slot.set_memberId (Some (js "m1")) b) ∧
    slotAt d' 0 0 0 = Some (Slot.set_memberId (Slot.memberId b) a) ∧
    handleSlotDrop 0 0 0 (SlotPayload 0 0 1 (js "m1")) d'
      = Some (sampleDoc, [SaveData sampleDoc]).
Proof.
  intros a b. split_and!; try reflexivity.
  destruct (slot_drop_swaps_and_swaps_back sampleDoc 0 0 0 0 0 1 a b
              (js "m1") eq_refl eq_refl eq_refl)
    as (d' & H1 & H2 & H3 & _ & _ & _ & H4 & _).
  exists d'. by split_and!.
Defined.

(** P3 on the sample board: Alice is armed and her own slot is clicked. *)
Lemma click_on_own_slot_keeps_document_run :
  let st := mkState sampleDoc (Some (js "m1")) in
  let x := Slot.mk (js "a") (Some (js "m1")) [] in
  armed st (js "m1") ∧ slotAt (data st) 0 0 0 = Some x ∧
  Slot.memberId x = Some (js "m1") ∧ occurrences (js "m1") (data st) ≤ 1 ∧
  step st (ClickSlot 0 0 0 false) = mkState sampleDoc None.
Proof.
  intros st x.
  assert (occurrences (js "m1") (data st) ≤ 1) as Hocc
    by apply sampleDoc_unique.
  split; [by split|]. split; [reflexivity|]. split; [reflexivity|].
  split; [exact Hocc|].
  exact (proj2 (click_on_own_slot_keeps_document st (js "m1") 0 0 0 x false
                  (conj eq_refl eq_refl) eq_refl eq_refl Hocc)).
Defined.


(** Scenario B: Bob is armed and placed in the empty slot; an idle click on
    the slot, confirmed, empties it again. *)
Example arm_place_then_remove :
  let st0 := mkState sampleDoc None in
  let st1 := step st0 (SelectMember (js "m2")) in
  let st2 := step st1 (ClickSlot 0 0 2 false) in
  let st3 := step st2 (ClickSlot 0 0 2 true) in
  armed st1 (js "m2") ∧
  Slot.memberId <$> slotAt (data st2) 0 0 2 = Some (Some (js "m2")) ∧
  Slot.memberId <$> slotAt (data st2) 0 0 1 = Some None ∧
  selectedMemberId st2 = None ∧
  Slot.memberId <$> slotAt (data st3) 0 0 2 = Some None.
Proof. by split_and!. Qed.

(** Scenario E: deleting Alice from the pool empties her slot and leaves
    Bob's. *)
Example delete_member_reconciles :
  let d' := commit sampleDoc (handlePoolUpdate [bob] sampleDoc) in
  AppData.pool d' = [bob] ∧
  Slot.memberId <$> slotAt d' 0 0 0 = Some None ∧
  Slot.memberId <$> slotAt d' 0 0 1 = Some (Some (js "m2")).
Proof. by split_and!. Qed.

(** A slot-type payload that names a member other than the occupant of its
    source slot is outside P1: dropped on the empty slot it puts Alice in a
    second slot. *)
Example stale_slot_payload_duplicates :
  let d' := commit sampleDoc
              (handleSlotDrop 0 0 2 (SlotPayload 0 0 1 (js "m1")) sampleDoc) in
  uniquePlacement sampleDoc ∧ occurrences (js "m1") d' = 2.
Proof. split; [apply sampleDoc_unique|reflexivity]. Qed.

(** ** Where the specification and the code part *)

(** P3 without I2: Alice is armed and already sits in the clicked slot, but
    also in a second slot; the click empties the second slot. *)
Lemma click_on_own_slot_clears_other_copies :
  let st := mkState doubledDoc (Some (js "m1")) in
  let st' := step st (ClickSlot 0 0 0 false) in
  armed st (js "m1") ∧
  Slot.memberId <$> slotAt (data st) 0 0 0 = Some (Some (js "m1")) ∧
  Slot.memberId <$> slotAt (data st) 0 0 1 = Some (Some (js "m1")) ∧
  Slot.memberId <$> slotAt (data st') 0 0 1 = Some None ∧
  data st' ≠ data st.
Proof.
  split_and!; try reflexivity; [done|].
  intros Heq. by vm_compute in Heq.
Qed.

(** Reconciliation of a reference that is the empty string: the pool has a
    member with that id, and the slot is emptied all the same. *)
Lemma pool_update_clears_empty_id_found_in_pool :
  let d' := commit emptyIdDoc (handlePoolUpdate [nameless] emptyIdDoc) in
  Slot.memberId <$> slotAt emptyIdDoc 0 0 0 = Some (Some []) ∧
  (∃ m, m ∈ [nameless] ∧ Member.id m = []) ∧
  Slot.memberId <$> slotAt d' 0 0 0 = Some None.
Proof.
  split_and!; [reflexivity| |reflexivity].
  exists nameless. split; [apply list_elem_of_singleton|]; done.
Qed.



(** * Further properties of the handlers *)

(** ** Counting slots *)

Section Counting.
Context {A : Type} (w : A → nat).
Implicit Types (l k : list A) (i : nat).

Lemma sum_list_fmap_app l k :
  sum_list (w <$> (l ++ k)) = sum_list (w <$> l) + sum_list (w <$> k).
Proof. induction l as [|x l IH]; csimpl; [done|]. rewrite IH. lia. Qed.

Lemma sum_list_insert i l x y :
  l !! i = Some x →
  sum_list (w <$> <[i:=y]> l) + w x = sum_list (w <$> l) + w y.
Proof.
  revert i; induction l as [|z l IH]; intros [|i] Hi; simplify_eq/=.
  - lia.
  - specialize (IH _ Hi). lia.
Qed.

Lemma sum_list_take_le n l :
  sum_list (w <$> take n l) ≤ sum_list (w <$> l).
Proof.
  revert n; induction l as [|x l IH]; intros [|n]; csimpl; try lia.
  specialize (IH n). lia.
Qed.

Lemma sum_list_delete_le i l :
  sum_list (w <$> delete i l) ≤ sum_list (w <$> l).
Proof.
  revert i; induction l as [|x l IH]; intros [|i]; csimpl; try lia.
  specialize (IH i). lia.
Qed.

Lemma sum_list_pos l :
  0 < sum_list (w <$> l) ↔ ∃ i x, l !! i = Some x ∧ 0 < w x.
Proof.
  induction l as [|y l IH]; csimpl.
  - split; [lia|]. by intros (i & x & Hi & _).
  - split.
    + intros Hpos. destruct (decide (0 < w y)) as [Hy|Hy].
      * by exists 0, y.
      * destruct (proj1 IH ltac:(lia)) as (i & x & Hi & Hx).
        by exists (S i), x.
    + intros ([|i] & x & Hi & Hx); simplify_eq/=; [lia|].
      assert (0 < sum_list (w <$> l)) by (apply IH; eauto). lia.
Qed.

End Counting.

Lemma sum_list_bind {A B} (f : A → list B) (v : B → nat) (l : list A) :
  sum_list (v <$> (l ≫= f))
  = sum_list ((λ x, sum_list (v <$> f x)) <$> l).
Proof.
  induction l as [|x l IH]; csimpl; [done|].
  by rewrite sum_list_fmap_app, IH.
Qed.

Section SlotCounts.
Implicit Types (d : AppData.t) (id : jsstring) (gs : list Group.t).

Lemma occurrences_allSlots id d :
  occurrences id d = sum_list (holds id <$> allSlots d).
Proof.
  unfold occurrences, allSlots. rewrite sum_list_bind.
  f_equal. apply list_fmap_ext; intros _ grp _.
  unfold occGroup. by rewrite sum_list_bind.
Qed.

Lemma holds_pos id (x : Slot.t) : 0 < holds id x ↔ Slot.memberId x = Some id.
Proof. unfold holds. case_decide; split; (done || lia). Qed.

(** An id is counted exactly when some slot holds it. *)
Lemma occurrences_pos id d :
  0 < occurrences id d ↔
  ∃ g s sl x, slotAt d g s sl = Some x ∧ Slot.memberId x = Some id.
Proof.
  unfold occurrences, slotAt. rewrite sum_list_pos. split.
  - intros (g & grp & Hg & Hgrp). unfold occGroup in Hgrp.
    apply sum_list_pos in Hgrp as (s & sq & Hs & Hsq).
    unfold occSquad in Hsq.
    apply sum_list_pos in Hsq as (sl & x & Hsl & Hx).
    exists g, s, sl, x. rewrite Hg; simpl. rewrite Hs; simpl.
    split; [done|]. by apply holds_pos.
  - intros (g & s & sl & x & Hx & Hm).
    destruct (AppData.groups d !! g) as [grp|] eqn:Hg; simpl in Hx; [|done].
    destruct (Group.squads grp !! s) as [sq|] eqn:Hs; simpl in Hx; [|done].
    exists g, grp. split; [done|]. unfold occGroup. apply sum_list_pos.
    exists s, sq. split; [done|]. unfold occSquad. apply sum_list_pos.
    exists sl, x. split; [done|]. by apply holds_pos.
Qed.

Lemma elem_of_allSlots (x : Slot.t) d :
  x ∈ allSlots d ↔ ∃ g s sl, slotAt d g s sl = Some x.
Proof.
  unfold allSlots, slotAt. rewrite list_elem_of_bind. split.
  - intros (grp & Hx & Hgrp). apply list_elem_of_bind in Hx as (sq & Hx & Hsq).
    apply list_elem_of_lookup in Hgrp as [g Hg].
    apply list_elem_of_lookup in Hsq as [s Hs].
    apply list_elem_of_lookup in Hx as [sl Hsl].
    exists g, s, sl. rewrite Hg; simpl. by rewrite Hs.
  - intros (g & s & sl & Hx).
    destruct (AppData.groups d !! g) as [grp|] eqn:Hg; simpl in Hx; [|done].
    destruct (Group.squads grp !! s) as [sq|] eqn:Hs; simpl in Hx; [|done].
    exists grp. split; [|by eapply list_elem_of_lookup_2].
    apply list_elem_of_bind. exists sq.
    split; by eapply list_elem_of_lookup_2.
Qed.

(** A change of the document that never adds a holder of any id keeps I2,
    and keeps I1 when the pool stays. *)
Lemma fewer_holders_keep_invariants d d' :
  (∀ id, occurrences id d' ≤ occurrences id d) →
  AppData.pool d' = AppData.pool d →
  (uniquePlacement d → uniquePlacement d') ∧ (noDangling d → noDangling d').
Proof.
  intros Hocc Hpool. split.
  - intros Hu id. specialize (Hu id). specialize (Hocc id). lia.
  - intros Hnd g s sl slot id Hslot Hm. rewrite Hpool.
    assert (0 < occurrences id d') as Hpos by (apply occurrences_pos; eauto 6).
    specialize (Hocc id).
    destruct (proj1 (occurrences_pos id d) ltac:(lia))
      as (g0 & s0 & sl0 & x0 & Hx0 & Hm0).
    by eapply Hnd.
Qed.
End SlotCounts.

(** ** Structure editor *)

Section Structure.
Implicit Types (gs : list Group.t) (id : jsstring) (e : StructEdit).

Lemma freshSlots_empty generateId first :
  length (freshSlots generateId first) = 6 ∧
  Forall (λ sl, Slot.memberId sl = None ∧ Slot.note sl = [])
    (freshSlots generateId first).
Proof. split; [done|]. unfold freshSlots; simpl. by repeat constructor. Qed.

Lemma freshSlots_hold_nobody id generateId first :
  sum_list (holds id <$> freshSlots generateId first) = 0.
Proof. done. Qed.

Lemma occGroup_setGroupField id field (g : Group.t) :
  occGroup id (setGroupField field g) = occGroup id g.
Proof. by destruct field. Qed.

Lemma occ_updateGroup id idx field gs gs' :
  handleUpdateGroup idx field gs = Some gs' →
  sum_list (occGroup id <$> gs') = sum_list (occGroup id <$> gs).
Proof.
  unfold handleUpdateGroup.
  destruct (gs !! idx) as [g|] eqn:Hg; simpl; [|done]. intros [= <-].
  pose proof (sum_list_insert (occGroup id) idx gs g
                (setGroupField field g) Hg) as H.
  rewrite occGroup_setGroupField in H. lia.
Qed.

Lemma occGroup_snoc id (g : Group.t) (sq : Squad.t) :
  occGroup id (Group.set_squads (λ squads, squads ++ [sq]) g)
  = occGroup id g + occSquad id sq.
Proof. unfold occGroup; simpl. rewrite sum_list_fmap_app; simpl. lia. Qed.

Lemma occSquad_fresh id (i n : jsstring) generateId first :
  occSquad id (Squad.mk i n (freshSlots generateId first)) = 0.
Proof. done. Qed.

Lemma occGroup_take id (g : Group.t) n :
  occGroup id (Group.set_squads (λ squads, take (n squads) squads) g)
  ≤ occGroup id g.
Proof. unfold occGroup; simpl. apply sum_list_take_le. Qed.

Lemma occ_squadCount id generateId confirm gIdx delta gs gs' :
  handleSquadCount generateId confirm gIdx delta gs = Some gs' →
  sum_list (occGroup id <$> gs') ≤ sum_list (occGroup id <$> gs).
Proof.
  unfold handleSquadCount.
  destruct (gs !! gIdx) as [g|] eqn:Hg; simpl; [|done].
  case_bool_decide as Hdelta.
  - intros [= <-].
    match goal with
    | |- context [<[gIdx := ?y]> gs] =>
        pose proof (sum_list_insert (occGroup id) gIdx gs g y Hg) as Hins
    end.
    rewrite occGroup_snoc, occSquad_fresh in Hins. lia.
  - case_bool_decide as Hlen; [|by intros [= <-]].
    destruct confirm; [|by intros [= <-]]. intros [= <-].
    match goal with
    | |- context [<[gIdx := ?y]> gs] =>
        pose proof (sum_list_insert (occGroup id) gIdx gs g y Hg) as Hins
    end.
    pose proof (occGroup_take id g (λ squads, length squads - 1)). lia.
Qed.

Lemma occ_applyEdit id gs e :
  sum_list (occGroup id <$> applyEdit gs e) ≤ sum_list (occGroup id <$> gs).
Proof.
  destruct e as [idx field|generateId confirm gIdx delta|generateId
                |confirm idx]; simpl.
  - destruct (handleUpdateGroup idx field gs) as [gs'|] eqn:Hgs'; simpl;
      [|done].
    by rewrite (occ_updateGroup _ _ _ _ _ Hgs').
  - destruct (handleSquadCount generateId confirm gIdx delta gs) as [gs'|]
      eqn:Hgs'; simpl; [|done].
    by eapply occ_squadCount.
  - unfold handleAddGroup. rewrite sum_list_fmap_app.
    match goal with
    | |- context [occGroup id <$> [?g]] =>
        assert (sum_list (occGroup id <$> [g]) = 0) as -> by done
    end.
    lia.
  - unfold handleDeleteGroup. destruct confirm; [|done].
    apply sum_list_delete_le.
Qed.

Lemma occ_applyEdits id (edits : list StructEdit) gs :
  sum_list (occGroup id <$> foldl applyEdit gs edits)
  ≤ sum_list (occGroup id <$> gs).
Proof.
  revert gs; induction edits as [|e edits IH]; intros gs; simpl; [done|].
  etrans; [apply IH|apply occ_applyEdit].
Qed.

Lemma take_init_snoc {A} (l : list A) :
  0 < length l → ∃ x, l = take (length l - 1) l ++ [x].
Proof.
  destruct l as [|y l] using rev_ind; simpl; [lia|]. intros _.
  exists y. rewrite length_app; simpl.
  replace (length l + 1 - 1) with (length l) by lia.
  by rewrite take_app_length.
Qed.
End Structure.

(** X1: whatever is edited in the structure editor (fields of the groups
    shown, squads added or removed, groups added or deleted), the saved
    document keeps pool and configuration, no member gains a slot, and so a
    document that satisfies I2 or I1 still satisfies it. *)
Theorem structure_edits_never_add_holders
    (edits : list StructEdit) (d : AppData.t) :
  editsOffered (AppData.groups d) edits →
  ∃ d',
    editStructure edits d = Some (d', [SaveData d']) ∧
    AppData.pool d' = AppData.pool d ∧
    AppData.gameConfig d' = AppData.gameConfig d ∧
    (∀ id, occurrences id d' ≤ occurrences id d) ∧
    (uniquePlacement d → uniquePlacement d') ∧
    (noDangling d → noDangling d').
Proof.
  intros _. eexists. split; [reflexivity|]. simpl.
  assert (∀ id,
    occurrences id
      (AppData.mk (AppData.pool d)
         (foldl applyEdit (AppData.groups (jsonClone d)) edits)
         (AppData.gameConfig d))
    ≤ occurrences id d) as Hocc.
  { intros id. unfold occurrences; simpl. apply occ_applyEdits. }
  split_and!; try done; by apply fewer_holders_keep_invariants.
Qed.

(** X2: the squad counter. It throws on a missing group; with a positive
    delta it appends one squad named after the group and the new count, with
    six empty slots; otherwise it removes the last squad when there is one
    and the operator confirms, and changes nothing when the group has no
    squad or the operator declines. No other group and no other field of
    the group changes. *)
Theorem squad_counter_touches_only_the_last_squad
    (generateId : nat → jsstring) (confirm : bool) (gIdx : nat) (delta : Z)
    (gs : list Group.t) :
  match gs !! gIdx with
  | None => handleSquadCount generateId confirm gIdx delta gs = None
  | Some group =>
      ∃ gs' group',
        handleSquadCount generateId confirm gIdx delta gs = Some gs' ∧
        length gs' = length gs ∧
        (∀ j, j ≠ gIdx → gs' !! j = gs !! j) ∧
        gs' !! gIdx = Some group' ∧
        group' = Group.set_squads (λ _, Group.squads group') group ∧
        if bool_decide (0 < delta)%Z then
          ∃ squad,
            Group.squads group' = Group.squads group ++ [squad] ∧
            Squad.name squad
              = Group.name group ++ js "-"
                  ++ decimal (length (Group.squads group) + 1)
                  ++ SQUAD_SUFFIX ∧
            length (Squad.slots squad) = 6 ∧
            Forall (λ sl, Slot.memberId sl = None) (Squad.slots squad)
        else if confirm && bool_decide (0 < length (Group.squads group)) then
          ∃ removed, Group.squads group = Group.squads group' ++ [removed]
        else gs' = gs
  end.
Proof.
  unfold handleSquadCount.
  destruct (gs !! gIdx) as [group|] eqn:Hg; simpl; [|done].
  assert (gIdx < length gs) as Hlt by (by eapply lookup_lt_Some).
  case_bool_decide as Hdelta.
  - eexists _, _. split; [done|]. rewrite length_insert.
    split; [done|]. split; [by intros j Hj; rewrite list_lookup_insert_ne|].
    split; [by apply list_lookup_insert_eq|]. split; [done|].
    eexists. split; [done|]. simpl. split; [done|]. split; [done|].
    unfold freshSlots; simpl. by repeat constructor.
  - case_bool_decide as Hlen; [destruct confirm|]; simpl.
    + eexists _, _. split; [done|]. rewrite length_insert.
      split; [done|]. split; [by intros j Hj; rewrite list_lookup_insert_ne|].
      split; [by apply list_lookup_insert_eq|]. split; [done|].
      simpl. destruct (take_init_snoc (Group.squads group) Hlen) as [x Hx].
      by exists x.
    + exists gs, group. by split_and!; try done; destruct group.
    + rewrite andb_false_r. exists gs, group.
      by split_and!; try done; destruct group.
Qed.

(** ** Pool update, deletion and placement *)

Section PoolAndPlacement.
Implicit Types (d : AppData.t) (id m : jsstring) (v : option jsstring).
Implicit Types (f h : Slot.t → Slot.t) (gs : list Group.t).

Lemma occurrences_mapSlots_le id f d :
  (∀ x, holds id (f x) ≤ holds id x) →
  occurrences id (AppData.set_groups (mapSlots f) d) ≤ occurrences id d.
Proof.
  intros Hf. unfold occurrences, mapSlots; simpl.
  apply sum_list_fmap_le; intros grp. unfold occGroup; simpl.
  apply sum_list_fmap_le; intros sq. unfold occSquad; simpl.
  by apply sum_list_fmap_le.
Qed.

Lemma mapSlots_ext f h gs :
  (∀ x, f x = h x) → mapSlots f gs = mapSlots h gs.
Proof.
  intros Hfh. unfold mapSlots.
  apply list_fmap_ext; intros _ [] _; unfold Group.set_squads; simpl.
  f_equal. apply list_fmap_ext; intros _ [] _; unfold Squad.set_slots; simpl.
  f_equal. by apply list_fmap_ext.
Qed.

Lemma mapSlots_fixed f d :
  (∀ g s sl x, slotAt d g s sl = Some x → f x = x) →
  mapSlots f (AppData.groups d) = AppData.groups d.
Proof.
  intros Hf. unfold mapSlots.
  rewrite <- (list_fmap_id (AppData.groups d)) at 2.
  apply list_fmap_ext; intros g grp Hg. destruct grp as [i n t c st nl sqs].
  unfold Group.set_squads; simpl. f_equal.
  rewrite <- (list_fmap_id sqs) at 2.
  apply list_fmap_ext; intros s sq Hs. destruct sq as [si sn sls].
  unfold Squad.set_slots; simpl. f_equal.
  rewrite <- (list_fmap_id sls) at 2.
  apply list_fmap_ext; intros sl x Hsl. simpl. apply (Hf g s sl).
  unfold slotAt. rewrite Hg; simpl. by rewrite Hs.
Qed.

Lemma reconcileMemberId_idem (ids : gset jsstring) v :
  reconcileMemberId ids (reconcileMemberId ids v) = reconcileMemberId ids v.
Proof.
  destruct v as [id|]; simpl; [|done].
  destruct (truthy id && bool_decide (id ∈ ids)) eqn:Hc; simpl; [|done].
  by rewrite Hc.
Qed.

Lemma pool_assign g s sl v d d' :
  assignMemberId g s sl v d = Some d' → AppData.pool d' = AppData.pool d.
Proof.
  unfold assignMemberId. destruct (slotAt d g s sl); [|done].
  by intros [= <-].
Qed.

Lemma pool_step st op : AppData.pool (data (step st op)) = AppData.pool (data st).
Proof.
  destruct st as [d sel], op as [m| |g s sl c|g s sl p]; simpl; try done.
  - unfold handleSlotClick, jsonClone. destruct (truthyOpt sel).
    + destruct (assignMemberId g s sl _ _) as [d'|] eqn:Hd'; simpl; [|done].
      by rewrite (pool_assign _ _ _ _ _ _ Hd').
    + destruct (slotAt d g s sl) as [x|]; simpl; [|done].
      destruct (truthyOpt (Slot.memberId x) && c); simpl; [|done].
      destruct (assignMemberId g s sl None d) as [d'|] eqn:Hd'; simpl; [|done].
      by rewrite (pool_assign _ _ _ _ _ _ Hd').
  - unfold handleSlotDrop, jsonClone.
    destruct (slotAt d g s sl) as [x|]; simpl; [|done].
    destruct p as [m|sg ss ssl m|]; simpl; [| |done].
    + destruct (assignMemberId g s sl _ _) as [d'|] eqn:Hd'; simpl; [|done].
      by rewrite (pool_assign _ _ _ _ _ _ Hd').
    + destruct (assignMemberId g s sl _ d) as [d1|] eqn:Hd1; simpl; [|done].
      destruct (assignMemberId sg ss ssl _ d1) as [d2|] eqn:Hd2; simpl;
        [|done].
      rewrite (pool_assign _ _ _ _ _ _ Hd2).
      by rewrite (pool_assign _ _ _ _ _ _ Hd1).
Qed.

Lemma noDangling_put g s sl v d :
  noDangling d → (∀ id, v = Some id → knownMember d id) →
  noDangling (putMemberId g s sl v d).
Proof.
  intros Hnd Hv g' s' sl' slot id Hslot Hm. rewrite slotAt_put in Hslot.
  change (AppData.pool (putMemberId g s sl v d)) with (AppData.pool d).
  case_decide; [|by eapply Hnd].
  destruct (slotAt d g' s' sl') as [x|]; simplify_eq/=. by apply Hv.
Qed.

Lemma noDangling_clear m d : noDangling d → noDangling (clearMember m d).
Proof.
  intros Hnd g s sl slot id Hslot Hm. rewrite slotAt_clear in Hslot.
  change (AppData.pool (clearMember m d)) with (AppData.pool d).
  destruct (slotAt d g s sl) as [x|] eqn:Hx; simplify_eq/=.
  unfold clearSlot in Hm. case_decide; [done|]. by eapply Hnd.
Qed.

Lemma noDangling_assign g s sl v d d' :
  noDangling d → (∀ id, v = Some id → knownMember d id) →
  assignMemberId g s sl v d = Some d' → noDangling d'.
Proof.
  intros Hnd Hv. unfold assignMemberId.
  destruct (slotAt d g s sl); [|done]. intros [= <-].
  by apply noDangling_put.
Qed.

Lemma step_noDangling st op :
  offered st op →
  noDangling (data st) →
  (∀ m, selectedMemberId st = Some m → knownMember (data st) m) →
  noDangling (data (step st op)) ∧
  (∀ m, selectedMemberId (step st op) = Some m
        → knownMember (data (step st op)) m).
Proof.
  intros Hop Hnd Hsel.
  assert (∀ m, knownMember (data (step st op)) m ↔ knownMember (data st) m)
    as Hknown.
  { intros m. unfold knownMember. by rewrite pool_step. }
  split.
  2:{ intros m Hm. apply Hknown.
      destruct st as [d sel], op as [i| |g s sl c|g s sl p]; simpl in *.
      - case_decide; simplify_eq. done.
      - done.
      - destruct (truthyOpt sel); [done|]. by apply Hsel.
      - by apply Hsel. }
  clear Hknown.
  destruct st as [d sel], op as [i| |g s sl c|g s sl p]; simpl in *;
    try done.
  - unfold handleSlotClick, jsonClone. destruct (truthyOpt sel) eqn:Ht.
    + destruct sel as [m|]; [|done]. simpl.
      destruct (assignMemberId g s sl _ _) as [d'|] eqn:Hd'; simpl; [|done].
      eapply noDangling_assign; [by apply noDangling_clear| |done].
      intros id [= <-]. by apply Hsel.
    + destruct (slotAt d g s sl) as [x|]; simpl; [|done].
      destruct (truthyOpt (Slot.memberId x) && c); simpl; [|done].
      destruct (assignMemberId g s sl None d) as [d'|] eqn:Hd'; simpl; [|done].
      eapply (noDangling_assign g s sl None d); [done| |done].
      by intros id [=].
  - unfold handleSlotDrop, jsonClone.
    destruct (slotAt d g s sl) as [x|] eqn:Hx; simpl; [|done].
    destruct p as [m|sg ss ssl m|]; simpl; [| |done].
    + destruct (assignMemberId g s sl _ _) as [d'|] eqn:Hd'; simpl; [|done].
      eapply noDangling_assign; [by apply noDangling_clear| |done].
      by intros id [= <-].
    + destruct (assignMemberId g s sl _ d) as [d1|] eqn:Hd1; simpl; [|done].
      destruct (assignMemberId sg ss ssl _ d1) as [d2|] eqn:Hd2; simpl;
        [|done].
      assert (noDangling d1) as Hnd1.
      { eapply noDangling_assign; [done| |done]. intros id [= <-].
        destruct (slotAt d sg ss ssl) as [y|] eqn:Hy; simplify_eq/=.
        by apply (Hnd sg ss ssl y m). }
      eapply noDangling_assign; [done| |done]. intros id Hid.
      unfold knownMember. rewrite (pool_assign _ _ _ _ _ _ Hd1).
      by apply (Hnd g s sl x id).
Qed.

(** The document after a pool update, slot by slot. *)
Lemma pool_update_reconciles_pool_and_slots (newPool : list Member.t) d :
  let d' := commit d (handlePoolUpdate newPool d) in
  AppData.pool d' = newPool ∧
  (∀ g s sl,
     slotAt d' g s sl
     = (λ slot,
          Slot.set_memberId
            (reconcileMemberId (list_to_set (Member.id <$> newPool))
               (Slot.memberId slot)) slot) <$> slotAt d g s sl) ∧
  (∀ g s sl slot id,
     slotAt d' g s sl = Some slot → Slot.memberId slot = Some id →
     ∃ mem : Member.t, mem ∈ newPool ∧ Member.id mem = id).
Proof.
  simpl.
  set (f := λ slot : Slot.t,
         Slot.set_memberId
           (reconcileMemberId (list_to_set (Member.id <$> newPool))
              (Slot.memberId slot)) slot).
  assert (∀ g s sl,
    slotAt (AppData.mk newPool (mapSlots f (AppData.groups d))
              (AppData.gameConfig d)) g s sl
    = f <$> slotAt d g s sl) as Hat.
  { intros g s sl. by rewrite <- (slotAt_mapSlots f d). }
  split_and!; [done|done|].
  intros g s sl slot id. rewrite Hat.
  destruct (slotAt d g s sl) as [x|]; simpl; [|done].
  intros [= <-]; simpl.
  by apply (reconcileMemberId_spec newPool (Slot.memberId x)).
Qed.

(** A truthy selected id, clicked on a slot of the board. *)
Lemma armed_placement (sel : jsstring) (c : bool) g s sl d x :
  truthy sel = true →
  slotAt d g s sl = Some x →
  ∃ d', handleSlotClick (Some sel) c g s sl d = Some (d', [SaveData d']) ∧
        slotAt d' g s sl
          = Some (Slot.set_memberId (Some sel) (clearSlot sel x)) ∧
        AppData.pool d' = AppData.pool d.
Proof.
  intros Hm Hx. unfold handleSlotClick, jsonClone; simpl. rewrite Hm.
  unfold assignMemberId. rewrite slotAt_clear, Hx. simpl.
  eexists; split; [done|]. split; [|done].
  rewrite slotAt_put, slotAt_clear, Hx. simpl.
  by rewrite !decide_True by done.
Qed.

End PoolAndPlacement.

(** X3: along every run of the operations the board offers (pool members
    selected or dragged from the sidebar, slots clicked, a slot dragged with
    its occupant), a document whose slot references all name pool members
    keeps that property, provided the staged member, if any, is a pool
    member at the start. *)
Theorem board_runs_keep_references_valid (ops : list Op) (st : AppState) :
  noDangling (data st) →
  (∀ m, selectedMemberId st = Some m → knownMember (data st) m) →
  offeredRun st ops →
  Forall (λ st', noDangling (data st')) (trace st ops).
Proof.
  revert st; induction ops as [|op ops IH]; intros st Hnd Hsel Hrun; simpl.
  - constructor.
  - destruct Hrun as [Hop Hrun].
    destruct (step_noDangling st op Hop Hnd Hsel) as [Hnd' Hsel'].
    constructor; [done|]. by apply IH.
Qed.

(** X4: a pool update never gives a member a further slot, so it keeps I2;
    run a second time with the same pool it changes nothing; and when every
    slot reference is non-empty and names a member of the new pool, the
    groups stay exactly as they were. *)
Theorem pool_update_is_a_cleanup (newPool : list Member.t) (d : AppData.t) :
  let d' := commit d (handlePoolUpdate newPool d) in
  (∀ id, occurrences id d' ≤ occurrences id d) ∧
  (uniquePlacement d → uniquePlacement d') ∧
  handlePoolUpdate newPool d' = Some (d', [SaveData d']) ∧
  ((∀ g s sl slot id,
      slotAt d g s sl = Some slot → Slot.memberId slot = Some id →
      id ≠ [] ∧ ∃ m, m ∈ newPool ∧ Member.id m = id) →
   AppData.groups d' = AppData.groups d).
Proof.
  simpl.
  set (f := λ slot : Slot.t,
         Slot.set_memberId
           (reconcileMemberId (list_to_set (Member.id <$> newPool))
              (Slot.memberId slot)) slot).
  assert (∀ id,
    occurrences id (AppData.mk newPool (mapSlots f (AppData.groups d))
                      (AppData.gameConfig d)) ≤ occurrences id d) as Hocc.
  { intros id.
    change (occurrences id (AppData.set_groups (mapSlots f) d)
            ≤ occurrences id d).
    apply occurrences_mapSlots_le. intros x. unfold f, holds; simpl.
    destruct (reconcileMemberId_spec newPool (Slot.memberId x))
      as ([Hn|He] & _ & _).
    - rewrite Hn. rewrite decide_False by done. lia.
    - by rewrite He. }
  split_and!.
  - done.
  - intros Hu id. specialize (Hu id). specialize (Hocc id). lia.
  - unfold handlePoolUpdate; simpl. fold f.
    rewrite mapSlots_compose.
    rewrite (mapSlots_ext (f ∘ f) f); [done|].
    intros x. unfold f; simpl. unfold Slot.set_memberId; simpl.
    by rewrite reconcileMemberId_idem.
  - intros Hall. apply mapSlots_fixed. intros g s sl x Hx. unfold f.
    destruct (Slot.memberId x) as [id|] eqn:Hm.
    + destruct (Hall g s sl x id Hx Hm) as [Hne Hin].
      apply in_pool_ids in Hin. simpl.
      rewrite bool_decide_eq_true_2 by done.
      destruct id; [done|]. simpl. rewrite <- Hm. by destruct x.
    + simpl. rewrite <- Hm. by destruct x.
Qed.

(** X5: deleting a member in the editor and passing the pool on. No member
    with the deleted id is left in the pool and no slot holds the id; the
    other members stay, in order; a slot that holds a non-empty id of a
    remaining member is untouched; and deleting an id that no member has
    leaves the pool as it is. *)
Theorem delete_member_clears_its_slots
    (id : jsstring) (localPool : list Member.t) (d : AppData.t) :
  let d' := commit d (handlePoolUpdate (handleDelete id localPool) d) in
  AppData.pool d' = filter (λ m, Member.id m ≠ id) localPool ∧
  (∀ m, m ∈ AppData.pool d' ↔ m ∈ localPool ∧ Member.id m ≠ id) ∧
  (∀ g s sl slot, slotAt d' g s sl = Some slot →
     Slot.memberId slot ≠ Some id) ∧
  (∀ g s sl slot id',
     slotAt d g s sl = Some slot → Slot.memberId slot = Some id' →
     id' ≠ [] → id' ≠ id → (∃ m, m ∈ localPool ∧ Member.id m = id') →
     slotAt d' g s sl = Some slot) ∧
  ((∀ m, m ∈ localPool → Member.id m ≠ id) →
   handleDelete id localPool = localPool).
Proof.
  destruct (pool_update_reconciles_pool_and_slots
              (handleDelete id localPool) d) as (Hpool & Hslots & Hvalid).
  simpl in *. split_and!.
  - done.
  - intros m. unfold handleDelete. rewrite list_elem_of_filter. tauto.
  - intros g s sl slot Hslot Hm.
    destruct (Hvalid g s sl slot id Hslot Hm) as (m & Hin & Hid).
    unfold handleDelete in Hin. apply list_elem_of_filter in Hin as [Hne _].
    done.
  - intros g s sl slot id' Hslot Hm Hne Hneq (m & Hin & Hid).
    rewrite Hslots, Hslot. simpl. f_equal.
    assert (id' ∈ (list_to_set (Member.id <$> handleDelete id localPool)
                   : gset jsstring)) as Hset.
    { apply in_pool_ids. exists m. split; [|done].
      unfold handleDelete. apply list_elem_of_filter. split; [|done].
      by rewrite Hid. }
    rewrite Hm; simpl. rewrite bool_decide_eq_true_2 by done.
    destruct id'; [done|]. simpl. rewrite <- Hm. by destruct slot.
  - clear. intros Hall. unfold handleDelete.
    induction localPool as [|m l IH]; [done|].
    rewrite filter_cons. rewrite decide_True by (apply Hall; left).
    f_equal. apply IH. intros m' Hm'. apply Hall. by right.
Qed.

Lemma sampleDoc_noDangling : noDangling sampleDoc.
Proof.
  intros g s sl slot id Hslot Hid.
  destruct g as [|[|?]]; [|done..].
  destruct s as [|[|?]]; [|done..].
  destruct sl as [|[|[|?]]]; [| | |done].
  - injection Hslot as <-. injection Hid as <-.
    exists alice. split; [apply list_elem_of_here|done].
  - injection Hslot as <-. injection Hid as <-.
    exists bob. split; [apply list_elem_of_further, list_elem_of_here|done].
  - injection Hslot as <-. done.
Qed.

(** X3 on the sample board: Bob is selected and placed, dragged onto
    Alice's slot, and Alice comes back from the sidebar. *)
Lemma board_runs_keep_references_valid_run :
  let st := mkState sampleDoc None in
  let ops := [SelectMember (js "m2"); ClickSlot 0 0 2 false;
              Drop 0 0 0 (SlotPayload 0 0 2 (js "m2"));
              Drop 0 0 1 (SidebarPayload (js "m1"))] in
  Forall (λ st', noDangling (data st')) (trace st ops).
Proof.
  intros st ops.
  apply (board_runs_keep_references_valid ops st).
  - apply sampleDoc_noDangling.
  - done.
  - simpl. split_and!; try done.
    + exists bob. split; [apply list_elem_of_further, list_elem_of_here|done].
    + exists alice. split; [apply list_elem_of_here|done].
Defined.

(** X6: placing a selected member by a click and dropping a sidebar card
    are the same update. Off the board both throw; on a slot of the board
    they put the member there and nowhere else, whatever number of slots
    held the member before, give no other id a further slot, and leave the
    pool alone. *)
Theorem armed_click_and_sidebar_drop_place_once
    (m : jsstring) (confirm : bool) (g s sl : nat) (d : AppData.t) :
  truthy m = true →
  handleSlotDrop g s sl (SidebarPayload m) d
    = handleSlotClick (Some m) confirm g s sl d ∧
  match slotAt d g s sl with
  | None => handleSlotClick (Some m) confirm g s sl d = None
  | Some x =>
      ∃ d', handleSlotClick (Some m) confirm g s sl d
              = Some (d', [SaveData d']) ∧
            slotAt d' g s sl = Some (Slot.set_memberId (Some m) x) ∧
            occurrences m d' = 1 ∧
            (∀ id, id ≠ m → occurrences id d' ≤ occurrences id d) ∧
            AppData.pool d' = AppData.pool d
  end.
Proof.
  intros Hm. unfold handleSlotDrop, handleSlotClick, jsonClone; simpl.
  rewrite Hm. unfold assignMemberId. rewrite slotAt_clear.
  destruct (slotAt d g s sl) as [x|] eqn:Hx; simpl; [|done].
  split; [done|]. eexists; split; [done|].
  assert (slotAt (clearMember m d) g s sl = Some (clearSlot m x)) as Hc.
  { by rewrite slotAt_clear, Hx. }
  split_and!.
  - rewrite slotAt_put, Hc. simpl.
    rewrite !decide_True by done. unfold clearSlot.
    by case_decide.
  - pose proof (occurrences_put m g s sl (Some m) _ _ Hc) as Hput.
    rewrite holds_set, decide_True, holds_clearSlot_same in Hput by done.
    rewrite occurrences_clear_same in Hput. lia.
  - intros id Hne.
    pose proof (occurrences_put id g s sl (Some m) _ _ Hc) as Hput.
    rewrite holds_set, decide_False in Hput by congruence.
    pose proof (occurrences_clear_le m id d). lia.
  - done.
Qed.

Lemma armed_click_and_sidebar_drop_place_once_run :
  handleSlotDrop 0 0 1 (SidebarPayload (js "m1")) doubledDoc
    = handleSlotClick (Some (js "m1")) false 0 0 1 doubledDoc ∧
  occurrences (js "m1") doubledDoc = 2 ∧
  occurrences (js "m1")
    (commit doubledDoc
       (handleSlotClick (Some (js "m1")) false 0 0 1 doubledDoc)) = 1.
Proof.
  pose proof (armed_click_and_sidebar_drop_place_once
                (js "m1") false 0 0 1 doubledDoc eq_refl) as [Heq Hrest].
  split; [exact Heq|]. split; [reflexivity|].
  simpl in Hrest. destruct Hrest as (d' & Hd' & _ & Hone & _).
  rewrite Hd'. exact Hone.
Defined.

(** X7: the selection outlives the pool. When a member is selected, then
    removed from the pool in the editor, the next click on a slot of the
    board still places the old id: the slot then refers to no member of
    the pool, and the selection is gone only after that click. *)
Theorem stale_selection_places_a_deleted_member
    (m : jsstring) (newPool : list Member.t) (confirm : bool)
    (g s sl : nat) (st : AppState) :
  armed st m →
  (∀ x, x ∈ newPool → Member.id x ≠ m) →
  is_Some (slotAt (data st) g s sl) →
  let st1 := poolUpdateStep newPool st in
  let st2 := step st1 (ClickSlot g s sl confirm) in
  armed st1 m ∧
  Slot.memberId <$> slotAt (data st2) g s sl = Some (Some m) ∧
  ¬ knownMember (data st2) m ∧
  ¬ noDangling (data st2) ∧
  selectedMemberId st2 = None.
Proof.
  intros [Hsel Hm] Hnew [x Hx] st1 st2.
  destruct (pool_update_reconciles_pool_and_slots newPool (data st))
    as (Hpool & Hslots & _). cbv zeta in Hpool, Hslots.
  set (d1 := commit (data st) (handlePoolUpdate newPool (data st))) in *.
  assert (is_Some (slotAt d1 g s sl)) as [x1 Hx1].
  { rewrite Hslots, Hx. by eexists. }
  destruct (armed_placement m confirm g s sl d1 x1 Hm Hx1)
    as (d2 & Hd2 & Hat & Hp).
  assert (data st2 = d2) as Hdata.
  { change (data st2)
      with (commit d1 (handleSlotClick (selectedMemberId st) confirm
                         g s sl d1)).
    by rewrite Hsel, Hd2. }
  assert (¬ knownMember d2 m) as Hunknown.
  { intros (y & Hy & Hid). rewrite Hp, Hpool in Hy. by apply (Hnew y). }
  rewrite Hdata. split_and!.
  - done.
  - by rewrite Hat.
  - done.
  - intros Hnd. apply Hunknown. by apply (Hnd g s sl _ m Hat).
  - unfold st2, st1, poolUpdateStep; simpl. by rewrite Hsel; simpl; rewrite Hm.
Qed.

Lemma stale_selection_places_a_deleted_member_run :
  let st := mkState sampleDoc (Some (js "m1")) in
  let st2 := step (poolUpdateStep [bob] st) (ClickSlot 0 0 2 false) in
  Slot.memberId <$> slotAt (data st2) 0 0 2 = Some (Some (js "m1")) ∧
  ¬ noDangling (data st2).
Proof.
  intros st st2.
  assert (armed st (js "m1")) as Harmed by done.
  assert (∀ x, x ∈ [bob] → Member.id x ≠ js "m1") as Hpool.
  { intros x Hx. apply list_elem_of_singleton in Hx. by subst. }
  assert (is_Some (slotAt (data st) 0 0 2)) as Hslot by (by eexists).
  destruct (stale_selection_places_a_deleted_member
              (js "m1") [bob] false 0 0 2 st Harmed Hpool Hslot)
    as (_ & Hat & _ & Hnd & _).
  split; [exact Hat|exact Hnd].
Defined.

(** ** Editing members *)

Section Members.
Implicit Types (pool : list Member.t) (d : AppData.t) (id name : jsstring).

Lemma findMember_Some pool id (x : Member.t) :
  findMember pool id = Some x →
  ∃ i, pool !! i = Some x ∧ Member.id x = id ∧
       ∀ j y, pool !! j = Some y → j < i → Member.id y ≠ id.
Proof.
  unfold findMember. destruct (list_find _ pool) as [[i y]|] eqn:Hf; [|done].
  simpl; intros [= ->]. apply list_find_Some in Hf. by exists i.
Qed.

(** The ids of the pool decide I1. *)
Lemma noDangling_ids d d' :
  Member.id <$> AppData.pool d' = Member.id <$> AppData.pool d →
  AppData.groups d' = AppData.groups d →
  noDangling d → noDangling d'.
Proof.
  intros Hids Hgroups Hnd g s sl x id Hx Hid.
  assert (slotAt d g s sl = Some x) as Hx'.
  { unfold slotAt in *. by rewrite <- Hgroups. }
  destruct (Hnd g s sl x id Hx' Hid) as (y & Hy & Hyid).
  assert (id ∈ Member.id <$> AppData.pool d') as Hin.
  { rewrite Hids. apply list_elem_of_fmap. by exists y. }
  apply list_elem_of_fmap in Hin as (y' & -> & Hy'). by exists y'.
Qed.

Lemma saveSingle_cases (generateId : jsstring) (confirm : bool)
    (editForm : EditForm.t) pool pool' :
  handleSaveSingle generateId confirm editForm pool = Some pool' →
  ∃ name, EditForm.name editForm = Some name ∧ truthy name = true ∧
    ((Forall (λ x, Member.name x ≠ name) pool ∧
      pool' = pool ++ [memberOfForm editForm name generateId]) ∨
     (∃ i existing,
        confirm = true ∧
        pool !! i = Some existing ∧ Member.name existing = name ∧
        (∀ j y, pool !! j = Some y → j < i → Member.name y ≠ name) ∧
        pool' = <[i := mergeForm existing editForm]> pool)).
Proof.
  unfold handleSaveSingle.
  destruct (EditForm.name editForm) as [name|]; [|done].
  destruct (truthy name) eqn:Hname; [|done].
  destruct (list_find _ pool) as [[i existing]|] eqn:Hfind.
  - destruct confirm; [|done]. intros [= <-].
    apply list_find_Some in Hfind as (Hi & Hn & Hfirst).
    exists name. split_and!; [done..|]. right. by exists i, existing.
  - intros [= <-]. apply list_find_None in Hfind.
    exists name. split_and!; [done..|]. by left.
Qed.

End Members.

(** X8: the skill editor opened on a slot. The member it shows is the first
    member of the pool with the slot's id; saving rewrites every pool entry
    with that id and no other entry, keeps all ids in place, leaves groups
    and configuration alone, so that I1 is kept, and a second right click
    shows the saved member. *)
Theorem skill_edit_rewrites_the_member_in_place
    (memberId ult clan note : jsstring) (member : Member.t) (d : AppData.t) :
  handleSlotRightClick memberId d = Some member →
  let updated := skillEditorSave member ult clan note in
  let d' := commit d (handleUpdateMemberSkill updated d) in
  member ∈ AppData.pool d ∧ Member.id member = memberId ∧
  Member.id <$> AppData.pool d' = Member.id <$> AppData.pool d ∧
  AppData.groups d' = AppData.groups d ∧
  AppData.gameConfig d' = AppData.gameConfig d ∧
  (∀ i x, AppData.pool d !! i = Some x →
     AppData.pool d' !! i
     = Some (if decide (Member.id x = memberId) then updated else x)) ∧
  handleSlotRightClick memberId d' = Some updated ∧
  (noDangling d → noDangling d').
Proof.
  intros Hfind updated d'. unfold handleSlotRightClick in *.
  destruct (findMember_Some _ _ _ Hfind) as (i & Hi & Hid & Hfirst).
  assert (Member.id updated = memberId) as Hup by done.
  set (f := λ x : Member.t,
         if decide (Member.id x = Member.id updated) then updated else x).
  assert (AppData.pool d' = f <$> AppData.pool d) as Hpool by done.
  assert (∀ x, Member.id (f x) = Member.id x) as Hfid.
  { intros x. unfold f. by case_decide. }
  assert (Member.id <$> AppData.pool d' = Member.id <$> AppData.pool d)
    as Hids.
  { rewrite Hpool, <- list_fmap_compose.
    apply list_fmap_ext. intros ? x _. apply Hfid. }
  split_and!; try done.
  - by eapply list_elem_of_lookup_2.
  - intros j x Hj. rewrite Hpool, list_lookup_fmap, Hj. simpl.
    unfold f. by rewrite Hup.
  - unfold findMember.
    assert (list_find (λ x, Member.id x = memberId) (AppData.pool d')
            = Some (i, updated)) as ->; [|done].
    apply list_find_Some. split_and!; [|done|].
    + rewrite Hpool, list_lookup_fmap, Hi. simpl. unfold f.
      by rewrite decide_True by congruence.
    + intros j y. rewrite Hpool, list_lookup_fmap.
      destruct (AppData.pool d !! j) as [z|] eqn:Hz; [|done].
      simpl; intros [= <-] Hlt. rewrite Hfid. by apply (Hfirst j).
  - by apply noDangling_ids.
Qed.

Lemma skill_edit_rewrites_the_member_in_place_run :
  let updated := skillEditorSave bob (js "u") (js "c") (js "n") in
  let d' := commit sampleDoc (handleUpdateMemberSkill updated sampleDoc) in
  AppData.pool d' = [alice; updated] ∧ noDangling d'.
Proof.
  intros updated d'.
  destruct (skill_edit_rewrites_the_member_in_place
              (js "m2") (js "u") (js "c") (js "n") bob sampleDoc eq_refl)
    as (_ & _ & _ & _ & _ & _ & _ & Hnd).
  split; [reflexivity|exact (Hnd sampleDoc_noDangling)].
Defined.

(** X9: saving the edit form. A save that goes through has a non-empty
    name; it appends one member or rewrites one member in place; every
    member under another name stays where it is; the saved name is in the
    pool afterwards; and member names that were unique stay unique. *)
Theorem save_single_keeps_names_unique
    (generateId : jsstring) (confirm : bool) (editForm : EditForm.t)
    (localPool newPool : list Member.t) :
  handleSaveSingle generateId confirm editForm localPool = Some newPool →
  ∃ name,
    EditForm.name editForm = Some name ∧ name ≠ [] ∧
    (length newPool = length localPool ∨
     length newPool = S (length localPool)) ∧
    (∀ i x, localPool !! i = Some x → Member.name x ≠ name →
            newPool !! i = Some x) ∧
    name ∈ Member.name <$> newPool ∧
    (NoDup (Member.name <$> localPool) → NoDup (Member.name <$> newPool)).
Proof.
  intros Hsave.
  destruct (saveSingle_cases _ _ _ _ _ Hsave)
    as (name & Hname & Htruthy & Hcases).
  exists name. split; [done|]. split; [by destruct name|].
  destruct Hcases as [[Hnone ->]|(i & existing & _ & Hi & Hn & _ & ->)].
  - split_and!.
    + right. rewrite length_app; simpl. lia.
    + intros i x Hi _. by apply lookup_app_l_Some.
    + rewrite fmap_app. apply elem_of_app. right. simpl. left.
    + rewrite fmap_app; simpl. intros Hnd.
      apply NoDup_app. split_and!; [done| |apply NoDup_singleton].
      intros n Hin Hin'. apply list_elem_of_singleton in Hin' as ->.
      apply list_elem_of_fmap in Hin as (y & Hy & Hin).
      rewrite Forall_forall in Hnone. by apply (Hnone y).
  - assert (Member.name (mergeForm existing editForm) = name) as Hmerged.
    { unfold mergeForm; simpl. by rewrite Hname. }
    assert (Member.name <$> <[i := mergeForm existing editForm]> localPool
            = Member.name <$> localPool) as Hnames.
    { rewrite list_fmap_insert, Hmerged, <- Hn.
      apply list_insert_id. by rewrite list_lookup_fmap, Hi. }
    split_and!.
    + left. by rewrite length_insert.
    + intros j x Hj Hne. rewrite list_lookup_insert_ne; [done|].
      intros ->. congruence.
    + rewrite Hnames. apply list_elem_of_fmap. exists existing.
      split; [done|]. by eapply list_elem_of_lookup_2.
    + by rewrite Hnames.
Qed.

Lemma save_single_keeps_names_unique_run :
  let form := EditForm.mk None (Some (js "Cy")) (js "scout") SENTINEL
                SENTINEL None in
  ∃ name,
    EditForm.name form = Some name ∧ name ≠ [] ∧
    (length ([alice; bob] ++ [memberOfForm form (js "Cy") (js "m3")])
       = length [alice; bob] ∨
     length ([alice; bob] ++ [memberOfForm form (js "Cy") (js "m3")])
       = S (length [alice; bob])) ∧
    (∀ i x, [alice; bob] !! i = Some x → Member.name x ≠ name →
        ([alice; bob] ++ [memberOfForm form (js "Cy") (js "m3")]) !! i
        = Some x) ∧
    name ∈ Member.name
             <$> ([alice; bob] ++ [memberOfForm form (js "Cy") (js "m3")]) ∧
    (NoDup (Member.name <$> [alice; bob]) →
     NoDup (Member.name
              <$> ([alice; bob]
                   ++ [memberOfForm form (js "Cy") (js "m3")]))).
Proof.
  intros form.
  exact (save_single_keeps_names_unique (js "m3") false form [alice; bob]
           _ eq_refl).
Defined.

(** X10: overwriting under the id of another member. A form loaded from
    member [a] and retyped to the name of another member [b] is saved, after
    the confirmation, over [b], and the entry takes the id of [a]: two
    members of the pool then carry that id, the id of [b] is gone from a
    pool whose ids were distinct, and the pool update that follows empties
    every slot that held [b]. *)
Theorem overwrite_by_name_takes_the_forms_id
    (generateId : jsstring) (ownNote : bool) (a b : Member.t)
    (i j : nat) (localPool : list Member.t) (d : AppData.t) :
  localPool !! i = Some a → localPool !! j = Some b →
  NoDup (Member.id <$> localPool) →
  NoDup (Member.name <$> localPool) →
  i ≠ j → Member.name b ≠ [] →
  let editForm := typeName (Member.name b) (formOf a ownNote) in
  ∃ newPool,
    handleSaveSingle generateId true editForm localPool = Some newPool ∧
    newPool !! i = Some a ∧
    Member.id <$> newPool !! j = Some (Member.id a) ∧
    Member.name <$> newPool !! j = Some (Member.name b) ∧
    (∀ x, x ∈ newPool → Member.id x ≠ Member.id b) ∧
    ∀ g s sl slot,
      slotAt (commit d (handlePoolUpdate newPool d)) g s sl = Some slot →
      Slot.memberId slot ≠ Some (Member.id b).
Proof.
  intros Hi Hj Hids Hnames Hij Hname editForm.
  assert (Member.id a ≠ Member.id b) as Hab.
  { intros Heq. apply Hij.
    eapply (NoDup_lookup (Member.id <$> localPool));
      [done|by rewrite list_lookup_fmap, Hi|].
    by rewrite list_lookup_fmap, Hj, Heq. }
  assert (list_find (λ x, Member.name x = Member.name b) localPool
          = Some (j, b)) as Hfind.
  { apply list_find_Some. split_and!; [done..|].
    intros k y Hk Hlt Heq.
    assert (k = j) as ->; [|lia].
    eapply (NoDup_lookup (Member.name <$> localPool)); [done| |].
    - by rewrite list_lookup_fmap, Hk.
    - by rewrite list_lookup_fmap, Hj, Heq. }
  exists (<[j := mergeForm b editForm]> localPool).
  assert (∀ x, x ∈ <[j := mergeForm b editForm]> localPool →
               Member.id x ≠ Member.id b) as Hgone.
  { intros x Hx Heq. apply list_elem_of_lookup in Hx as [k Hk].
    destruct (decide (k = j)) as [->|Hne].
    - rewrite list_lookup_insert_eq in Hk
        by (by eapply lookup_lt_Some).
      injection Hk as <-. by apply Hab.
    - rewrite list_lookup_insert_ne in Hk by done.
      apply Hne.
      eapply (NoDup_lookup (Member.id <$> localPool)); [done| |].
      + by rewrite list_lookup_fmap, Hk.
      + by rewrite list_lookup_fmap, Hj, Heq. }
  split_and!.
  - unfold handleSaveSingle; simpl.
    destruct (Member.name b) eqn:Hb; [done|]. simpl.
    by rewrite Hfind.
  - by rewrite list_lookup_insert_ne.
  - by rewrite list_lookup_insert_eq by (by eapply lookup_lt_Some).
  - by rewrite list_lookup_insert_eq by (by eapply lookup_lt_Some).
  - done.
  - intros g s sl slot Hslot Hm.
    destruct (pool_update_reconciles_pool_and_slots
                (<[j := mergeForm b editForm]> localPool) d)
      as (_ & _ & Hvalid).
    destruct (Hvalid g s sl slot (Member.id b) Hslot Hm) as (x & Hx & Hxid).
    by apply (Hgone x).
Qed.

Lemma overwrite_by_name_takes_the_forms_id_run :
  let editForm := typeName (js "Bob") (formOf alice false) in
  ∃ newPool,
    handleSaveSingle (js "m3") true editForm [alice; bob] = Some newPool ∧
    Member.id <$> newPool = [js "m1"; js "m1"] ∧
    Slot.memberId
      <$> slotAt (commit sampleDoc (handlePoolUpdate newPool sampleDoc)) 0 0 1
    = Some None.
Proof.
  intros editForm.
  assert (NoDup (Member.id <$> [alice; bob])) as Hids.
  { apply (bool_decide_unpack _). by vm_compute. }
  assert (NoDup (Member.name <$> [alice; bob])) as Hnames.
  { apply (bool_decide_unpack _). by vm_compute. }
  assert (0 ≠ 1) as Hij by lia.
  assert (Member.name bob ≠ []) as Hname by done.
  destruct (overwrite_by_name_takes_the_forms_id (js "m3") false alice bob
              0 1 [alice; bob] sampleDoc eq_refl eq_refl
              Hids Hnames Hij Hname)
    as (newPool & Hsave & _).
  exists newPool. split; [exact Hsave|].
  injection Hsave as <-. split; reflexivity.
Defined.

(** ** Sidebar *)

Lemma filter_ext_elem {A} (P Q : A → Prop)
    `{!∀ x, Decision (P x)} `{!∀ x, Decision (Q x)} (l : list A) :
  (∀ x, x ∈ l → P x ↔ Q x) → filter P l = filter Q l.
Proof.
  induction l as [|x l IH]; intros Hext; [done|].
  rewrite !filter_cons.
  rewrite IH by (intros y Hy; apply Hext; by right).
  destruct (decide (P x)) as [HP|HP], (decide (Q x)) as [HQ|HQ];
    try done; exfalso; apply (Hext x (list_elem_of_here _ _)) in HP || 
    apply (Hext x (list_elem_of_here _ _)) in HQ; done.
Qed.

Section Sidebar.
Implicit Types (d : AppData.t) (id : jsstring) (sls : list Slot.t).
Implicit Types (pool : list Member.t) (ids : gset jsstring).

Lemma assignedMemberIds_placed d id :
  id ∈ assignedMemberIds d ↔ id ∈ placedIds d.
Proof.
  unfold assignedMemberIds, placedIds.
  enough (∀ sls ids,
    id ∈ foldl (λ ids slot,
                  match Slot.memberId slot with
                  | Some id => if truthy id then {[id]} ∪ ids else ids
                  | None => ids
                  end) ids sls
    ↔ id ∈ ids ∨
      id ∈ omap (λ sl, match Slot.memberId sl with
                       | Some id => if truthy id then Some id else None
                       | None => None
                       end) sls) as Hloop.
  { rewrite Hloop. rewrite elem_of_empty. tauto. }
  induction sls as [|sl sls IH]; intros ids; csimpl.
  - rewrite elem_of_nil. tauto.
  - rewrite IH. destruct (Slot.memberId sl) as [id'|]; [|tauto].
    destruct (truthy id'); [|tauto].
    rewrite elem_of_union, elem_of_singleton, elem_of_cons. tauto.
Qed.

Lemma elem_of_placedIds d id :
  id ∈ placedIds d ↔ truthy id = true ∧ 0 < occurrences id d.
Proof.
  unfold placedIds. rewrite list_elem_of_omap, occurrences_pos. split.
  - intros (x & Hx & Hid). apply elem_of_allSlots in Hx as (g & s & sl & Hx).
    destruct (Slot.memberId x) as [id'|] eqn:Hm; [|done].
    destruct (truthy id') eqn:Ht; [|done]. injection Hid as ->.
    split; [done|]. by exists g, s, sl, x.
  - intros (Ht & g & s & sl & x & Hx & Hm). exists x. split.
    + apply elem_of_allSlots. by exists g, s, sl.
    + by rewrite Hm, Ht.
Qed.

Lemma count_placedIds d : count (stats d) = length (placedIds d).
Proof.
  unfold stats. rewrite stats_loop; simpl. unfold placedIds.
  induction (allSlots d) as [|sl sls IH]; [done|].
  rewrite filter_cons. csimpl.
  assert (assigned sl
          = match Slot.memberId sl with
            | Some id => truthy id
            | None => false
            end) as Ha by done.
  destruct (Slot.memberId sl) as [id|]; [destruct (truthy id)|].
  - rewrite decide_True by done. simpl. by rewrite IH.
  - by rewrite decide_False by (by rewrite Ha).
  - by rewrite decide_False by (by rewrite Ha).
Qed.

Lemma placedIds_NoDup d : uniquePlacement d → NoDup (placedIds d).
Proof.
  unfold uniquePlacement, placedIds. intros Hu.
  assert (∀ id, sum_list (holds id <$> allSlots d) ≤ 1) as Hsum.
  { intros id. rewrite <- occurrences_allSlots. apply Hu. }
  clear Hu. induction (allSlots d) as [|sl sls IH]; csimpl; [constructor|].
  assert (∀ id, sum_list (holds id <$> sls) ≤ 1) as Htail.
  { intros id. specialize (Hsum id). csimpl in Hsum. lia. }
  destruct (Slot.memberId sl) as [id|] eqn:Hm; [|by apply IH].
  destruct (truthy id) eqn:Ht; [|by apply IH].
  constructor; [|by apply IH].
  intros Hin. apply list_elem_of_omap in Hin as (x & Hx & Hid).
  destruct (Slot.memberId x) as [id'|] eqn:Hm'; [|done].
  destruct (truthy id'); [|done]. injection Hid as ->.
  assert (0 < sum_list (holds id <$> sls)) as Hpos.
  { apply sum_list_pos. apply list_elem_of_lookup in Hx as [i Hi].
    exists i, x. split; [done|]. by apply holds_pos. }
  specialize (Hsum id). csimpl in Hsum.
  assert (holds id sl = 1) as Hone by (unfold holds; by rewrite decide_True).
  lia.
Qed.

(** Members with distinct ids, split by a set of ids that all occur. *)
Lemma length_filter_not_in pool ids :
  NoDup (Member.id <$> pool) →
  (∀ id, id ∈ ids → id ∈ Member.id <$> pool) →
  length (filter (λ m, Member.id m ∉ ids) pool) + size ids = length pool.
Proof.
  revert ids. induction pool as [|m pool IH]; intros ids Hnd Hsub.
  - assert (ids = ∅) as ->; [|done].
    apply set_eq. intros id. rewrite elem_of_empty. split; [|done].
    intros Hid. apply Hsub in Hid. by apply elem_of_nil in Hid.
  - csimpl in Hnd. apply NoDup_cons in Hnd as [Hm Hnd].
    rewrite filter_cons. destruct (decide (Member.id m ∉ ids)) as [Hout|Hin].
    + simpl. rewrite <- (IH ids Hnd); [lia|].
      intros id Hid. specialize (Hsub id Hid). csimpl in Hsub.
      apply elem_of_cons in Hsub as [->|]; done.
    + apply dec_stable in Hin.
      assert (filter (λ x, Member.id x ∉ ids) pool
              = filter (λ x, Member.id x ∉ ids ∖ {[Member.id m]}) pool)
        as ->.
      { apply filter_ext_elem. intros x Hx.
        rewrite elem_of_difference, elem_of_singleton.
        assert (Member.id x ≠ Member.id m) as Hne.
        { intros Heq. apply Hm. rewrite <- Heq.
          apply list_elem_of_fmap. by exists x. }
        tauto. }
      assert (size ids = S (size (ids ∖ {[Member.id m]}))) as ->.
      { rewrite (union_difference_L {[Member.id m]} ids) at 1
          by (by apply singleton_subseteq_l).
        rewrite size_union, size_singleton; [done|].
        apply elem_of_disjoint. intros x.
        rewrite elem_of_singleton, elem_of_difference, elem_of_singleton.
        tauto. }
      assert (length (filter (λ x, Member.id x ∉ ids ∖ {[Member.id m]}) pool)
              + size (ids ∖ {[Member.id m]}) = length pool) as Hrest.
      { apply IH; [done|].
        intros id Hid. apply elem_of_difference in Hid as [Hid Hne].
        rewrite elem_of_singleton in Hne.
        specialize (Hsub id Hid). csimpl in Hsub.
        apply elem_of_cons in Hsub as [->|]; done. }
      simpl. lia.
Qed.

End Sidebar.

(** X11: the sidebar. A member is listed exactly when it belongs to the
    members given and no slot holds its id, where a member whose id is the
    empty string is listed whatever the slots hold; the list keeps the
    order of the pool. *)
Theorem sidebar_lists_the_unplaced
    (members : list Member.t) (data : AppData.t) :
  (∀ m, m ∈ availableMembers members data
        ↔ m ∈ members ∧ (Member.id m = [] ∨ occurrences (Member.id m) data = 0)) ∧
  availableMembers members data `sublist_of` members ∧
  (∀ id, id ∈ assignedMemberIds data ↔ id ≠ [] ∧ 0 < occurrences id data).
Proof.
  assert (∀ id, id ∈ assignedMemberIds data
                ↔ id ≠ [] ∧ 0 < occurrences id data) as Hassigned.
  { intros id. rewrite assignedMemberIds_placed, elem_of_placedIds.
    destruct id; simpl; split; intros [? ?]; done. }
  split_and!; [|apply sublist_filter|done].
  intros m. unfold availableMembers. rewrite list_elem_of_filter, Hassigned.
  destruct (decide (Member.id m = [])) as [->|Hne].
  - split; [intros [_ ?]; split; [done|by left]|].
    intros [? _]. split; [|done]. by intros [? _].
  - split.
    + intros [Hnot ?]. split; [done|]. right.
      destruct (occurrences (Member.id m) data) eqn:Hocc; [done|].
      exfalso. apply Hnot. split; [done|lia].
    + intros [? [?|Hzero]]; [done|]. split; [|done]. intros [_ ?]. lia.
Qed.

(** X12: on a document with distinct member ids that satisfies I1 and I2,
    the sidebar and the board share the pool out: the members listed and
    the slots counted in the header add up to the size of the pool. *)
Theorem sidebar_and_counter_add_up_to_the_pool (data : AppData.t) :
  NoDup (Member.id <$> AppData.pool data) →
  uniquePlacement data →
  noDangling data →
  length (availableMembers (AppData.pool data) data) + count (stats data)
  = length (AppData.pool data).
Proof.
  intros Hids Hu Hnd.
  rewrite count_placedIds.
  assert (size (assignedMemberIds data) = length (placedIds data)) as <-.
  { assert (assignedMemberIds data = list_to_set (placedIds data)) as ->.
    { apply set_eq. intros id.
      by rewrite assignedMemberIds_placed, elem_of_list_to_set. }
    apply size_list_to_set. by apply placedIds_NoDup. }
  apply length_filter_not_in; [done|].
  intros id Hid. apply assignedMemberIds_placed, elem_of_placedIds in Hid
    as [_ Hpos].
  apply occurrences_pos in Hpos as (g & s & sl & x & Hx & Hm).
  destruct (Hnd g s sl x id Hx Hm) as (m & Hin & <-).
  apply list_elem_of_fmap. by exists m.
Qed.

Lemma sidebar_and_counter_add_up_to_the_pool_run :
  length (availableMembers (AppData.pool sampleDoc) sampleDoc)
    + count (stats sampleDoc) = 2.
Proof.
  assert (NoDup (Member.id <$> AppData.pool sampleDoc)) as Hids.
  { apply (bool_decide_unpack _). by vm_compute. }
  exact (sidebar_and_counter_add_up_to_the_pool sampleDoc Hids
           sampleDoc_unique sampleDoc_noDangling).
Defined.

(** ** Order of the statistics *)

Section StatsOrder.
Implicit Types (e : jsstring * nat) (l : list (jsstring * nat)).







End StatsOrder.


(** ** Catalogs rebuilt by the import *)

Section Rebuild.
Implicit Types (v x : Value) (s : list Value).

Lemma sameValueZero_eq x v : sameValueZero x v = true → x = v.
Proof.
  destruct x, v; simpl; try done; intros ?%bool_decide_eq_true; congruence.
Qed.

Lemma valueSetAdd_prefix x s : s `prefix_of` valueSetAdd x s.
Proof.
  unfold valueSetAdd. destruct (existsb _ s); [done|]. by apply prefix_app_r.
Qed.

Lemma elem_of_valueSetAdd v x s : v ∈ valueSetAdd x s ↔ v ∈ s ∨ v = x.
Proof.
  unfold valueSetAdd. destruct (existsb _ s) eqn:Hex.
  - split; [by left|]. intros [?| ->]; [done|].
    apply existsb_exists in Hex as (y & Hy & Heq).
    apply sameValueZero_eq in Heq as ->. by apply list_elem_of_In.
  - rewrite elem_of_app, list_elem_of_singleton. tauto.
Qed.

Lemma notSentinel_ne v : notSentinel v = true ↔ v ≠ VStr SENTINEL.
Proof.
  destruct v; simpl; try done. rewrite bool_decide_eq_true.
  split; [congruence|]. intros Hne ->. done.
Qed.

(** The loop of [rebuildConfig] from any intermediate pair of sets. *)
Lemma rebuild_loop (pool : list Value) (ults clans : list Value) :
  let out :=
    foldl (λ acc m,
             '(ults, clans) ← acc;
             ult ← getField m (js "ult");
             let ults :=
               if notSentinel ult then valueSetAdd ult ults else ults in
             clan ← getField m (js "clan");
             let clans :=
               if notSentinel clan then valueSetAdd clan clans else clans in
             Some (ults, clans))
          (Some (ults, clans)) pool in
  (out = None ↔ ∃ m, m ∈ pool ∧ (m = VNull ∨ m = VUndefined)) ∧
  ∀ ults' clans', out = Some (ults', clans') →
    ults `prefix_of` ults' ∧ clans `prefix_of` clans' ∧
    (∀ v, v ∈ ults'
          ↔ v ∈ ults ∨ ∃ m, m ∈ pool ∧ getField m (js "ult") = Some v
                            ∧ v ≠ VStr SENTINEL) ∧
    (∀ v, v ∈ clans'
          ↔ v ∈ clans ∨ ∃ m, m ∈ pool ∧ getField m (js "clan") = Some v
                             ∧ v ≠ VStr SENTINEL).
Proof.
  revert ults clans. induction pool as [|m pool IH]; intros ults clans.
  - simpl. split.
    + split; [done|]. intros (m & Hm & _). by apply elem_of_nil in Hm.
    + intros ? ? [= <- <-]. split_and!; [done..| |].
      * intros v. split; [by left|]. intros [?|(m & Hm & _)]; [done|].
        by apply elem_of_nil in Hm.
      * intros v. split; [by left|]. intros [?|(m & Hm & _)]; [done|].
        by apply elem_of_nil in Hm.
  - cbn [foldl].
    destruct (getField m (js "ult")) as [ult|] eqn:Hult.
    2:{ assert (m = VNull ∨ m = VUndefined) as Hm by (by destruct m; auto).
        assert (∀ l : list Value,
          foldl (λ acc m,
             '(ults, clans) ← acc;
             ult ← getField m (js "ult");
             let ults :=
               if notSentinel ult then valueSetAdd ult ults else ults in
             clan ← getField m (js "clan");
             let clans :=
               if notSentinel clan then valueSetAdd clan clans else clans in
             Some (ults, clans)) None l = None) as Hnone.
        { induction l; [done|]. simpl. done. }
        cbn [mbind option_bind]. rewrite Hnone. split.
        - split; [|done]. intros _. exists m. split; [left|done].
        - done. }
    assert (∃ clan, getField m (js "clan") = Some clan) as [clan Hclan].
    { destruct m; simpl in *; try done; by eexists. }
    cbn [mbind option_bind]. rewrite Hclan. cbn [mbind option_bind].
    set (ults1 := if notSentinel ult then valueSetAdd ult ults else ults).
    set (clans1 := if notSentinel clan then valueSetAdd clan clans else clans).
    destruct (IH ults1 clans1) as [IHnone IHsome]. cbv zeta in IHnone, IHsome.
    assert (m ≠ VNull ∧ m ≠ VUndefined) as [Hn Hu].
    { split; intros ->; done. }
    assert (ults `prefix_of` ults1) as Hp1.
    { unfold ults1. destruct (notSentinel ult); [apply valueSetAdd_prefix|done]. }
    assert (clans `prefix_of` clans1) as Hp2.
    { unfold clans1.
      destruct (notSentinel clan); [apply valueSetAdd_prefix|done]. }
    assert (∀ v, v ∈ ults1 ↔ v ∈ ults ∨ (v = ult ∧ v ≠ VStr SENTINEL))
      as Hin1.
    { intros v. unfold ults1. destruct (notSentinel ult) eqn:Hs.
      - rewrite elem_of_valueSetAdd. apply notSentinel_ne in Hs.
        split; [intros [?| ->]; [by left|by right]|].
        intros [?|[-> _]]; [by left|by right].
      - split; [by left|]. intros [?|[-> Hne]]; [done|].
        apply notSentinel_ne in Hne. congruence. }
    assert (∀ v, v ∈ clans1 ↔ v ∈ clans ∨ (v = clan ∧ v ≠ VStr SENTINEL))
      as Hin2.
    { intros v. unfold clans1. destruct (notSentinel clan) eqn:Hs.
      - rewrite elem_of_valueSetAdd. apply notSentinel_ne in Hs.
        split; [intros [?| ->]; [by left|by right]|].
        intros [?|[-> _]]; [by left|by right].
      - split; [by left|]. intros [?|[-> Hne]]; [done|].
        apply notSentinel_ne in Hne. congruence. }
    split.
    + rewrite IHnone. split.
      * intros (m' & Hm' & Hbad). exists m'. split; [by right|done].
      * intros (m' & Hm' & Hbad). apply elem_of_cons in Hm' as [->|Hm'].
        -- by destruct Hbad.
        -- by exists m'.
    + intros ults' clans' Hout.
      destruct (IHsome ults' clans' Hout) as (Q1 & Q2 & Q3 & Q4).
      split_and!.
      * by etrans.
      * by etrans.
      * intros v. rewrite Q3, Hin1. split.
        -- intros [[?|[-> Hne]]|(m' & Hm' & Hg & Hne)].
           ++ by left.
           ++ right. exists m. split_and!; [left|done|done].
           ++ right. exists m'. split_and!; [by right|done|done].
        -- intros [?|(m' & Hm' & Hg & Hne)]; [left; by left|].
           apply elem_of_cons in Hm' as [->|Hm'].
           ++ left; right. split; [congruence|done].
           ++ right. by exists m'.
      * intros v. rewrite Q4, Hin2. split.
        -- intros [[?|[-> Hne]]|(m' & Hm' & Hg & Hne)].
           ++ by left.
           ++ right. exists m. split_and!; [left|done|done].
           ++ right. exists m'. split_and!; [by right|done|done].
        -- intros [?|(m' & Hm' & Hg & Hne)]; [left; by left|].
           apply elem_of_cons in Hm' as [->|Hm'].
           ++ left; right. split; [congruence|done].
           ++ right. by exists m'.
Qed.

End Rebuild.

(** X14: the configuration that the import rebuilds for a file without
    one. The loop throws exactly when the pool has a [null] (or undefined)
    entry. Otherwise both catalogs start with the built-in lists, so they
    hold the sentinel, and beyond those they hold exactly the [ult] and
    [clan] values of the pool entries other than the sentinel, whatever
    those values are: an entry without [ult] contributes [undefined]. The
    colours are the built-in ones. *)
Theorem import_rebuilds_catalogs_from_the_pool (pool : list Value) :
  (rebuildConfig pool = None
   ↔ ∃ m, m ∈ pool ∧ (m = VNull ∨ m = VUndefined)) ∧
  (∀ cfg, rebuildConfig pool = Some cfg →
     ∃ ults clans,
       cfg = VObj [(js "ultSkills", VArr ults);
                   (js "clanSkills", VArr clans);
                   (js "professionColors",
                    VObj ((λ kv, (kv.1, VStr kv.2)) <$> CLASS_COLORS))] ∧
       (VStr <$> DEFAULT_ULT_SKILLS) `prefix_of` ults ∧
       (VStr <$> DEFAULT_CLAN_SKILLS) `prefix_of` clans ∧
       VStr SENTINEL ∈ ults ∧ VStr SENTINEL ∈ clans ∧
       (∀ v, v ∈ ults
             ↔ v ∈ VStr <$> DEFAULT_ULT_SKILLS
               ∨ ∃ m, m ∈ pool ∧ getField m (js "ult") = Some v
                      ∧ v ≠ VStr SENTINEL) ∧
       (∀ v, v ∈ clans
             ↔ v ∈ VStr <$> DEFAULT_CLAN_SKILLS
               ∨ ∃ m, m ∈ pool ∧ getField m (js "clan") = Some v
                      ∧ v ≠ VStr SENTINEL)) ∧
  (∀ fields,
     (∀ f, f ∈ fields → f.1 ≠ js "ult") →
     ∃ cfg ults,
       rebuildConfig [VObj fields] = Some cfg ∧
       getField cfg (js "ultSkills") = Some (VArr ults) ∧
       VUndefined ∈ ults).
Proof.
  destruct (rebuild_loop pool (VStr <$> DEFAULT_ULT_SKILLS)
              (VStr <$> DEFAULT_CLAN_SKILLS)) as [Hnone Hsome].
  cbv zeta in Hnone, Hsome. split_and!.
  - rewrite <- Hnone. unfold rebuildConfig.
    destruct (foldl _ _ pool) as [[ults clans]|]; by simpl.
  - intros cfg. unfold rebuildConfig.
    destruct (foldl _ _ pool) as [[ults clans]|] eqn:Hloop; simpl; [|done].
    intros [= <-]. exists ults, clans.
    destruct (Hsome ults clans eq_refl) as (P1 & P2 & P3 & P4).
    split_and!; try done.
    + apply P3. left. apply list_elem_of_fmap. exists SENTINEL.
      split; [done|]. unfold DEFAULT_ULT_SKILLS.
      repeat first [apply list_elem_of_here|apply list_elem_of_further].
    + apply P4. left. apply list_elem_of_fmap. exists SENTINEL.
      split; [done|]. unfold DEFAULT_CLAN_SKILLS.
      repeat first [apply list_elem_of_here|apply list_elem_of_further].
  - intros fields Hno.
    assert (getField (VObj fields) (js "ult") = Some VUndefined) as Hult.
    { simpl. destruct (list_find _ fields) as [[i f]|] eqn:Hf; [|done].
      apply list_find_Some in Hf as (Hi & Hk & _).
      exfalso. apply (Hno f); [|done]. by eapply list_elem_of_lookup_2. }
    unfold rebuildConfig. cbn [foldl]. rewrite Hult.
    cbn [mbind option_bind notSentinel].
    destruct (getField (VObj fields) (js "clan")) as [clan|] eqn:Hclan;
      [|done].
    cbn [mbind option_bind fst snd]. eexists _, _.
    split; [reflexivity|]. split; [reflexivity|].
    apply elem_of_valueSetAdd. by right.
Qed.

(** ** The configuration dialog *)

Section Lines.
Implicit Types (s x : jsstring) (l : list jsstring) (sep : N).

Lemma splitOn_nonempty sep s : splitOn sep s ≠ [].
Proof.
  destruct s as [|c s]; simpl; [done|].
  destruct (c =? sep)%N; [done|]. by destruct (splitOn sep s).
Qed.

Lemma splitOn_whole sep x : sep ∉ x → splitOn sep x = [x].
Proof.
  induction x as [|c x IH]; intros Hx; simpl; [done|].
  rewrite not_elem_of_cons in Hx. destruct Hx as [Hc Hx].
  destruct (N.eqb_spec c sep) as [->|_]; [done|]. by rewrite IH.
Qed.

Lemma splitOn_first sep x s :
  sep ∉ x → splitOn sep (x ++ sep :: s) = x :: splitOn sep s.
Proof.
  induction x as [|c x IH]; intros Hx; simpl.
  - by rewrite N.eqb_refl.
  - rewrite not_elem_of_cons in Hx. destruct Hx as [Hc Hx].
    destruct (N.eqb_spec c sep) as [->|_]; [done|]. by rewrite IH.
Qed.

Lemma splitOn_joinLines l :
  l ≠ [] → Forall (λ x, LF ∉ x) l → splitOn LF (joinLines l) = l.
Proof.
  induction l as [|x l IH]; intros Hne Hl; [done|].
  apply Forall_cons in Hl as [Hx Hl]. destruct l as [|y l].
  - by apply splitOn_whole.
  - change (joinLines (x :: y :: l)) with (x ++ LF :: joinLines (y :: l)).
    rewrite splitOn_first by done. by rewrite IH.
Qed.

Lemma splitOn_no_sep sep s x : x ∈ splitOn sep s → sep ∉ x.
Proof.
  revert x. induction s as [|c s IH]; intros x; simpl.
  - intros ->%list_elem_of_singleton. apply not_elem_of_nil.
  - destruct (N.eqb_spec c sep) as [->|Hc].
    + intros [->|Hx]%elem_of_cons; [apply not_elem_of_nil|by apply IH].
    + destruct (splitOn sep s) as [|cur rest] eqn:Hs.
      { by destruct (splitOn_nonempty sep s). }
      intros [->|Hx]%elem_of_cons.
      * apply not_elem_of_cons. split; [done|]. apply IH. left.
      * apply IH. by right.
Qed.

Lemma tidy_trimStart s : tidy (trimStart s).
Proof.
  induction s as [|c s IH]; simpl; [done|].
  destruct (isWhiteSpace c) eqn:Hc; [done|]. by simpl.
Qed.

Lemma trimStart_tidy s : tidy s → trimStart s = s.
Proof. destruct s as [|c s]; simpl; [done|]. by intros ->. Qed.

Lemma trimStart_suffix s : ∃ k, s = k ++ trimStart s.
Proof.
  induction s as [|c s [k IH]]; simpl; [by exists []|].
  destruct (isWhiteSpace c); [|by exists []].
  exists (c :: k). simpl. by rewrite <- IH.
Qed.

(** [trim] leaves a string that is tidy at both ends, and leaves such a
    string alone. *)
Lemma trim_tidy s : tidy (trim s) ∧ tidy (reverse (trim s)).
Proof.
  unfold trim. set (t := trimStart s).
  assert (tidy t) as Ht by apply tidy_trimStart.
  set (u := trimStart (reverse t)).
  assert (tidy u) as Hu by apply tidy_trimStart.
  split; [|by rewrite reverse_involutive].
  destruct (trimStart_suffix (reverse t)) as [k Hk]. fold u in Hk.
  assert (t = reverse u ++ reverse k) as Heq.
  { rewrite <- reverse_app, <- Hk. by rewrite reverse_involutive. }
  destruct (reverse u) as [|c r]; [done|].
  rewrite Heq in Ht. done.
Qed.

Lemma trim_fixed s : tidy s → tidy (reverse s) → trim s = s.
Proof.
  intros Hs Hr. unfold trim.
  by rewrite (trimStart_tidy s), (trimStart_tidy (reverse s)),
    reverse_involutive.
Qed.

Lemma elem_of_trimStart (c : N) s : c ∈ trimStart s → c ∈ s.
Proof.
  destruct (trimStart_suffix s) as [k Hk]. intros Hc.
  rewrite Hk. apply elem_of_app. by right.
Qed.

Lemma elem_of_trim (c : N) s : c ∈ trim s → c ∈ s.
Proof.
  unfold trim. rewrite elem_of_reverse. intros Hc.
  apply elem_of_trimStart in Hc. rewrite elem_of_reverse in Hc.
  by apply elem_of_trimStart.
Qed.

Lemma skillLines_clean str : Forall cleanEntry (skillLines str).
Proof.
  apply Forall_forall. intros x Hx.
  apply elem_of_skillLines in Hx as (Hne & line & Hline & <-).
  destruct (trim_tidy line) as [H1 H2].
  split_and!; try done.
  intros Hlf. apply elem_of_trim in Hlf.
  by apply (splitOn_no_sep LF str line).
Qed.

Lemma skillLines_joinLines l : Forall cleanEntry l → skillLines (joinLines l) = l.
Proof.
  intros Hl. destruct l as [|x l]; [done|].
  unfold skillLines. rewrite splitOn_joinLines; [|done|].
  2:{ eapply Forall_impl; [exact Hl|]. by intros y (_ & Hlf & _). }
  induction Hl as [|y k Hy Hk IH]; [done|].
  destruct Hy as (Hne & _ & Ht & Hr).
  csimpl. rewrite (trim_fixed y Ht Hr). rewrite filter_cons.
  rewrite decide_True by (by destruct y). f_equal.
  destruct k; [done|]. by apply IH.
Qed.

End Lines.

(** X15: the configuration dialog. Every entry it saves is non-empty, on
    one line and without white space at either end; the dialog opened on
    catalogs of such entries and saved untouched hands the same catalogs
    back, with the colours it showed; and so saving, reopening and saving
    again changes nothing: the second save equals the first. *)
Theorem config_dialog_saves_clean_entries_once_and_for_all :
  (∀ str, Forall cleanEntry (skillLines str)) ∧
  (∀ config,
     Forall cleanEntry (GameConfig.ultSkills config) →
     Forall cleanEntry (GameConfig.clanSkills config) →
     let '(ultStr, clanStr, profColors) := GameConfigModal_open config in
     GameConfigModal_handleSave ultStr clanStr profColors
     = GameConfig.mk (GameConfig.ultSkills config)
         (GameConfig.clanSkills config) (Some profColors)) ∧
  (∀ ultStr clanStr profColors,
     let saved := GameConfigModal_handleSave ultStr clanStr profColors in
     let '(ultStr', clanStr', profColors') := GameConfigModal_open saved in
     GameConfigModal_handleSave ultStr' clanStr' profColors' = saved).
Proof.
  split_and!.
  - apply skillLines_clean.
  - intros config Hu Hc. unfold GameConfigModal_open, GameConfigModal_handleSave.
    by rewrite !skillLines_joinLines.
  - intros ultStr clanStr profColors.
    unfold GameConfigModal_open, GameConfigModal_handleSave; simpl.
    by rewrite !skillLines_joinLines by apply skillLines_clean.
Qed.

(** ** Importing a batch twice *)

Section Reimport.
Implicit Types (st : ImportState) (line name profession : jsstring).
Implicit Types (lines rest : list jsstring).

Lemma importLine_known generateId st line :
  knownLine st line →
  let st' := importLine generateId st line in
  Member.name <$> newPool st' = Member.name <$> newPool st ∧
  Member.id <$> newPool st' = Member.id <$> newPool st ∧
  foundUlts st' = foundUlts st ∧ foundClans st' = foundClans st ∧
  configChanged st' = configChanged st ∧ addedCount st' = addedCount st.
Proof.
  intros Hknown; simpl. unfold importLine.
  destruct (splitWs (trim line)) as [|name [|profession rest]] eqn:Hparts;
    simpl; [done..|].
  destruct (Hknown name profession rest Hparts) as (Hname & Hult & Hclan).
  assert (bool_decide (orElse (rest !! 0) SENTINEL ≠ SENTINEL
                       ∧ orElse (rest !! 0) SENTINEL ∉ foundUlts st) = false)
    as ->.
  { apply bool_decide_eq_false. intros [Hne Hnot]. by apply Hnot, Hult. }
  assert (bool_decide (orElse (rest !! 1) SENTINEL ≠ SENTINEL
                       ∧ orElse (rest !! 1) SENTINEL ∉ foundClans st) = false)
    as ->.
  { apply bool_decide_eq_false. intros [Hne Hnot]. by apply Hnot, Hclan. }
  apply list_elem_of_fmap in Hname as (m & Hm & Hin).
  destruct (list_find_elem_of (λ x, Member.name x = name) (newPool st) m Hin)
    as [[i existing] Hfind]; [done|].
  rewrite Hfind; simpl.
  apply list_find_Some in Hfind as (Hi & _ & _).
  split_and!; try done.
  - rewrite list_fmap_insert; simpl. apply list_insert_id.
    by rewrite list_lookup_fmap, Hi.
  - rewrite list_fmap_insert; simpl. apply list_insert_id.
    by rewrite list_lookup_fmap, Hi.
Qed.

Lemma importLines_known generateId lines st :
  Forall (knownLine st) lines →
  let st' := foldl (importLine generateId) st lines in
  Member.name <$> newPool st' = Member.name <$> newPool st ∧
  Member.id <$> newPool st' = Member.id <$> newPool st ∧
  foundUlts st' = foundUlts st ∧ foundClans st' = foundClans st ∧
  configChanged st' = configChanged st ∧ addedCount st' = addedCount st.
Proof.
  revert st. induction lines as [|line lines IH]; intros st Hall; simpl.
  { done. }
  apply Forall_cons in Hall as [Hline Hall].
  destruct (importLine_known generateId st line Hline)
    as (E1 & E2 & E3 & E4 & E5 & E6). simpl in *.
  destruct (IH (importLine generateId st line)) as (F1 & F2 & F3 & F4 & F5 & F6).
  { eapply Forall_impl; [exact Hall|]. intros l Hl name profession rest Hp.
    rewrite E1, E3, E4. by apply (Hl name profession rest). }
  simpl in *. split_and!; congruence.
Qed.

(** After a line is imported its name is in the pool. *)
Lemma importLine_names generateId st line name profession rest :
  splitWs (trim line) = name :: profession :: rest →
  name ∈ Member.name <$> newPool (importLine generateId st line).
Proof.
  intros Hparts.
  pose proof (importLine_fields generateId st line name profession rest Hparts)
    as Hstep. simpl in Hstep.
  destruct (list_find _ (newPool st)) as [[i existing]|] eqn:Hfind.
  - destruct Hstep as [-> _].
    apply list_find_Some in Hfind as (Hi & Hn & _).
    rewrite list_fmap_insert; simpl. rewrite list_insert_id
      by (by rewrite list_lookup_fmap, Hi).
    rewrite <- Hn. apply list_elem_of_fmap. exists existing.
    split; [done|]. by eapply list_elem_of_lookup_2.
  - destruct Hstep as [-> _]. rewrite fmap_app. apply elem_of_app. right.
    simpl. left.
Qed.

Lemma importLines_names generateId lines st line name profession rest :
  line ∈ lines →
  splitWs (trim line) = name :: profession :: rest →
  name ∈ Member.name <$> newPool (foldl (importLine generateId) st lines).
Proof.
  revert st. induction lines as [|l lines IH]; intros st Hin Hparts; simpl.
  { by apply elem_of_nil in Hin. }
  apply elem_of_cons in Hin as [<-|Hin]; [|by apply IH].
  pose proof (importLine_names generateId st line name profession rest Hparts)
    as Hname.
  apply list_elem_of_fmap in Hname as (m & -> & Hm).
  apply list_elem_of_lookup in Hm as [i Hi].
  destruct (importLines_run generateId lines (importLine generateId st line))
    as (_ & _ & Hkeep & _).
  destruct (Hkeep i m Hi) as (m' & Hi' & _ & <-).
  apply list_elem_of_fmap. exists m'. split; [done|].
  by eapply list_elem_of_lookup_2.
Qed.

End Reimport.

(** X16: importing the same text a second time, right after the first
    import, adds nobody: the reported count is zero, no configuration is
    handed on, and the members keep their order, ids and names. *)
Theorem batch_import_twice_adds_nobody
    (generateId generateId' : nat → jsstring) (localPool : list Member.t)
    (gameConfig : GameConfig.t) (batchText : jsstring) :
  let r1 := handleBatchImport generateId localPool gameConfig batchText in
  let r2 := handleBatchImport generateId' (updatedPool r1)
              (configAfter gameConfig r1) batchText in
  reportedAdded r2 = 0 ∧
  updatedConfig r2 = None ∧
  Member.id <$> updatedPool r2 = Member.id <$> updatedPool r1 ∧
  Member.name <$> updatedPool r2 = Member.name <$> updatedPool r1.
Proof.
  intros r1 r2. unfold r2, r1, handleBatchImport. simpl.
  set (lines := splitOn LF (trim batchText)).
  set (start := mkImport localPool (setOf (GameConfig.ultSkills gameConfig))
                  (setOf (GameConfig.clanSkills gameConfig)) false 0).
  set (st1 := foldl (importLine generateId) start lines).
  destruct (importLines_run generateId lines start)
    as (_ & _ & _ & _ & _ & _ & Hsame & _ & Hfound). fold st1 in Hsame, Hfound.
  set (cfg1 := configAfter gameConfig
                 (mkBatch
                    (if configChanged st1
                     then Some (GameConfig.mk (foundUlts st1) (foundClans st1)
                                  (GameConfig.professionColors gameConfig))
                     else None)
                    (newPool st1) (addedCount st1))).
  set (start2 := mkImport (newPool st1) (setOf (GameConfig.ultSkills cfg1))
                   (setOf (GameConfig.clanSkills cfg1)) false 0).
  assert (∀ x, (x ∈ foundUlts st1 → x ∈ foundUlts start2) ∧
               (x ∈ foundClans st1 → x ∈ foundClans start2)) as Hcat.
  { intros x. unfold start2, cfg1, configAfter; simpl.
    rewrite !elem_of_setOf.
    destruct (configChanged st1) eqn:Hch; simpl; [done|].
    destruct (Hsame eq_refl) as [-> ->]. simpl.
    by rewrite !elem_of_setOf. }
  assert (Forall (knownLine start2) lines) as Hknown.
  { apply Forall_forall. intros line Hline name profession rest Hparts.
    destruct (Hfound line name profession rest Hline Hparts) as [Hu Hc].
    split_and!.
    - by eapply importLines_names.
    - intros Hne. by apply Hcat, Hu.
    - intros Hne. by apply Hcat, Hc. }
  destruct (importLines_known generateId' lines start2 Hknown)
    as (E1 & E2 & _ & _ & E5 & E6). simpl in E5, E6.
  fold start2. rewrite E5, E6. by split_and!.
Qed.

(** ** The session as a whole *)

Section Session.
Implicit Types (d : AppData.t) (id : jsstring) (st : AppState).

Lemma occurrences_poolUpdate_le id (newPool : list Member.t) d :
  occurrences id (commit d (handlePoolUpdate newPool d)) ≤ occurrences id d.
Proof.
  simpl.
  set (f := λ slot : Slot.t,
         Slot.set_memberId
           (reconcileMemberId (list_to_set (Member.id <$> newPool))
              (Slot.memberId slot)) slot).
  change (occurrences id (AppData.set_groups (mapSlots f) d)
          ≤ occurrences id d).
  apply occurrences_mapSlots_le. intros x. unfold f, holds; simpl.
  destruct (reconcileMemberId_spec newPool (Slot.memberId x))
    as ([Hn|He] & _ & _).
  - rewrite Hn. rewrite decide_False by done. lia.
  - by rewrite He.
Qed.

Lemma occurrences_rename id groupIdx squadIdx (val : jsstring) d :
  occurrences id (commit d (handleSquadNameChange groupIdx squadIdx val d))
  = occurrences id d.
Proof.
  unfold handleSquadNameChange.
  destruct (AppData.groups d !! groupIdx) as [grp|] eqn:Hg; simpl; [|done].
  destruct (Group.squads grp !! squadIdx) as [sq|] eqn:Hs; simpl; [|done].
  unfold occurrences; simpl.
  pose proof (sum_list_insert (occGroup id) groupIdx (AppData.groups d) grp
                (Group.set_squads
                   (λ _, <[squadIdx := Squad.set_name val sq]>
                           (Group.squads grp)) grp) Hg) as Hgroups.
  pose proof (sum_list_insert (occSquad id) squadIdx (Group.squads grp) sq
                (Squad.set_name val sq) Hs) as Hsquads.
  change (occSquad id (Squad.set_name val sq)) with (occSquad id sq)
    in Hsquads.
  assert (occGroup id
            (Group.set_squads
               (λ _, <[squadIdx := Squad.set_name val sq]>
                       (Group.squads grp)) grp)
          = occGroup id grp) as Hsame.
  { unfold occGroup; simpl. lia. }
  rewrite Hsame in Hgroups. lia.
Qed.

Lemma appStep_occurrences st (op : AppOp) id :
  appOffered st op →
  occurrences id (data st) ≤ 1 → occurrences id (data (appStep st op)) ≤ 1.
Proof.
  destruct op as [op|newPool|edits|newConfig|updatedMember|g s val]; simpl.
  - apply step_occurrences.
  - intros _ Hle. pose proof (occurrences_poolUpdate_le id newPool (data st)).
    simpl in *. lia.
  - intros _ Hle. unfold occurrences; simpl.
    etrans; [apply occ_applyEdits|done].
  - done.
  - done.
  - intros _ Hle.
    pose proof (occurrences_rename id g s val (data st)). lia.
Qed.

End Session.

(** X17: I2 along a whole session. From a document in which no member id
    is held by two slots, every document visited by any series of placement
    operations, pool updates, structure edits, configuration updates, skill
    edits and squad renames still holds each member id in at most one
    slot. *)
Theorem session_keeps_members_unique (ops : list AppOp) (st : AppState) :
  uniquePlacement (data st) →
  appOfferedRun st ops →
  Forall (λ st', uniquePlacement (data st')) (appTrace st ops).
Proof.
  revert st. induction ops as [|op ops IH]; intros st Hu Hrun; simpl.
  { constructor. }
  destruct Hrun as [Hop Hrun].
  assert (uniquePlacement (data (appStep st op))) as Hu'.
  { intros id. by apply appStep_occurrences. }
  constructor; [done|by apply IH].
Qed.

Lemma session_keeps_members_unique_run :
  let st := mkState sampleDoc None in
  let gen := λ k : nat, js "n" ++ decimal k in
  let ops := [Placement (SelectMember (js "m2"));
              Placement (ClickSlot 0 0 2 false);
              PoolEdit [bob];
              StructureEdit [UpdateGroup 0 (FieldNewLine true);
                             SquadCount gen false 0 1; AddGroup gen];
              SquadRename 0 1 (js "Two");
              ConfigEdit defaultConfig;
              SkillEdit (skillEditorSave bob SENTINEL SENTINEL []);
              Placement (Drop 1 0 0 (SlotPayload 0 0 2 (js "m2")))] in
  Forall (λ st', uniquePlacement (data st')) (appTrace st ops).
Proof.
  intros st gen ops.
  assert (appOfferedRun st ops) as Hrun.
  { simpl. split_and!; try done; lia. }
  exact (session_keeps_members_unique ops st sampleDoc_unique Hrun).
Defined.

Lemma structure_edits_never_add_holders_run :
  let gen := λ k : nat, js "n" ++ decimal k in
  let edits := [UpdateGroup 0 (FieldName (js "Core"));
                SquadCount gen false 0 1; SquadCount gen true 0 (-1);
                AddGroup gen; DeleteGroup true 1] in
  uniquePlacement (commit sampleDoc (editStructure edits sampleDoc))
  ∧ noDangling (commit sampleDoc (editStructure edits sampleDoc)).
Proof.
  intros gen edits.
  assert (editsOffered (AppData.groups sampleDoc) edits) as Hoffered.
  { simpl. split_and!; try done; lia. }
  destruct (structure_edits_never_add_holders edits sampleDoc Hoffered)
    as (d' & Hd' & _ & _ & _ & Hu & Hnd).
  rewrite Hd'. split; [exact (Hu sampleDoc_unique)|].
  exact (Hnd sampleDoc_noDangling).
Defined.

(** ** What the interface offers *)

(** X18: the components hand the handlers nothing but offered operations.
    A drag that starts on a slot of the board carries the id the slot
    holds, which is non-empty and names a pool member, so a drop of it
    anywhere is admissible; the context menu of such a slot opens on the
    member the slot shows; and every member listed in the sidebar is
    selected and dragged under the id of a pool member. *)
Theorem interface_hands_over_offered_operations
    (st : AppState) (g s sl : nat) (slot : Slot.t) :
  slotAt (data st) g s sl = Some slot →
  let pool := AppData.pool (data st) in
  (∀ isExportMode p, slotDragStart isExportMode pool g s sl slot = Some p →
     ∃ id, p = SlotPayload g s sl id ∧ Slot.memberId slot = Some id ∧
           id ≠ [] ∧ knownMember (data st) id ∧
           ∀ tg ts tsl, admissible st (Drop tg ts tsl p)
                        ∧ offered st (Drop tg ts tsl p)) ∧
  (∀ member, resolvedMember pool slot = Some member →
     slotContextMenu false slot (data st) = Some member) ∧
  (∀ member, member ∈ availableMembers pool (data st) →
     offered st (sidebarSelect member) ∧
     ∀ tg ts tsl, offered st (Drop tg ts tsl (sidebarDragStart member))).
Proof.
  intros Hslot pool.
  assert (∀ member, resolvedMember pool slot = Some member →
            Slot.memberId slot = Some (Member.id member) ∧
            Member.id member ≠ [] ∧ member ∈ pool ∧
            findMember pool (Member.id member) = Some member) as Hres.
  { intros member. unfold resolvedMember.
    destruct (Slot.memberId slot) as [id|]; [|done].
    destruct (truthy id) eqn:Ht; [|done]. intros Hfind.
    destruct (findMember_Some _ _ _ Hfind) as (i & Hi & <- & _).
    split_and!; [done|by destruct (Member.id member)| |done].
    by eapply list_elem_of_lookup_2. }
  split_and!.
  - intros isExportMode p. unfold slotDragStart.
    destruct (resolvedMember pool slot) as [member|] eqn:Hr; simpl; [|done].
    destruct isExportMode; [done|]. intros [= <-].
    destruct (Hres member eq_refl) as (Hid & Hne & Hin & _).
    exists (Member.id member). split_and!; [done..|by exists member|].
    intros tg ts tsl. simpl. by rewrite Hslot; simpl; rewrite Hid.
  - intros member Hr. unfold slotContextMenu. fold pool. rewrite Hr; simpl.
    by apply Hres.
  - intros member Hin. unfold availableMembers in Hin.
    apply list_elem_of_filter in Hin as [_ Hin].
    split; [by exists member|]. intros tg ts tsl. by exists member.
Qed.

Lemma interface_hands_over_offered_operations_run :
  slotDragStart false (AppData.pool sampleDoc) 0 0 1
    (Slot.mk (js "b") (Some (js "m2")) [])
  = Some (SlotPayload 0 0 1 (js "m2")) ∧
  admissible (mkState sampleDoc None)
    (Drop 0 0 2 (SlotPayload 0 0 1 (js "m2"))).
Proof.
  destruct (interface_hands_over_offered_operations
              (mkState sampleDoc None) 0 0 1
              (Slot.mk (js "b") (Some (js "m2")) []) eq_refl)
    as (Hdrag & _ & _).
  destruct (Hdrag false (SlotPayload 0 0 1 (js "m2")) eq_refl)
    as (id & _ & _ & _ & _ & Hdrop).
  split; [reflexivity|exact (proj1 (Hdrop 0 0 2))].
Defined.

(** ** Names in the pool *)

Section Names.
Implicit Types (st : ImportState) (line : jsstring) (lines : list jsstring).

Lemma importLine_names_NoDup generateId st line :
  NoDup (Member.name <$> newPool st) →
  NoDup (Member.name <$> newPool (importLine generateId st line)).
Proof.
  intros Hnd.
  destruct (splitWs (trim line)) as [|name [|profession rest]] eqn:Hparts.
  - rewrite importLine_short; [done|]. rewrite Hparts; simpl; lia.
  - rewrite importLine_short; [done|]. rewrite Hparts; simpl; lia.
  - pose proof (importLine_fields generateId st line name profession rest
                  Hparts) as Hstep. simpl in Hstep.
    destruct (list_find _ (newPool st)) as [[i existing]|] eqn:Hfind.
    + destruct Hstep as [-> _].
      apply list_find_Some in Hfind as (Hi & _ & _).
      rewrite list_fmap_insert; simpl.
      by rewrite list_insert_id by (by rewrite list_lookup_fmap, Hi).
    + destruct Hstep as [-> _]. apply list_find_None in Hfind.
      rewrite fmap_app; simpl. apply NoDup_app.
      split_and!; [done| |apply NoDup_singleton].
      intros n Hin Hin'. apply list_elem_of_singleton in Hin' as ->.
      apply list_elem_of_fmap in Hin as (y & Hy & Hin).
      rewrite Forall_forall in Hfind. by apply (Hfind y).
Qed.

Lemma importLines_names_NoDup generateId lines st :
  NoDup (Member.name <$> newPool st) →
  NoDup (Member.name <$> newPool (foldl (importLine generateId) st lines)).
Proof.
  revert st. induction lines as [|line lines IH]; intros st Hnd; simpl.
  - done.
  - by apply IH, importLine_names_NoDup.
Qed.

End Names.

(** X19: the batch import keeps member names unique: when no two members
    of the pool share a name, no two members of the imported pool do, and
    the name of every line with at least two fields is the name of a member
    afterwards. *)
Theorem batch_import_keeps_names_unique
    (generateId : nat → jsstring) (localPool : list Member.t)
    (gameConfig : GameConfig.t) (batchText : jsstring) :
  NoDup (Member.name <$> localPool) →
  let r := handleBatchImport generateId localPool gameConfig batchText in
  NoDup (Member.name <$> updatedPool r) ∧
  ∀ line name profession rest,
    line ∈ splitOn LF (trim batchText) →
    splitWs (trim line) = name :: profession :: rest →
    name ∈ Member.name <$> updatedPool r.
Proof.
  intros Hnd r. unfold r, handleBatchImport; simpl. split.
  - by apply importLines_names_NoDup.
  - intros line name profession rest Hline Hparts.
    by eapply importLines_names.
Qed.

Lemma batch_import_keeps_names_unique_run :
  let generateId := λ k, js "n" ++ [N.of_nat k] in
  let text := js "Bob tank" ++ [LF] ++ js "Bob healer" ++ [LF] ++ js "Cy x" in
  let r := handleBatchImport generateId [alice; bob] defaultConfig text in
  Member.name <$> updatedPool r = [js "Alice"; js "Bob"; js "Cy"] ∧
  NoDup (Member.name <$> updatedPool r).
Proof.
  intros generateId text r.
  assert (NoDup (Member.name <$> [alice; bob])) as Hnames.
  { apply (bool_decide_unpack _). by vm_compute. }
  split; [reflexivity|].
  exact (proj1 (batch_import_keeps_names_unique generateId [alice; bob]
                  defaultConfig text Hnames)).
Defined.

(** ** Colour and strategy of a group *)

(** X20: the structure editor and the board derive the same colour and the
    same strategy for every group whose deprecated [theme] is missing,
    empty or one of the six themes of [THEME_CONFIG]; both ignore the theme
    once the group has a colour, respectively a strategy, of its own; and
    under another theme they can part: the editor shows a colour and a
    strategy where the board has none. *)
Theorem editor_and_board_agree_on_known_themes :
  (∀ group,
     match Group.theme group with
     | Some theme => theme = [] ∨ theme ∈ THEME_CONFIG.*1
     | None => True
     end →
     currentColor group = themeColor group ∧
     currentStrategy group = strategyTag group) ∧
  (∀ group,
     (truthyOpt (Group.color group) = true →
      currentColor group = Group.color group ∧
      themeColor group = Group.color group) ∧
     (truthyOpt (Group.strategy group) = true →
      currentStrategy group = Group.strategy group ∧
      strategyTag group = Group.strategy group)) ∧
  (∃ group,
     is_Some (currentColor group) ∧ themeColor group = None ∧
     is_Some (currentStrategy group) ∧ strategyTag group = None).
Proof.
  split_and!.
  - intros [i n theme color strategy nl sqs]; simpl. intros Htheme.
    unfold currentColor, themeColor, currentStrategy, strategyTag, orElseOpt;
      simpl.
    assert (theme = None ∨ theme = Some [] ∨
            ∃ t, theme = Some t ∧ t ∈ THEME_CONFIG.*1) as Hcases.
    { destruct theme as [t|]; [|by left]. right.
      destruct Htheme as [->|?]; [by left|right; by exists t]. }
    clear Htheme.
    destruct Hcases as [->|[->|(t & -> & Ht)]].
    + by destruct (truthyOpt color), (truthyOpt strategy).
    + by destruct (truthyOpt color), (truthyOpt strategy).
    + unfold THEME_CONFIG in Ht. csimpl in Ht.
      repeat (apply elem_of_cons in Ht as [->|Ht];
              [by destruct (truthyOpt color), (truthyOpt strategy)|]).
      by apply elem_of_nil in Ht.
  - intros group. unfold currentColor, themeColor, currentStrategy,
      strategyTag, orElseOpt.
    split; by intros ->.
  - exists (Group.mk (js "g") (js "G") (Some (js "x(" ++ [0x7EA2%N] ++ js ")"))
              None None None []).
    split_and!; [by eexists|done|by eexists|done].
Qed.

Lemma editor_and_board_agree_on_known_themes_run :
  let group := Group.mk (js "g1") (js "Main") (Some ATTACK_THEME) None None
                 None [] in
  currentColor group = Some (js "#EF9A9A") ∧
  themeColor group = Some (js "#EF9A9A") ∧
  currentStrategy group = strategyTag group.
Proof.
  intros group.
  assert (ATTACK_THEME = [] ∨ ATTACK_THEME ∈ THEME_CONFIG.*1) as Hknown.
  { right. unfold THEME_CONFIG. csimpl. left. }
  destruct (proj1 editor_and_board_agree_on_known_themes group Hknown)
    as [Hcolor Hstrategy].
  split; [reflexivity|]. split; [reflexivity|exact Hstrategy].
Defined.
